(** * Call session orchestration: session store, signaling relay and
      conference bridge of the WhatsApp / HubSpot calling integration

    A shallow embedding of
    - [WebRTCService], the module required as [services/webrtcService],
    - [TwilioService], backend/src/services/twilioService.js,
    - [SocketHandler], the module that follows [HubSpotService] in
      backend/src/services/hubspotService.js: the handlers of
      [authenticate], of the three signaling messages, of [session:join]
      and of [session:leave],
    and the properties of the specification that concern them.

    Conventions of the embedding:
    - timestamps ([new Date().toISOString()]) are integers, the milliseconds
      since the epoch; the ISO string is a faithful rendering of them;
    - [uuidv4()] and [new Date()] are inputs of the operations that call
      them;
    - an [async] method that may reject returns a [Result];
    - the in-process [Map] keeps insertion order and is an association
      list with unique keys; the Redis store is a finite map from keys to
      values, together with the time each key has left to live;
    - session identifiers are strings, as [uuidv4()] makes them and as
      the HTTP route takes them from the URL.  The socket handlers hand
      on whatever the client sent; the service keys its [Map] by the
      value it is handed and Redis by the rendering of that value in a
      template literal, and the two agree on strings only.  A value of
      another type (an array, a number, [undefined]) in the place of a
      session identifier is outside the embedding: every property below
      is a property of calls and messages whose session identifier is a
      string. *)

From stdpp Require Import gmap strings list fin_maps.
From Stdlib Require Import ZArith.

Open Scope string_scope.
Open Scope list_scope.
Open Scope Z_scope.

(** ** Results of fallible (rejecting or throwing) code *)

Inductive Result (A : Type) : Type :=
| Ok (a : A)
| Throw (message : string).
Arguments Ok {A} a.
Arguments Throw {A} message.

Definition isOk {A} (r : Result A) : bool :=
  match r with Ok _ => true | Throw _ => false end.

(** ** The JavaScript [Map]: insertion-ordered, unique keys *)

Module JsMap.
Section ops.
Context {V : Type}.

Fixpoint get (k : string) (m : list (string * V)) : option V :=
  match m with
  | [] => None
  | (k', v) :: m' => if String.eqb k k' then Some v else get k m'
  end.

(** [set] on a present key replaces the value in place; on an absent
    key it appends the entry. *)
Fixpoint set (k : string) (v : V) (m : list (string * V)) : list (string * V) :=
  match m with
  | [] => [(k, v)]
  | (k', v') :: m' =>
      if String.eqb k k' then (k, v) :: m' else (k', v') :: set k v m'
  end.

Fixpoint delete (k : string) (m : list (string * V)) : list (string * V) :=
  match m with
  | [] => []
  | (k', v') :: m' =>
      if String.eqb k k' then delete k m' else (k', v') :: delete k m'
  end.

Definition values (m : list (string * V)) : list V := m.*2.

Definition keys (m : list (string * V)) : list string := m.*1.

(** Well-formedness: a [Map] has no two entries with the same key. *)
Definition wf (m : list (string * V)) : Prop := NoDup (keys m).
End ops.
End JsMap.

(** ** WebRTCService: the data model *)

Record Participant := {
  p_userId : string;
  p_socketId : string;
  p_joinedAt : Z;
  p_status : string
}.

Record Session := {
  id : string;
  userId : string;
  type : string;
  status : string;
  createdAt : Z;
  participants : list Participant;
  iceConfiguration : list string
}.

Definition setParticipants (ps : list Participant) (s : Session) : Session :=
  {| id := id s; userId := userId s; type := type s; status := status s;
     createdAt := createdAt s; participants := ps;
     iceConfiguration := iceConfiguration s |}.

Definition setStatus (st : string) (s : Session) : Session :=
  {| id := id s; userId := userId s; type := type s; status := st;
     createdAt := createdAt s; participants := participants s;
     iceConfiguration := iceConfiguration s |}.

(** The service object together with the Redis server it talks to.
    [redis] holds the keys Redis has at the moment, with their values, and
    [ttl] the time in milliseconds that each key written with an expiry
    has left to live.  [faults] is the oracle of the Redis connection:
    its head tells whether the next Redis call throws ([true]) or goes
    through; an exhausted oracle means no further fault. *)
Record State := {
  stunServers : list string;
  activeSessions : list (string * Session);
  redis : gmap string Session;
  ttl : gmap string Z;
  faults : list bool
}.

Definition setActiveSessions (m : list (string * Session)) (st : State) : State :=
  {| stunServers := stunServers st; activeSessions := m;
     redis := redis st; ttl := ttl st; faults := faults st |}.

Definition setRedis (r : gmap string Session) (st : State) : State :=
  {| stunServers := stunServers st; activeSessions := activeSessions st;
     redis := r; ttl := ttl st; faults := faults st |}.

Definition setTtl (t : gmap string Z) (st : State) : State :=
  {| stunServers := stunServers st; activeSessions := activeSessions st;
     redis := redis st; ttl := t; faults := faults st |}.

Definition setFaults (fs : list bool) (st : State) : State :=
  {| stunServers := stunServers st; activeSessions := activeSessions st;
     redis := redis st; ttl := ttl st; faults := fs |}.

(** The service right after its constructor ran, against an empty Redis. *)
Definition initial (stun : list string) (fs : list bool) : State :=
  {| stunServers := stun; activeSessions := []; redis := ∅; ttl := ∅;
     faults := fs |}.

(** The error a failed Redis call rejects with (its text comes from the
    Redis client and is not fixed by the service). *)
Definition redisError : string := "Redis unavailable".

(** [webrtc:session:${sessionId}] *)
Definition redisKey (sessionId : string) : string :=
  "webrtc:session:" +:+ sessionId.

(** One call to the Redis client: [getClient()] followed by the awaited
    command [f].  The oracle decides whether it throws. *)
Definition redisCall {A} (f : gmap string Session → A * gmap string Session)
    (st : State) : Result A * State :=
  match faults st with
  | true :: fs => (Throw redisError, setFaults fs st)
  | false :: fs =>
      let '(a, r) := f (redis st) in (Ok a, setFaults fs (setRedis r st))
  | [] =>
      let '(a, r) := f (redis st) in (Ok a, setRedis r st)
  end.

(** Whether a key is still there after [ms] milliseconds: it has no
    expiry, or more than [ms] left to live. *)
Definition outlives (ms : Z) (t : gmap string Z) (key : string) : bool :=
  match t !! key with
  | Some remaining => ms <? remaining
  | None => true
  end.

(** [ms] milliseconds pass at the Redis server: the keys whose time is up
    are gone, the others have that much less to live.  The service itself
    keeps no clock. *)
Definition elapse (ms : Z) (st : State) : State :=
  {| stunServers := stunServers st; activeSessions := activeSessions st;
     redis := filter (λ kv, outlives ms (ttl st) kv.1 = true) (redis st);
     ttl := (λ remaining, remaining - ms)
            <$> filter (λ kv, (ms <? kv.2) = true) (ttl st);
     faults := faults st |}.

(** No Redis call of the run ahead fails. *)
Definition noFaults (st : State) : Prop := Forall (λ b, b = false) (faults st).

(** The next Redis call goes through. *)
Definition nextCallOk (st : State) : Prop := head (faults st) ≠ Some true.

(** ** WebRTCService: the operations *)

(** [getIceServers]: the object [{ iceServers: [{ urls: s }, ...] }] is
    kept as the list of its urls. *)
Definition getIceServers (st : State) : list string := stunServers st.

(** [storeSession]: [setEx key 3600 JSON]; logs and rethrows on failure.
    The value kept is the session itself: [JSON.parse] of
    [JSON.stringify] gives the record back.  Every write gives the key
    3600 seconds to live, counted anew. *)
Definition storeSession (sessionId : string) (session : Session) (st : State)
    : Result unit * State :=
  match redisCall (λ r, (tt, <[redisKey sessionId := session]> r)) st with
  | (Ok _, st') =>
      (Ok tt, setTtl (<[redisKey sessionId := 3600 * 1000]> (ttl st')) st')
  | (Throw e, st') => (Throw e, st')
  end.

(** [getSession]: reads Redis; a failure is logged and gives [null]. *)
Definition getSession (sessionId : string) (st : State)
    : option Session * State :=
  match redisCall (λ r, (r !! redisKey sessionId, r)) st with
  | (Ok v, st') => (v, st')
  | (Throw _, st') => (None, st')
  end.

(** [deleteSession]: deletes the Redis key; a failure is only logged. *)
Definition deleteSession (sessionId : string) (st : State) : State :=
  match redisCall (λ r, (tt, delete (redisKey sessionId) r)) st with
  | (Ok _, st') => setTtl (delete (redisKey sessionId) (ttl st')) st'
  | (Throw _, st') => st'
  end.

Definition createSession (uid : string) (ty : string)
    (uuid : string) (now : Z) (st : State) : Result Session * State :=
  let session :=
    {| id := uuid; userId := uid; type := ty; status := "created";
       createdAt := now; participants := [];
       iceConfiguration := getIceServers st |} in
  let st1 := setActiveSessions (JsMap.set uuid session (activeSessions st)) st in
  match storeSession uuid session st1 with
  | (Ok _, st2) => (Ok session, st2)
  | (Throw e, st2) => (Throw e, st2)
  end.

(** The second half of [joinSession], once the session object is at hand
    (and is the one the map holds): push, mark active, write through.
    The push mutates the object the map holds, so the map sees it even
    when the write-through then throws. *)
Definition joinFound (sessionId uid socketId : string) (now : Z)
    (session : Session) (st : State) : Result Session * State :=
  let participant :=
    {| p_userId := uid; p_socketId := socketId; p_joinedAt := now;
       p_status := "connected" |} in
  let session' :=
    setStatus "active"
      (setParticipants (participants session ++ [participant]) session) in
  let st1 :=
    setActiveSessions (JsMap.set sessionId session' (activeSessions st)) st in
  match storeSession sessionId session' st1 with
  | (Ok _, st2) => (Ok session', st2)
  | (Throw e, st2) => (Throw e, st2)
  end.

(** [joinSession] for a [sessionId] that is a string: the key of the map
    and the key of Redis then name the same session. *)
Definition joinSession (sessionId uid socketId : string) (now : Z)
    (st : State) : Result Session * State :=
  match JsMap.get sessionId (activeSessions st) with
  | Some session => joinFound sessionId uid socketId now session st
  | None =>
      match getSession sessionId st with
      | (None, st1) => (Throw "Session not found", st1)
      | (Some session, st1) =>
          joinFound sessionId uid socketId now session
            (setActiveSessions
               (JsMap.set sessionId session (activeSessions st1)) st1)
      end
  end.

Definition leaveSession (sessionId uid : string) (st : State)
    : Result Session * State :=
  match JsMap.get sessionId (activeSessions st) with
  | None => (Throw "Session not found", st)
  | Some session =>
      let ps := filter (λ p, p_userId p ≠ uid) (participants session) in
      if (length ps =? 0)%nat then
        let session' := setStatus "ended" (setParticipants ps session) in
        let st1 :=
          setActiveSessions (JsMap.delete sessionId (activeSessions st)) st in
        (Ok session', deleteSession sessionId st1)
      else
        let session' := setParticipants ps session in
        let st1 :=
          setActiveSessions
            (JsMap.set sessionId session' (activeSessions st)) st in
        match storeSession sessionId session' st1 with
        | (Ok _, st2) => (Ok session', st2)
        | (Throw e, st2) => (Throw e, st2)
        end
  end.

Definition getSessionInfo (sessionId : string) (st : State) : Result Session :=
  match JsMap.get sessionId (activeSessions st) with
  | Some session => Ok session
  | None => Throw "Session not found"
  end.

Definition getAllActiveSessions (st : State) : list Session :=
  JsMap.values (activeSessions st).

(** [createdAt < oneHourAgo], with [oneHourAgo = now - 60 * 60 * 1000]. *)
Definition expired (now : Z) (session : Session) : bool :=
  createdAt session <? now - 60 * 60 * 1000.

(** The loop of [cleanupExpiredSessions] over the entries of the map.
    Only the entry under the cursor is ever deleted, so the live iterator
    of the [Map] visits the entries the loop started with. *)
Fixpoint sweep (entries : list (string * Session)) (now : Z) (st : State)
    : State :=
  match entries with
  | [] => st
  | (sessionId, session) :: rest =>
      if expired now session then
        sweep rest now
          (deleteSession sessionId
             (setActiveSessions
                (JsMap.delete sessionId (activeSessions st)) st))
      else sweep rest now st
  end.

Definition cleanupExpiredSessions (now : Z) (st : State) : State :=
  sweep (activeSessions st) now st.

(** Calling [leaveSession] for one user after the other. *)
Fixpoint leaveAll (sessionId : string) (uids : list string) (st : State)
    : list (Result Session) * State :=
  match uids with
  | [] => ([], st)
  | uid :: uids' =>
      let '(r, st1) := leaveSession sessionId uid st in
      let '(rs, st2) := leaveAll sessionId uids' st1 in
      (r :: rs, st2)
  end.

(** The outcome of the [leaveSession] that drained the session: the
    session comes back ended and without participants. *)
Definition sessionDeleted (r : Result Session) : bool :=
  match r with
  | Ok s => String.eqb (status s) "ended" && (length (participants s) =? 0)%nat
  | Throw _ => false
  end.

(** How many calls of a series drained the session. *)
Definition deletions (rs : list (Result Session)) : nat :=
  length (filter (λ r, Is_true (sessionDeleted r)) rs).

(** The number of participant entries of a user in a session. *)
Definition entriesOf (uid : string) (s : Session) : nat :=
  length (filter (λ p, p_userId p = uid) (participants s)).

(** ** Runs of the session store *)

(** The operations of the service, and the passing of time at the Redis
    server while the service does nothing. *)
Inductive Op :=
| OpCreate (uid ty uuid : string)
| OpJoin (sessionId uid socketId : string)
| OpLeave (sessionId uid : string)
| OpDelete (sessionId : string)
| OpSweep
| OpElapse (ms : Z).

(** One operation at wall-clock time [now]: the session it hands back to
    its caller, if any, and the state it leaves. *)
Definition step (now : Z) (op : Op) (st : State) : Result (option Session) * State :=
  match op with
  | OpCreate uid ty uuid =>
      match createSession uid ty uuid now st with
      | (Ok s, st') => (Ok (Some s), st')
      | (Throw e, st') => (Throw e, st')
      end
  | OpJoin sessionId uid socketId =>
      match joinSession sessionId uid socketId now st with
      | (Ok s, st') => (Ok (Some s), st')
      | (Throw e, st') => (Throw e, st')
      end
  | OpLeave sessionId uid =>
      match leaveSession sessionId uid st with
      | (Ok s, st') => (Ok (Some s), st')
      | (Throw e, st') => (Throw e, st')
      end
  | OpDelete sessionId => (Ok None, deleteSession sessionId st)
  | OpSweep => (Ok None, cleanupExpiredSessions now st)
  | OpElapse ms => (Ok None, elapse ms st)
  end.

(** The run of a sequence of timed operations: after each one, what it
    returned and the state it left. *)
Fixpoint run (ops : list (Z * Op)) (st : State)
    : list (Result (option Session) * State) :=
  match ops with
  | [] => []
  | (now, op) :: ops' =>
      let o := step now op st in o :: run ops' (snd o)
  end.

(** The sessions an observer sees at a point of a run: the one just
    returned, those of the in-process map, and those of Redis. *)
Definition observed (o : Result (option Session) * State) (s : Session) : Prop :=
  o.1 = Ok (Some s)
  ∨ (∃ k, JsMap.get k (activeSessions o.2) = Some s)
  ∨ (∃ k, redis o.2 !! k = Some s).

(** The identifiers [uuidv4()] produced in a run. *)
Fixpoint createdIds (ops : list (Z * Op)) : list string :=
  match ops with
  | [] => []
  | (_, OpCreate _ _ uuid) :: ops' => uuid :: createdIds ops'
  | _ :: ops' => createdIds ops'
  end.

(** The identifier an operation takes from [uuidv4()], if any. *)
Definition createdId (op : Op) : list string :=
  match op with
  | OpCreate _ _ uuid => [uuid]
  | _ => []
  end.

(** The invariant of the two tiers, relative to the identifiers [E] of
    the sessions seen ended and [C] of the sessions created so far: the
    map has unique keys; every session of either tier sits under its own
    identifier, is not ended, was created and was never seen ended. *)
Definition storeInv (E C : string → Prop)
    (m : list (string * Session)) (r : gmap string Session) : Prop :=
  JsMap.wf m
  ∧ (∀ k s, JsMap.get k m = Some s →
       id s = k ∧ status s ≠ "ended" ∧ C k ∧ ¬ E k)
  ∧ (∀ key s, r !! key = Some s →
       key = redisKey (id s) ∧ status s ≠ "ended" ∧ C (id s) ∧ ¬ E (id s))
  ∧ (∀ e, E e → C e).

(** ** TwilioService *)

(** A value read from [process.env] or a constructor field may be
    [undefined]; a template literal renders that as [undefined]. *)
Definition tmpl (v : option string) : string := default "undefined" v.

Record ConferenceParams := {
  friendlyName : string;
  conf_statusCallback : string;
  conf_statusCallbackEvent : list string;
  conf_statusCallbackMethod : string;
  conf_record : string;
  recordingStatusCallback : string
}.

Record CallParams := {
  to : string;
  from : option string;
  url : string;
  statusCallback : string;
  statusCallbackEvent : list string;
  timeout : Z
}.

Inductive Request :=
| ConferencesCreate (params : ConferenceParams)
| CallsCreate (params : CallParams).

Record Conference := { conference_sid : string }.
Record Call := { call_sid : string; call_status : string }.

(** The Twilio client.  What the provider answers to a request may depend
    on everything it was asked before. *)
Record TwilioClient := {
  conferences_create : list Request → ConferenceParams → Result Conference;
  calls_create : list Request → CallParams → Result Call
}.

Record TwilioService := {
  client : TwilioClient;
  whatsappNumber : option string;
  voiceNumber : option string;
  BACKEND_URL : option string
}.

Record ConferenceParticipant := { number : string; isWhatsApp : bool }.

Record Leg := { participantSid : string; leg_number : string; leg_status : string }.

Record ConferenceResult := {
  conferenceSid : string;
  conference_status : string;
  conference_participants : nat
}.

(** The request of [addToConference] for one participant. *)
Definition legParams (svc : TwilioService) (confSid : string)
    (participant : ConferenceParticipant) : CallParams :=
  {| to := number participant;
     from := if isWhatsApp participant then whatsappNumber svc
             else voiceNumber svc;
     url := tmpl (BACKEND_URL svc) +:+ "/api/webhooks/twilio/conference/"
            +:+ confSid +:+ "/join";
     statusCallback :=
       tmpl (BACKEND_URL svc) +:+ "/api/webhooks/twilio/participant-status";
     statusCallbackEvent := ["answered"; "completed"];
     timeout := 30 |}.

(** [addToConference]: one outbound call; a failure is logged and
    rethrown.  The second component is the list of requests sent so far. *)
Definition addToConference (svc : TwilioService) (confSid : string)
    (participant : ConferenceParticipant) (sent : list Request)
    : Result Leg * list Request :=
  let params := legParams svc confSid participant in
  match calls_create (client svc) sent params with
  | Ok call =>
      (Ok {| participantSid := call_sid call;
             leg_number := number participant;
             leg_status := call_status call |},
       sent ++ [CallsCreate params])
  | Throw e => (Throw e, sent ++ [CallsCreate params])
  end.

(** [participants.map(p => this.addToConference(sid, p))]: every call is
    requested, in order, before any answer is awaited. *)
Fixpoint startLegs (svc : TwilioService) (confSid : string)
    (ps : list ConferenceParticipant) (sent : list Request)
    : list (Result Leg) * list Request :=
  match ps with
  | [] => ([], sent)
  | p :: ps' =>
      let '(r, sent1) := addToConference svc confSid p sent in
      let '(rs, sent2) := startLegs svc confSid ps' sent1 in
      (r :: rs, sent2)
  end.

(** [Promise.all]: the values when every promise fulfils, else a
    rejection.  Which of several rejections wins depends on the order in
    which the provider answers; the embedding takes the order of the
    requests. *)
Fixpoint promiseAll {A} (rs : list (Result A)) : Result (list A) :=
  match rs with
  | [] => Ok []
  | Throw e :: _ => Throw e
  | Ok a :: rs' =>
      match promiseAll rs' with
      | Ok l => Ok (a :: l)
      | Throw e => Throw e
      end
  end.

(** The request of [createConferenceCall] for the conference. *)
Definition conferenceParams (svc : TwilioService) (callId : string)
    : ConferenceParams :=
  {| friendlyName := "whatsapp-call-" +:+ callId;
     conf_statusCallback :=
       tmpl (BACKEND_URL svc) +:+ "/api/webhooks/twilio/conference";
     conf_statusCallbackEvent := ["start"; "end"; "join"; "leave"];
     conf_statusCallbackMethod := "POST";
     conf_record := "record-from-start";
     recordingStatusCallback :=
       tmpl (BACKEND_URL svc) +:+ "/api/webhooks/twilio/recording" |}.

Definition createConferenceCall (svc : TwilioService) (callId : string)
    (ps : list ConferenceParticipant) (sent : list Request)
    : Result ConferenceResult * list Request :=
  let params := conferenceParams svc callId in
  let sent1 := sent ++ [ConferencesCreate params] in
  match conferences_create (client svc) sent params with
  | Throw e => (Throw ("Conference call creation failed: " +:+ e), sent1)
  | Ok conference =>
      let '(legs, sent2) := startLegs svc (conference_sid conference) ps sent1 in
      match promiseAll legs with
      | Throw e => (Throw ("Conference call creation failed: " +:+ e), sent2)
      | Ok _ =>
          (Ok {| conferenceSid := conference_sid conference;
                 conference_status := "created";
                 conference_participants := length ps |},
           sent2)
      end
  end.

(** The leg creations a [createConferenceCall] starts once the provider
    has created [conference], in the order of the participants. *)
Definition legResults (svc : TwilioService) (callId : string)
    (ps : list ConferenceParticipant) (sent : list Request)
    (conference : Conference) : list (Result Leg) :=
  (startLegs svc (conference_sid conference) ps
     (sent ++ [ConferencesCreate (conferenceParams svc callId)])).1.

(** A mock of the provider that creates every conference and refuses
    the calls to one address. *)
Definition refusing (address : string) : TwilioClient :=
  {| conferences_create := λ _ _, Ok {| conference_sid := "CF1" |};
     calls_create := λ _ params,
       if String.eqb (to params) address then Throw "busy"
       else Ok {| call_sid := "CA1"; call_status := "queued" |} |}.

(** Whether the provider accepts the leg of the [i]-th participant of a
    [createConferenceCall]. *)
Definition legSucceeds (rs : list (Result Leg)) (i : nat) : Prop :=
  ∃ leg, rs !! i = Some (Ok leg).

(** *** TwiML for joining a conference *)

Inductive JsVal :=
| JUndefined
| JNull
| JBool (b : bool)
| JNum (n : Z)
| JStr (s : string).

Definition truthy (v : JsVal) : bool :=
  match v with
  | JUndefined | JNull => false
  | JBool b => b
  | JNum n => negb (n =? 0)
  | JStr s => negb (String.eqb s "")
  end.

(** [a || b] *)
Definition jsOr (a b : JsVal) : JsVal := if truthy a then a else b.

(** [options.key] on an object literal, kept as its own properties in
    insertion order. *)
Definition prop (key : string) (o : list (string * JsVal)) : JsVal :=
  default JUndefined (JsMap.get key o).

(** [{ ...target, ...source }]: a property of the source overwrites the
    one of the target where it stands, a new one goes to the end.
    (Property names that are array indices, which JavaScript enumerates
    first, do not occur among the options of a conference.) *)
Definition spread (target source : list (string * JsVal)) : list (string * JsVal) :=
  foldl (λ acc kv, JsMap.set kv.1 kv.2 acc) target source.

(** The attributes handed to [dial.conference]. *)
Definition conferenceAttributes (options : list (string * JsVal))
    : list (string * JsVal) :=
  spread
    [ ("startConferenceOnEnter", jsOr (prop "startOnEnter" options) (JBool true));
      ("endConferenceOnExit", jsOr (prop "endOnExit" options) (JBool false));
      ("waitUrl", jsOr (prop "waitUrl" options) (JStr ""));
      ("maxParticipants", jsOr (prop "maxParticipants" options) (JNum 10));
      ("record", jsOr (prop "record" options) (JStr "record-from-start")) ]
    options.

Section twiml.
(** The Twilio helper library, [new VoiceResponse()], [.dial()],
    [.conference(attributes, name)] and [.toString()], is not part of
    the repository: it is taken as the function from the attributes and
    the conference name to the markup of a fresh response. *)
Variable voiceResponse : list (string * JsVal) → string → string.

(** A method of the service: it runs with the service object and the
    requests sent so far at hand, and hands the latter back.  An absent
    [options] argument defaults to the empty object. *)
Definition generateConferenceTwiML (svc : TwilioService)
    (conferenceName : string) (options : option (list (string * JsVal)))
    (sent : list Request) : string * list Request :=
  let options := default [] options in
  (voiceResponse (conferenceAttributes options) conferenceName, sent).
End twiml.

(** ** WebRTCService: signaling payloads *)

Record SdpMessage := {
  m_sessionId : string;
  m_userId : string;
  m_type : string;
  m_sdp : JsVal;
  m_timestamp : Z
}.

Record IceCandidate := {
  candidate : JsVal;
  sdpMLineIndex : JsVal;
  sdpMid : JsVal
}.

Record IceMessage := {
  i_sessionId : string;
  i_userId : string;
  i_type : string;
  i_candidate : IceCandidate;
  i_timestamp : Z
}.

Record SignalingMessage := {
  g_sessionId : string;
  g_userId : string;
  g_type : JsVal;
  g_data : JsVal;
  g_timestamp : Z
}.

(** Reading a property of [undefined] throws. *)
Definition typeError : string := "Cannot read properties of undefined".

(** [handleSignaling]: the one signaling method that looks the sender up
    among the participants.  [signalingData] is [None] when the argument
    is [undefined], else its [type] and [data]. *)
Definition handleSignaling (sessionId uid : string)
    (signalingData : option (JsVal * JsVal)) (now : Z) (st : State)
    : Result SignalingMessage :=
  match JsMap.get sessionId (activeSessions st) with
  | None => Throw "Session not found"
  | Some session =>
      match find (λ p, bool_decide (p_userId p = uid)) (participants session) with
      | None => Throw "Participant not found in session"
      | Some _ =>
          match signalingData with
          | None => Throw typeError
          | Some (ty, data) =>
              Ok {| g_sessionId := sessionId; g_userId := uid; g_type := ty;
                    g_data := data; g_timestamp := now |}
          end
      end
  end.

(** [createOffer]; [offerData] is [None] when the argument is
    [undefined], else its [sdp]. *)
Definition createOffer (sessionId uid : string) (offerData : option JsVal)
    (now : Z) (st : State) : Result SdpMessage :=
  match JsMap.get sessionId (activeSessions st) with
  | None => Throw "Session not found"
  | Some _ =>
      match offerData with
      | None => Throw typeError
      | Some sdp =>
          Ok {| m_sessionId := sessionId; m_userId := uid; m_type := "offer";
                m_sdp := sdp; m_timestamp := now |}
      end
  end.

Definition createAnswer (sessionId uid : string) (answerData : option JsVal)
    (now : Z) (st : State) : Result SdpMessage :=
  match JsMap.get sessionId (activeSessions st) with
  | None => Throw "Session not found"
  | Some _ =>
      match answerData with
      | None => Throw typeError
      | Some sdp =>
          Ok {| m_sessionId := sessionId; m_userId := uid; m_type := "answer";
                m_sdp := sdp; m_timestamp := now |}
      end
  end.

Definition handleIceCandidate (sessionId uid : string)
    (candidateData : option IceCandidate) (now : Z) (st : State)
    : Result IceMessage :=
  match JsMap.get sessionId (activeSessions st) with
  | None => Throw "Session not found"
  | Some _ =>
      match candidateData with
      | None => Throw typeError
      | Some c =>
          Ok {| i_sessionId := sessionId; i_userId := uid;
                i_type := "ice-candidate"; i_candidate := c;
                i_timestamp := now |}
      end
  end.

(** ** SocketHandler: the signaling relay *)

(** What the handler keeps on a socket: [socket.userId] ([None] while
    never assigned), [socket.hubspotConnected], and the rooms joined. *)
Record Socket := {
  sock_userId : option string;
  sock_hubspotConnected : JsVal;
  sock_rooms : gset string
}.

Record Decoded := { d_userId : option string; d_hubspotConnected : JsVal }.

Record ClientInfo := {
  c_userId : option string;
  c_socketId : string;
  c_connectedAt : Z;
  c_hubspotConnected : JsVal
}.

Inductive Payload :=
| PError (error : string)
| PAuthSuccess (uid : option string) (socketId : string)
| PSdp (message : SdpMessage)
| PIce (message : IceMessage)
| PParticipant (uid sessionId : string) (timestamp : Z)
| PSession (session : Session).

(** One [emit]: the sockets it is delivered to, the event, the payload. *)
Record Emission := {
  recipients : gset string;
  event : string;
  payload : Payload
}.

(** The relay: the session service, the connected sockets by [socket.id],
    [connectedClients], and everything emitted so far. *)
Record Relay := {
  service : State;
  sockets : gmap string Socket;
  connectedClients : list (string * ClientInfo);
  outbox : list Emission
}.

Definition setService (st : State) (w : Relay) : Relay :=
  {| service := st; sockets := sockets w;
     connectedClients := connectedClients w; outbox := outbox w |}.

Definition setSocket (sid : string) (s : Socket) (w : Relay) : Relay :=
  {| service := service w; sockets := <[sid := s]> (sockets w);
     connectedClients := connectedClients w; outbox := outbox w |}.

Definition setConnectedClients (c : list (string * ClientInfo)) (w : Relay) : Relay :=
  {| service := service w; sockets := sockets w;
     connectedClients := c; outbox := outbox w |}.

(** [!socket.userId] is false: the property is set and not the empty
    string. *)
Definition authenticatedAs (s : Socket) : option string :=
  match sock_userId s with
  | Some u => if String.eqb u "" then None else Some u
  | None => None
  end.

(** [socket.emit(event, payload)] *)
Definition emit (me ev : string) (p : Payload) (w : Relay) : Relay :=
  {| service := service w; sockets := sockets w;
     connectedClients := connectedClients w;
     outbox := outbox w ++ [{| recipients := {[me]}; event := ev; payload := p |}] |}.

(** The sockets of a room other than the sender. *)
Definition othersIn (room me : string) (w : Relay) : gset string :=
  dom (filter (λ kv : string * Socket, kv.1 ≠ me ∧ room ∈ sock_rooms kv.2)
         (sockets w)).

(** [socket.to(room).emit(event, payload)] *)
Definition emitTo (room me ev : string) (p : Payload) (w : Relay) : Relay :=
  {| service := service w; sockets := sockets w;
     connectedClients := connectedClients w;
     outbox := outbox w ++
       [{| recipients := othersIn room me w; event := ev; payload := p |}] |}.

Definition sessionRoom (sessionId : string) : string := "session:" +:+ sessionId.

Definition joinRoom (room : string) (s : Socket) : Socket :=
  {| sock_userId := sock_userId s;
     sock_hubspotConnected := sock_hubspotConnected s;
     sock_rooms := {[room]} ∪ sock_rooms s |}.

Definition leaveRoom (room : string) (s : Socket) : Socket :=
  {| sock_userId := sock_userId s;
     sock_hubspotConnected := sock_hubspotConnected s;
     sock_rooms := sock_rooms s ∖ {[room]} |}.

(** The events a client sends. *)
Inductive ClientEvent :=
| EvAuthenticate
| EvJoin
| EvLeave
| EvOffer
| EvAnswer
| EvCandidate.

(** The messages of a channel.  The first six carry a payload, of which
    the handler reads the properties named here.  [MsgNoPayload] is an
    event sent without payload, or with [null]: the handler then throws
    at its first statement, the destructuring of the payload, before it
    looks at [socket.userId]. *)
Inductive ClientMessage :=
| MsgAuthenticate (token : option string)
| MsgJoin (sessionId : string)
| MsgLeave (sessionId : string)
| MsgOffer (sessionId : string) (offer : option JsVal)
| MsgAnswer (sessionId : string) (answer : option JsVal)
| MsgCandidate (sessionId : string) (candidate : option IceCandidate)
| MsgNoPayload (ev : ClientEvent).

Definition eventOf (msg : ClientMessage) : ClientEvent :=
  match msg with
  | MsgAuthenticate _ => EvAuthenticate
  | MsgJoin _ => EvJoin
  | MsgLeave _ => EvLeave
  | MsgOffer _ _ => EvOffer
  | MsgAnswer _ _ => EvAnswer
  | MsgCandidate _ _ => EvCandidate
  | MsgNoPayload ev => ev
  end.

(** A new connection: [handleConnection] only installs the handlers; the
    socket starts in the room of its own id. *)
Definition connect (me : string) (w : Relay) : Relay :=
  setSocket me
    {| sock_userId := None; sock_hubspotConnected := JUndefined;
       sock_rooms := {[me]} |} w.

Section relay.
(** [hubspotService.verifyJWT]: the decoded token, or [null] when
    [jwt.verify] throws. *)
Variable verifyJWT : string → option Decoded.

Definition onAuthenticate (me : string) (sock : Socket)
    (token : option string) (now : Z) (w : Relay) : Relay :=
  match token with
  | None => emit me "auth:error" (PError "No token provided") w
  | Some t =>
      if String.eqb t "" then
        emit me "auth:error" (PError "No token provided") w
      else
        match verifyJWT t with
        | None => emit me "auth:error" (PError "Invalid token") w
        | Some decoded =>
            let sock' :=
              joinRoom ("user:" +:+ tmpl (d_userId decoded))
                {| sock_userId := d_userId decoded;
                   sock_hubspotConnected := d_hubspotConnected decoded;
                   sock_rooms := sock_rooms sock |} in
            let info :=
              {| c_userId := d_userId decoded; c_socketId := me;
                 c_connectedAt := now;
                 c_hubspotConnected := d_hubspotConnected decoded |} in
            emit me "auth:success" (PAuthSuccess (d_userId decoded) me)
              (setConnectedClients
                 (JsMap.set me info (connectedClients w))
                 (setSocket me sock' w))
        end
  end.

Definition onOffer (me : string) (sock : Socket) (sessionId : string)
    (offer : option JsVal) (now : Z) (w : Relay) : Relay :=
  match authenticatedAs sock with
  | None => emit me "error" (PError "Not authenticated") w
  | Some uid =>
      match createOffer sessionId uid offer now (service w) with
      | Ok offerData =>
          emitTo (sessionRoom sessionId) me "webrtc:offer" (PSdp offerData) w
      | Throw _ => emit me "webrtc:error" (PError "Failed to send offer") w
      end
  end.

Definition onAnswer (me : string) (sock : Socket) (sessionId : string)
    (answer : option JsVal) (now : Z) (w : Relay) : Relay :=
  match authenticatedAs sock with
  | None => emit me "error" (PError "Not authenticated") w
  | Some uid =>
      match createAnswer sessionId uid answer now (service w) with
      | Ok answerData =>
          emitTo (sessionRoom sessionId) me "webrtc:answer" (PSdp answerData) w
      | Throw _ => emit me "webrtc:error" (PError "Failed to send answer") w
      end
  end.

Definition onIceCandidate (me : string) (sock : Socket) (sessionId : string)
    (c : option IceCandidate) (now : Z) (w : Relay) : Relay :=
  match authenticatedAs sock with
  | None => emit me "error" (PError "Not authenticated") w
  | Some uid =>
      match handleIceCandidate sessionId uid c now (service w) with
      | Ok iceData =>
          emitTo (sessionRoom sessionId) me "webrtc:ice-candidate" (PIce iceData) w
      | Throw _ =>
          emit me "webrtc:error" (PError "Failed to send ICE candidate") w
      end
  end.

(** [session:join]: the socket enters the room before the session is
    updated, and stays there when the update throws. *)
Definition onSessionJoin (me : string) (sock : Socket) (sessionId : string)
    (now : Z) (w : Relay) : Relay :=
  match authenticatedAs sock with
  | None => emit me "error" (PError "Not authenticated") w
  | Some uid =>
      let w1 := setSocket me (joinRoom (sessionRoom sessionId) sock) w in
      match joinSession sessionId uid me now (service w1) with
      | (Ok session, st') =>
          emit me "session:joined" (PSession session)
            (emitTo (sessionRoom sessionId) me "participant:joined"
               (PParticipant uid sessionId now) (setService st' w1))
      | (Throw _, st') =>
          emit me "session:error" (PError "Failed to join session")
            (setService st' w1)
      end
  end.

(** [session:leave]: nothing is ever sent back to the leaving socket. *)
Definition onSessionLeave (me : string) (sock : Socket) (sessionId : string)
    (now : Z) (w : Relay) : Relay :=
  match authenticatedAs sock with
  | None => w
  | Some uid =>
      let w1 := setSocket me (leaveRoom (sessionRoom sessionId) sock) w in
      match leaveSession sessionId uid (service w1) with
      | (Ok _, st') =>
          emitTo (sessionRoom sessionId) me "participant:left"
            (PParticipant uid sessionId now) (setService st' w1)
      | (Throw _, st') => setService st' w1
      end
  end.

(** A handler whose payload is missing: the destructuring throws and
    the [catch] block of the handler answers; that of [session:leave]
    only logs. *)
Definition onNoPayload (me : string) (ev : ClientEvent) (w : Relay) : Relay :=
  match ev with
  | EvAuthenticate => emit me "auth:error" (PError "Authentication failed") w
  | EvJoin => emit me "session:error" (PError "Failed to join session") w
  | EvLeave => w
  | EvOffer => emit me "webrtc:error" (PError "Failed to send offer") w
  | EvAnswer => emit me "webrtc:error" (PError "Failed to send answer") w
  | EvCandidate =>
      emit me "webrtc:error" (PError "Failed to send ICE candidate") w
  end.

(** A message arriving on the socket [me] at time [now].  A socket that
    is not connected receives nothing. *)
Definition handle (me : string) (msg : ClientMessage) (now : Z) (w : Relay)
    : Relay :=
  match sockets w !! me with
  | None => w
  | Some sock =>
      match msg with
      | MsgAuthenticate token => onAuthenticate me sock token now w
      | MsgJoin sessionId => onSessionJoin me sock sessionId now w
      | MsgLeave sessionId => onSessionLeave me sock sessionId now w
      | MsgOffer sessionId offer => onOffer me sock sessionId offer now w
      | MsgAnswer sessionId answer => onAnswer me sock sessionId answer now w
      | MsgCandidate sessionId c => onIceCandidate me sock sessionId c now w
      | MsgNoPayload ev => onNoPayload me ev w
      end
  end.
End relay.

(** A token verifier that knows the tokens of two users. *)
Definition twoTokens (token : string) : option Decoded :=
  if String.eqb token "token-u1" then
    Some {| d_userId := Some "u1"; d_hubspotConnected := JBool true |}
  else if String.eqb token "token-u3" then
    Some {| d_userId := Some "u3"; d_hubspotConnected := JBool true |}
  else None.

(** A relay with the session [S] of user [u1]: socket [a] is
    authenticated as [u1] and has joined [S]; socket [c] is authenticated
    as [u3] and has joined nothing. *)
Definition relayWithOutsider : Relay :=
  let st := (createSession "u1" "voice" "S" 1000 (initial ["stun:a"] [])).2 in
  let w0 := {| service := st; sockets := ∅; connectedClients := [];
               outbox := [] |} in
  let w1 := handle twoTokens "a" (MsgAuthenticate (Some "token-u1")) 1100
              (connect "a" w0) in
  let w2 := handle twoTokens "c" (MsgAuthenticate (Some "token-u3")) 1200
              (connect "c" w1) in
  handle twoTokens "a" (MsgJoin "S") 1300 w2.

(** Everything the relay delivered, from position [n] of the outbox on,
    to sockets other than [me]. *)
Definition deliveredToOthers (me : string) (n : nat) (w : Relay) : gset string :=
  ⋃ ((λ e, recipients e ∖ {[me]}) <$> drop n (outbox w)).

(** The user [uid] has a participant entry in the session. *)
Definition isParticipant (uid : string) (s : Session) : Prop :=
  ∃ p, p ∈ participants s ∧ p_userId p = uid.

(** ** TwilioService: WhatsApp numbers, calls and messages *)

Fixpoint dropChars (n : nat) (s : string) : string :=
  match n, s with
  | O, _ => s
  | S n', String _ s' => dropChars n' s'
  | S _, EmptyString => EmptyString
  end.

(** [s.replace(pattern, replacement)] for a string pattern and a
    replacement without [$]: the first occurrence only. *)
Fixpoint replaceFirst (pattern replacement s : string) : string :=
  if String.prefix pattern s then
    replacement +:+ dropChars (String.length pattern) s
  else
    match s with
    | EmptyString => EmptyString
    | String c s' => String c (replaceFirst pattern replacement s')
    end.

(** [n.startsWith('whatsapp:') ? n : `whatsapp:${n}`], as
    [initiateWhatsAppCall], [validateWhatsAppNumber] and
    [sendWhatsAppMessage] each write it out. *)
Definition whatsappAddress (phoneNumber : string) : string :=
  if String.prefix "whatsapp:" phoneNumber then phoneNumber
  else "whatsapp:" +:+ phoneNumber.

Record Validation := { valid : bool; v_number : string; formatted : string }.

(** [validateWhatsAppNumber] on a string; nothing in its [try] block
    throws on a string, so the [catch] branch is not taken. *)
Definition validateWhatsAppNumber (phoneNumber : string) : Validation :=
  {| valid := true;
     v_number := whatsappAddress phoneNumber;
     formatted := replaceFirst "whatsapp:" "" phoneNumber |}.

(** The string [pattern] occurs in [s]. *)
Definition occursIn (pattern s : string) : Prop :=
  ∃ before after, s = before +:+ pattern +:+ after.

(** A value of the options of a call: a scalar or an array of strings. *)
Inductive CallOption :=
| Scalar (v : JsVal)
| Strings (l : list string).

Definition optionTruthy (v : CallOption) : bool :=
  match v with
  | Scalar v => truthy v
  | Strings _ => true
  end.

Definition optionOr (a b : CallOption) : CallOption :=
  if optionTruthy a then a else b.

(** [{ ...target, ...source }] for objects of any kind of value. *)
Definition objectSpread {V} (target source : list (string * V))
    : list (string * V) :=
  foldl (λ acc kv, JsMap.set kv.1 kv.2 acc) target source.

(** [process.env.NAME || fallback] *)
Definition envOr (v : option string) (fallback : string) : string :=
  match v with
  | Some s => if String.eqb s "" then fallback else s
  | None => fallback
  end.

(** A field of the service that may be [undefined], as a value. *)
Definition ofField (v : option string) : JsVal :=
  match v with
  | Some s => JStr s
  | None => JUndefined
  end.

(** The default of a parameter applies to [undefined] only. *)
Definition orDefault (v d : JsVal) : JsVal :=
  match v with
  | JUndefined => d
  | _ => v
  end.

(** The options object [initiateWhatsAppCall] hands to the provider, for
    the prefixed number and the caller id already defaulted. *)
Definition callOptions (svc : TwilioService) (toNumber : string)
    (fromNumber : JsVal) (options : list (string * CallOption))
    : list (string * CallOption) :=
  objectSpread
    [ ("to", Scalar (JStr toNumber));
      ("from", Scalar fromNumber);
      ("url", Scalar (JStr (envOr (BACKEND_URL svc) "https://your-domain.com"
                            +:+ "/api/webhooks/twilio/voice")));
      ("statusCallback",
       Scalar (JStr (envOr (BACKEND_URL svc) "https://your-domain.com"
                     +:+ "/api/webhooks/twilio/status")));
      ("statusCallbackEvent",
       Strings ["initiated"; "ringing"; "answered"; "completed"]);
      ("statusCallbackMethod", Scalar (JStr "POST"));
      ("timeout", Scalar (JNum 30));
      ("record",
       optionOr (default (Scalar JUndefined) (JsMap.get "record" options))
                (Scalar (JBool false))) ]
    options.

Record CallResult := {
  callId : string;
  twilioCallSid : string;
  callStatus : string;
  call_to : string;
  call_from : JsVal;
  call_timestamp : Z
}.

Record Message := { message_sid : string; message_status : string }.

Section raw_requests.
(** [client.calls.create] and [client.messages.create] on an options
    object built with a spread, as the provider answers them. *)
Variable callsCreateWith : list (string * CallOption) → Result Call.
Variable messagesCreate : list (string * JsVal) → Result Message.

(** [initiateWhatsAppCall]; [fromNumber] and [options] are [JUndefined]
    and [None] when the caller leaves them out; [uuid] and [now] are
    what [uuidv4()] and [moment()] give. *)
Definition initiateWhatsAppCall (svc : TwilioService) (toNumber : string)
    (fromNumber : JsVal) (options : option (list (string * CallOption)))
    (uuid : string) (now : Z) : Result CallResult :=
  let fromNumber := orDefault fromNumber (ofField (whatsappNumber svc)) in
  let options := default [] options in
  let toNumber := whatsappAddress toNumber in
  match callsCreateWith (callOptions svc toNumber fromNumber options) with
  | Ok call =>
      Ok {| callId := uuid; twilioCallSid := call_sid call;
            callStatus := call_status call; call_to := toNumber;
            call_from := fromNumber; call_timestamp := now |}
  | Throw e => Throw ("WhatsApp call initiation failed: " +:+ e)
  end.

(** The object [sendWhatsAppMessage] hands to the provider. *)
Definition messageOptions (svc : TwilioService) (to_ body : string)
    (options : list (string * JsVal)) : list (string * JsVal) :=
  objectSpread
    [ ("to", JStr (whatsappAddress to_));
      ("from", ofField (whatsappNumber svc));
      ("body", JStr body) ]
    options.

(** [sendWhatsAppMessage]: a failure is logged and rethrown as it is. *)
Definition sendWhatsAppMessage (svc : TwilioService) (to_ body : string)
    (options : option (list (string * JsVal))) : Result Message :=
  match messagesCreate (messageOptions svc to_ body (default [] options)) with
  | Ok message => Ok message
  | Throw e => Throw e
  end.
End raw_requests.

(** *** TwiML for forwarding a call *)

(** What [generateForwardTwiML] puts into its response before it is
    rendered: the greeting to say, if any, the attributes of [Dial], and
    the number dialled. *)
Record ForwardResponse := {
  f_say : option JsVal;
  f_dial : list (string * JsVal);
  f_number : string
}.

Definition forwardResponse (forwardToNumber : string)
    (options : list (string * JsVal)) : ForwardResponse :=
  {| f_say := if truthy (prop "greeting" options)
              then Some (prop "greeting" options) else None;
     f_dial :=
       spread
         [ ("timeout", jsOr (prop "timeout" options) (JNum 30));
           ("record", jsOr (prop "record" options) (JBool false)) ]
         options;
     f_number := forwardToNumber |}.

Section forward_twiml.
(** The Twilio helper library again: the markup of a fresh response with
    the given content. *)
Variable forwardMarkup : ForwardResponse → string.

Definition generateForwardTwiML (forwardToNumber : string)
    (options : option (list (string * JsVal))) : string :=
  forwardMarkup (forwardResponse forwardToNumber (default [] options)).
End forward_twiml.

(** ** SocketHandler: disconnection and the client registry *)

(** What [leaveSession] leaves of a session in the map: nothing when no
    participant remains, else the session with the remaining ones. *)
Definition afterLeave (uid : string) (session : Session) : option Session :=
  match filter (λ p, p_userId p ≠ uid) (participants session) with
  | [] => None
  | ps => Some (setParticipants ps session)
  end.

(** [leaveSession(sessionId, client.userId)] where the user id may be
    [undefined]: no participant has the user id [undefined], so the
    filter then keeps every entry. *)
Definition leaveSessionAs (sessionId : string) (uid : option string)
    (st : State) : Result Session * State :=
  match uid with
  | Some u => leaveSession sessionId u st
  | None =>
      match JsMap.get sessionId (activeSessions st) with
      | None => (Throw "Session not found", st)
      | Some session =>
          let ps := participants session in
          if (length ps =? 0)%nat then
            let session' := setStatus "ended" (setParticipants ps session) in
            let st1 :=
              setActiveSessions (JsMap.delete sessionId (activeSessions st)) st in
            (Ok session', deleteSession sessionId st1)
          else
            let session' := setParticipants ps session in
            let st1 :=
              setActiveSessions
                (JsMap.set sessionId session' (activeSessions st)) st in
            match storeSession sessionId session' st1 with
            | (Ok _, st2) => (Ok session', st2)
            | (Throw e, st2) => (Throw e, st2)
            end
      end
  end.

(** The [participant:left] event of a disconnection, which carries a
    reason: the sockets it is delivered to and its payload. *)
Record LeftNotice := {
  n_recipients : gset string;
  n_userId : option string;
  n_sessionId : string;
  n_timestamp : Z;
  n_reason : string
}.

(** The loop of the [disconnect] handler over the sessions the socket
    was in: leave, then tell the room.  A [leaveSession] that throws
    ends the loop (the handler's [catch] only logs). *)
Fixpoint leaveEach (me : string) (uid : option string) (now : Z)
    (sessions : list Session) (w : Relay)
    : Result unit * Relay * list LeftNotice :=
  match sessions with
  | [] => (Ok tt, w, [])
  | session :: rest =>
      match leaveSessionAs (id session) uid (service w) with
      | (Throw e, st') => (Throw e, setService st' w, [])
      | (Ok _, st') =>
          let w1 := setService st' w in
          let notice :=
            {| n_recipients := othersIn (sessionRoom (id session)) me w1;
               n_userId := uid; n_sessionId := id session;
               n_timestamp := now; n_reason := "disconnect" |} in
          let '(r, w2, notices) := leaveEach me uid now rest w1 in
          (r, w2, notice :: notices)
      end
  end.

(** The sessions in which some participant entry names the socket. *)
Definition sessionsOfSocket (me : string) (st : State) : list Session :=
  filter (λ session, Exists (λ p, p_socketId p = me) (participants session))
    (getAllActiveSessions st).

(** The [disconnect] handler.  When it runs the socket is gone from the
    server and from its rooms.  It returns the relay and the notices it
    emitted. *)
Definition onDisconnect (me : string) (now : Z) (w : Relay)
    : Relay * list LeftNotice :=
  let w0 :=
    {| service := service w; sockets := delete me (sockets w);
       connectedClients := connectedClients w; outbox := outbox w |} in
  match JsMap.get me (connectedClients w0) with
  | None => (w0, [])
  | Some client =>
      match leaveEach me (c_userId client) now
              (sessionsOfSocket me (service w0)) w0 with
      | (Ok _, w1, notices) =>
          (setConnectedClients (JsMap.delete me (connectedClients w1)) w1,
           notices)
      | (Throw _, w1, notices) => (w1, notices)
      end
  end.

Definition getConnectedClients (w : Relay) : list ClientInfo :=
  JsMap.values (connectedClients w).

(** [client.userId === userId], both possibly [undefined]. *)
Definition getClientsByUserId (uid : option string) (w : Relay)
    : list ClientInfo :=
  filter (λ c, c_userId c = uid) (getConnectedClients w).

(** ** The [verifyToken] middleware *)

Inductive Verdict :=
| Denied (httpStatus : Z) (error details : string)
| Next (user : Decoded).

(** [verifyToken]: [authorization] is the [Authorization] header,
    [None] when the request has none; [verifyJWT] is the verifier of the
    HubSpot service, which gives [null] instead of throwing. *)
Definition verifyToken (verifyJWT : string → option Decoded)
    (authorization : option string) : Verdict :=
  match replaceFirst "Bearer " "" <$> authorization with
  | None => Denied 401 "Access denied" "No token provided"
  | Some token =>
      if String.eqb token "" then Denied 401 "Access denied" "No token provided"
      else
        match verifyJWT token with
        | None => Denied 401 "Invalid token" "Token verification failed"
        | Some decoded => Next decoded
        end
  end.

(** ** SocketHandler: the signaling messages, side by side *)

(** The session a signaling message is tagged with. *)
Definition signalingSession (msg : ClientMessage) : option string :=
  match msg with
  | MsgOffer sessionId _ | MsgAnswer sessionId _ | MsgCandidate sessionId _ =>
      Some sessionId
  | _ => None
  end.

(** The event and the payload of a signaling message that goes through. *)
Definition forwarded (uid : string) (now : Z) (msg : ClientMessage)
    : option (string * Payload) :=
  match msg with
  | MsgOffer sessionId (Some sdp) =>
      Some ("webrtc:offer",
            PSdp {| m_sessionId := sessionId; m_userId := uid;
                    m_type := "offer"; m_sdp := sdp; m_timestamp := now |})
  | MsgAnswer sessionId (Some sdp) =>
      Some ("webrtc:answer",
            PSdp {| m_sessionId := sessionId; m_userId := uid;
                    m_type := "answer"; m_sdp := sdp; m_timestamp := now |})
  | MsgCandidate sessionId (Some c) =>
      Some ("webrtc:ice-candidate",
            PIce {| i_sessionId := sessionId; i_userId := uid;
                    i_type := "ice-candidate"; i_candidate := c;
                    i_timestamp := now |})
  | _ => None
  end.

(** The error a signaling message is answered with when the service
    throws. *)
Definition signalingFailure (msg : ClientMessage) : string :=
  match msg with
  | MsgOffer _ _ => "Failed to send offer"
  | MsgAnswer _ _ => "Failed to send answer"
  | _ => "Failed to send ICE candidate"
  end.

(** * Properties *)

(** ** The [Map] operations *)

Module JsMapFacts.
Section facts.
Context {V : Type}.
Implicit Types (m : list (string * V)) (k : string) (v : V).

Lemma get_set_eq m k v : JsMap.get k (JsMap.set k v m) = Some v.
Proof.
  induction m as [|[k' v'] m IH]; simpl.
  - by rewrite String.eqb_refl.
  - destruct (String.eqb_spec k k') as [->|Hne]; simpl.
    + by rewrite String.eqb_refl.
    + destruct (String.eqb_spec k k'); [done | exact IH].
Qed.

Lemma get_set_ne m k k' v :
  k ≠ k' → JsMap.get k' (JsMap.set k v m) = JsMap.get k' m.
Proof.
  intros Hne. induction m as [|[k0 v0] m IH]; simpl.
  - destruct (String.eqb_spec k' k); [congruence | done].
  - destruct (String.eqb_spec k k0) as [->|Hk]; simpl.
    + destruct (String.eqb_spec k' k0); [congruence | done].
    + destruct (String.eqb_spec k' k0); [done | exact IH].
Qed.

Lemma get_delete_eq m k : JsMap.get k (JsMap.delete k m) = None.
Proof.
  induction m as [|[k' v'] m IH]; simpl; [done|].
  destruct (String.eqb_spec k k') as [->|Hne]; simpl; [done|].
  destruct (String.eqb_spec k k'); [done | exact IH].
Qed.

Lemma get_delete_ne m k k' :
  k ≠ k' → JsMap.get k' (JsMap.delete k m) = JsMap.get k' m.
Proof.
  intros Hne. induction m as [|[k0 v0] m IH]; simpl; [done|].
  destruct (String.eqb_spec k k0) as [->|Hk]; simpl.
  - destruct (String.eqb_spec k' k0); [congruence | exact IH].
  - destruct (String.eqb_spec k' k0); [done | exact IH].
Qed.

(** Writing back the value a key already has changes nothing. *)
Lemma set_same m k v : JsMap.get k m = Some v → JsMap.set k v m = m.
Proof.
  induction m as [|[k' v'] m IH]; simpl; [done|].
  destruct (String.eqb_spec k k') as [->|Hne].
  - by intros [= ->].
  - intros H. by rewrite IH.
Qed.

Lemma delete_filter m k :
  JsMap.delete k m = filter (λ e, e.1 ≠ k) m.
Proof.
  induction m as [|[k' v'] m IH]; simpl; [done|].
  destruct (String.eqb_spec k k') as [->|Hne].
  - rewrite filter_cons_False; [exact IH | simpl; tauto].
  - rewrite filter_cons_True; [by rewrite IH | simpl; congruence].
Qed.

Lemma set_set m k v v' :
  JsMap.set k v' (JsMap.set k v m) = JsMap.set k v' m.
Proof.
  induction m as [|[k0 v0] m IH]; simpl.
  - by rewrite String.eqb_refl.
  - destruct (String.eqb_spec k k0) as [->|Hne]; simpl.
    + by rewrite String.eqb_refl.
    + destruct (String.eqb_spec k k0); [done | by rewrite IH].
Qed.

Lemma get_Some_elem_of m k v : JsMap.get k m = Some v → (k, v) ∈ m.
Proof.
  induction m as [|[k' v'] m IH]; simpl; [done|].
  destruct (String.eqb_spec k k') as [->|Hne].
  - intros [= ->]. left.
  - intros H. right. by apply IH.
Qed.

Lemma get_None_not_key m k : JsMap.get k m = None → k ∉ JsMap.keys m.
Proof.
  induction m as [|[k' v'] m IH]; simpl.
  - intros _. apply not_elem_of_nil.
  - destruct (String.eqb_spec k k') as [->|Hne]; [done|].
    intros H. unfold JsMap.keys. simpl. rewrite not_elem_of_cons.
    split; [done | by apply IH].
Qed.

Lemma elem_of_get m k v : JsMap.wf m → (k, v) ∈ m → JsMap.get k m = Some v.
Proof.
  unfold JsMap.wf, JsMap.keys.
  induction m as [|[k' v'] m IH]; simpl.
  - intros _ H. by apply elem_of_nil in H.
  - rewrite NoDup_cons. intros [Hk Hm] Hin.
    apply elem_of_cons in Hin as [[= -> ->]|Hin].
    + by rewrite String.eqb_refl.
    + destruct (String.eqb_spec k k') as [->|Hne]; [|by apply IH].
      exfalso. apply Hk. apply list_elem_of_fmap. by exists (k', v).
Qed.

Lemma keys_set m k v :
  JsMap.keys (JsMap.set k v m) =
  match JsMap.get k m with
  | Some _ => JsMap.keys m
  | None => JsMap.keys m ++ [k]
  end.
Proof.
  unfold JsMap.keys.
  induction m as [|[k' v'] m IH]; csimpl; [done|].
  destruct (String.eqb_spec k k') as [->|Hne]; csimpl; [done|].
  rewrite IH. by destruct (JsMap.get k m).
Qed.

Lemma wf_set m k v : JsMap.wf m → JsMap.wf (JsMap.set k v m).
Proof.
  unfold JsMap.wf. rewrite keys_set.
  destruct (JsMap.get k m) eqn:Hg; [done|].
  intros Hm. apply NoDup_app. split; [done|]. split.
  - intros x Hx Hx'. apply list_elem_of_singleton in Hx'. subst x.
    by apply get_None_not_key in Hg.
  - apply NoDup_singleton.
Qed.

Lemma wf_delete m k : JsMap.wf m → JsMap.wf (JsMap.delete k m).
Proof.
  unfold JsMap.wf, JsMap.keys. rewrite delete_filter.
  induction m as [|[k' v'] m IH]; simpl; [done|].
  rewrite NoDup_cons. intros [Hk Hm].
  destruct (decide (k' = k)) as [->|Hne].
  - rewrite filter_cons_False; [by apply IH | simpl; tauto].
  - rewrite filter_cons_True; [|done]. simpl. apply NoDup_cons. split.
    + intros Hin. apply Hk. apply list_elem_of_fmap in Hin as [[k0 v0] [-> Hin]].
      apply list_elem_of_filter in Hin as [_ Hin].
      apply list_elem_of_fmap. by exists (k0, v0).
    + by apply IH.
Qed.
End facts.
End JsMapFacts.

(** ** Redis calls *)

Lemma redisKey_inj a b : redisKey a = redisKey b → a = b.
Proof. unfold redisKey. apply (inj _). Qed.

Section redis_facts.
Context {A : Type} (f : gmap string Session → A * gmap string Session).

Lemma redisCall_activeSessions st :
  activeSessions (redisCall f st).2 = activeSessions st.
Proof.
  unfold redisCall. destruct (faults st) as [|[] fs]; simpl; [|done|];
    by destruct (f (redis st)).
Qed.

Lemma redisCall_stunServers st :
  stunServers (redisCall f st).2 = stunServers st.
Proof.
  unfold redisCall. destruct (faults st) as [|[] fs]; simpl; [|done|];
    by destruct (f (redis st)).
Qed.

Lemma redisCall_faults st : faults (redisCall f st).2 = tail (faults st).
Proof.
  unfold redisCall. destruct (faults st) as [|[] fs] eqn:E; simpl; [|done|];
    by destruct (f (redis st)).
Qed.

Lemma redisCall_ttl st : ttl (redisCall f st).2 = ttl st.
Proof.
  unfold redisCall. destruct (faults st) as [|[] fs]; simpl; [|done|];
    by destruct (f (redis st)).
Qed.

Lemma redisCall_ok st :
  nextCallOk st →
  (redisCall f st).1 = Ok (f (redis st)).1
  ∧ redis (redisCall f st).2 = (f (redis st)).2.
Proof.
  unfold nextCallOk, redisCall.
  destruct (faults st) as [|[] fs]; simpl; [|done|];
    by destruct (f (redis st)).
Qed.

Lemma redisCall_fault st :
  head (faults st) = Some true →
  (redisCall f st).1 = Throw redisError
  ∧ redis (redisCall f st).2 = redis st.
Proof.
  unfold redisCall. by destruct (faults st) as [|[] fs].
Qed.

End redis_facts.

(** What is left in Redis after [ms] milliseconds. *)
Lemma elapse_redis ms st key :
  redis (elapse ms st) !! key =
    if outlives ms (ttl st) key then redis st !! key else None.
Proof.
  simpl. destruct (outlives ms (ttl st) key) eqn:E.
  - destruct (redis st !! key) as [s|] eqn:H.
    + by apply map_lookup_filter_Some.
    + apply map_lookup_filter_None. by left.
  - apply map_lookup_filter_None. right. intros s _. simpl. by rewrite E.
Qed.

Lemma noFaults_next st : noFaults st → nextCallOk st.
Proof.
  unfold noFaults, nextCallOk. destruct (faults st) as [|b fs]; simpl; [done|].
  intros H. apply Forall_cons in H as [-> _]. done.
Qed.

Lemma noFaults_tail st st' :
  faults st' = tail (faults st) → noFaults st → noFaults st'.
Proof.
  unfold noFaults. intros ->. destruct (faults st); simpl; [done|].
  intros H. by apply Forall_cons in H as [_ H].
Qed.

(** ** The three Redis wrappers of the service *)

Lemma storeSession_spec sessionId session st :
  ∃ r st', storeSession sessionId session st = (r, st')
    ∧ activeSessions st' = activeSessions st
    ∧ stunServers st' = stunServers st
    ∧ faults st' = tail (faults st)
    ∧ ((nextCallOk st ∧ r = Ok tt
        ∧ redis st' = <[redisKey sessionId := session]> (redis st))
       ∨ (head (faults st) = Some true ∧ r = Throw redisError
          ∧ redis st' = redis st)).
Proof.
  unfold storeSession.
  set (f := λ r : gmap string Session, (tt, <[redisKey sessionId := session]> r)).
  pose proof (redisCall_activeSessions f st) as Hm.
  pose proof (redisCall_stunServers f st) as Hs.
  pose proof (redisCall_faults f st) as Hf.
  pose proof (redisCall_ok f st) as Hok.
  pose proof (redisCall_fault f st) as Hko.
  destruct (redisCall f st) as [r st'] eqn:E. simpl in *.
  destruct (decide (head (faults st) = Some true)) as [Hd|Hd].
  - destruct (Hko Hd) as [-> Hr]. eexists _, st'. split; [done|].
    repeat split; try done. right. done.
  - destruct (Hok Hd) as [-> Hr]. eexists _, _. split; [done|].
    repeat split; try done. left. done.
Qed.

(** A session written to Redis is there for one hour, and no longer. *)
Lemma storeSession_expiry sessionId session st ms :
  nextCallOk st →
  redis (elapse ms (storeSession sessionId session st).2) !! redisKey sessionId
  = if ms <? 3600000 then Some session else None.
Proof.
  intros Hok. rewrite elapse_redis. unfold storeSession.
  set (f := λ r : gmap string Session, (tt, <[redisKey sessionId := session]> r)).
  destruct (redisCall_ok f st Hok) as [Hr Hs].
  destruct (redisCall f st) as [r st'] eqn:E. simpl in *. subst r. simpl.
  unfold outlives. rewrite lookup_insert_eq.
  change (3600 * 1000) with 3600000.
  destruct (ms <? 3600000); [|done]. rewrite Hs. apply lookup_insert_eq.
Qed.

Lemma deleteSession_spec sessionId st :
  activeSessions (deleteSession sessionId st) = activeSessions st
  ∧ stunServers (deleteSession sessionId st) = stunServers st
  ∧ faults (deleteSession sessionId st) = tail (faults st)
  ∧ ((nextCallOk st
      ∧ redis (deleteSession sessionId st) = delete (redisKey sessionId) (redis st))
     ∨ (head (faults st) = Some true
        ∧ redis (deleteSession sessionId st) = redis st)).
Proof.
  unfold deleteSession.
  set (f := λ r : gmap string Session, (tt, delete (redisKey sessionId) r)).
  pose proof (redisCall_activeSessions f st) as Hm.
  pose proof (redisCall_stunServers f st) as Hs.
  pose proof (redisCall_faults f st) as Hf.
  pose proof (redisCall_ok f st) as Hok.
  pose proof (redisCall_fault f st) as Hko.
  destruct (redisCall f st) as [r st'] eqn:E. simpl in *.
  destruct (decide (head (faults st) = Some true)) as [Hd|Hd].
  - destruct (Hko Hd) as [-> Hr]. repeat split; try done. by right.
  - destruct (Hok Hd) as [-> Hr]. repeat split; try done. by left.
Qed.

Lemma getSession_spec sessionId st :
  ∃ v st', getSession sessionId st = (v, st')
    ∧ activeSessions st' = activeSessions st
    ∧ stunServers st' = stunServers st
    ∧ faults st' = tail (faults st)
    ∧ redis st' = redis st
    ∧ ((nextCallOk st ∧ v = redis st !! redisKey sessionId)
       ∨ (head (faults st) = Some true ∧ v = None)).
Proof.
  unfold getSession.
  set (f := λ r : gmap string Session, (r !! redisKey sessionId, r)).
  pose proof (redisCall_activeSessions f st) as Hm.
  pose proof (redisCall_stunServers f st) as Hs.
  pose proof (redisCall_faults f st) as Hf.
  pose proof (redisCall_ok f st) as Hok.
  pose proof (redisCall_fault f st) as Hko.
  destruct (redisCall f st) as [r st'] eqn:E. simpl in *.
  destruct (decide (head (faults st) = Some true)) as [Hd|Hd].
  - destruct (Hko Hd) as [-> Hr]. eexists _, st'. split; [done|].
    repeat split; try done. by right.
  - destruct (Hok Hd) as [-> Hr]. eexists _, st'. split; [done|].
    repeat split; try done. by left.
Qed.

(** ** [createSession] and [joinSession] *)

Lemma createSession_spec uid ty uuid now st :
  let session :=
    {| id := uuid; userId := uid; type := ty; status := "created";
       createdAt := now; participants := [];
       iceConfiguration := stunServers st |} in
  ∃ r st', createSession uid ty uuid now st = (r, st')
    ∧ activeSessions st' = JsMap.set uuid session (activeSessions st)
    ∧ stunServers st' = stunServers st
    ∧ faults st' = tail (faults st)
    ∧ ((nextCallOk st ∧ r = Ok session
        ∧ redis st' = <[redisKey uuid := session]> (redis st))
       ∨ (head (faults st) = Some true ∧ r = Throw redisError
          ∧ redis st' = redis st)).
Proof.
  intros session. unfold createSession, getIceServers. fold session.
  set (st1 := setActiveSessions _ st).
  destruct (storeSession_spec uuid session st1)
    as (r & st' & -> & Hm & Hs & Hf & [(Hok & -> & Hr)|(Hko & -> & Hr)]);
    eexists _, st'; (split; [done|]); repeat split; try done.
  - left. done.
  - right. done.
Qed.

Lemma joinFound_spec sessionId uid socketId now session st :
  let session' :=
    setStatus "active"
      (setParticipants
         (participants session ++
            [{| p_userId := uid; p_socketId := socketId; p_joinedAt := now;
                p_status := "connected" |}]) session) in
  ∃ r st', joinFound sessionId uid socketId now session st = (r, st')
    ∧ activeSessions st' = JsMap.set sessionId session' (activeSessions st)
    ∧ stunServers st' = stunServers st
    ∧ faults st' = tail (faults st)
    ∧ ((nextCallOk st ∧ r = Ok session'
        ∧ redis st' = <[redisKey sessionId := session']> (redis st))
       ∨ (head (faults st) = Some true ∧ r = Throw redisError
          ∧ redis st' = redis st)).
Proof.
  intros session'. unfold joinFound. fold session'.
  set (st1 := setActiveSessions _ st).
  destruct (storeSession_spec sessionId session' st1)
    as (r & st' & -> & Hm & Hs & Hf & [(Hok & -> & Hr)|(Hko & -> & Hr)]);
    eexists _, st'; (split; [done|]); repeat split; try done.
  - left. done.
  - right. done.
Qed.

Lemma entriesOf_push uid socketId now session st :
  entriesOf uid
    (setStatus st
       (setParticipants
          (participants session ++
             [{| p_userId := uid; p_socketId := socketId; p_joinedAt := now;
                 p_status := "connected" |}]) session))
  = S (entriesOf uid session).
Proof.
  unfold entriesOf. simpl. rewrite filter_app, length_app.
  rewrite filter_cons_True by done. simpl. lia.
Qed.

(** C2, as the code has it: [joinSession] pushes a new participant entry
    and removes none.  For every session of the in-process map and every
    user, the session afterwards holds the former entries followed by the
    new one, so the user has one entry more than before (two after one
    reconnect); when the write-through goes through the call returns that
    session and Redis holds it. *)
Theorem joinSession_appends_entry st sessionId session uid socketId now :
  JsMap.get sessionId (activeSessions st) = Some session →
  let r := joinSession sessionId uid socketId now st in
  let session' :=
    setStatus "active"
      (setParticipants
         (participants session ++
            [{| p_userId := uid; p_socketId := socketId; p_joinedAt := now;
                p_status := "connected" |}]) session) in
  JsMap.get sessionId (activeSessions r.2) = Some session'
  ∧ entriesOf uid session' = S (entriesOf uid session)
  ∧ (nextCallOk st →
     r.1 = Ok session' ∧ redis r.2 !! redisKey sessionId = Some session').
Proof.
  intros Hget r session'. subst r. unfold joinSession. rewrite Hget.
  destruct (joinFound_spec sessionId uid socketId now session st)
    as (r & st' & -> & Hm & _ & _ & Hcase). fold session' in Hm, Hcase.
  simpl. split; [|split].
  - rewrite Hm. apply JsMapFacts.get_set_eq.
  - apply entriesOf_push.
  - intros Hok. destruct Hcase as [(_ & -> & Hr)|(Hko & _)]; [|done].
    split; [done|]. rewrite Hr. apply lookup_insert_eq.
Qed.

Lemma joinSession_appends_entry_witness :
  let st := (createSession "u1" "voice" "S" 1000 (initial ["stun:a"] [])).2 in
  ∃ session session',
    JsMap.get "S" (activeSessions st) = Some session
    ∧ JsMap.get "S" (activeSessions (joinSession "S" "u1" "c1" 2000 st).2)
      = Some session'
    ∧ entriesOf "u1" session' = S (entriesOf "u1" session).
Proof.
  intros st. eexists _, _. split; [reflexivity|].
  pose proof (joinSession_appends_entry st "S" _ "u1" "c1" 2000 eq_refl) as H.
  destruct H as (H1 & H2 & _). split; [exact H1 | exact H2].
Defined.

(** C2, as the specification has it, fails: a user who is in the session
    on socket [c1] and joins again on socket [c2] has two entries. *)
Lemma joinSession_keeps_old_entry :
  ¬ (∀ st sessionId session uid socketId now session',
       JsMap.get sessionId (activeSessions st) = Some session →
       isParticipant uid session →
       (joinSession sessionId uid socketId now st).1 = Ok session' →
       entriesOf uid session' = 1%nat).
Proof.
  intros H.
  pose (st0 := (createSession "u1" "voice" "S" 1000 (initial ["stun:a"] [])).2).
  pose (st1 := (joinSession "S" "u1" "c1" 2000 st0).2).
  pose (p1 := {| p_userId := "u1"; p_socketId := "c1"; p_joinedAt := 2000;
                 p_status := "connected" |}).
  pose (p2 := {| p_userId := "u1"; p_socketId := "c2"; p_joinedAt := 3000;
                 p_status := "connected" |}).
  pose (mk := λ ps, {| id := "S"; userId := "u1"; type := "voice";
                       status := "active"; createdAt := 1000;
                       participants := ps; iceConfiguration := ["stun:a"] |}).
  assert (Hp : isParticipant "u1" (mk [p1])).
  { exists p1. split; [apply list_elem_of_here | done]. }
  specialize (H st1 "S" (mk [p1]) "u1" "c2" 3000 (mk [p1; p2]) eq_refl Hp eq_refl).
  vm_compute in H. discriminate H.
Qed.

(** C3, as the code has it: [createSession] fails exactly when the
    write-through to Redis fails.  In that case the session is in the
    in-process map and Redis is untouched, but the error of
    [storeSession] is rethrown to the caller; when the write goes through
    the session is returned and both tiers hold it. *)
Theorem createSession_rethrows_cache_failure st uid ty uuid now :
  let r := createSession uid ty uuid now st in
  let session :=
    {| id := uuid; userId := uid; type := ty; status := "created";
       createdAt := now; participants := [];
       iceConfiguration := stunServers st |} in
  JsMap.get uuid (activeSessions r.2) = Some session
  ∧ (head (faults st) = Some true →
     r.1 = Throw redisError ∧ redis r.2 = redis st)
  ∧ (head (faults st) ≠ Some true →
     r.1 = Ok session ∧ redis r.2 !! redisKey uuid = Some session).
Proof.
  intros r session. subst r.
  destruct (createSession_spec uid ty uuid now st)
    as (r & st' & -> & Hm & _ & _ & Hcase). fold session in Hm, Hcase.
  simpl. split; [|split].
  - rewrite Hm. apply JsMapFacts.get_set_eq.
  - intros Hko. destruct Hcase as [(Hok & _)|(_ & -> & Hr)]; [done|]. done.
  - intros Hok. destruct Hcase as [(_ & -> & Hr)|(Hko & _)]; [|done].
    split; [done|]. rewrite Hr. apply lookup_insert_eq.
Qed.

Lemma createSession_rethrows_cache_failure_witness :
  let st := initial ["stun:a"] [true] in
  head (faults st) = Some true
  ∧ (createSession "u1" "voice" "S" 1000 st).1 = Throw redisError
  ∧ is_Some (JsMap.get "S" (activeSessions (createSession "u1" "voice" "S" 1000 st).2)).
Proof.
  intros st. split; [reflexivity|].
  destruct (createSession_rethrows_cache_failure st "u1" "voice" "S" 1000)
    as (Hm & Hko & _).
  split; [apply Hko; reflexivity | rewrite Hm; eexists; reflexivity].
Defined.

(** C3, as the specification has it, fails: with Redis down the call
    does not complete, it throws. *)
Lemma createSession_cache_failure_not_swallowed :
  ¬ (∀ st uid ty uuid now,
       head (faults st) = Some true →
       ∃ session,
         (createSession uid ty uuid now st).1 = Ok session
         ∧ JsMap.get uuid (activeSessions (createSession uid ty uuid now st).2)
           = Some session).
Proof.
  intros H.
  destruct (H (initial ["stun:a"] [true]) "u1" "voice" "S" 1000 eq_refl)
    as (session & Hr & _).
  vm_compute in Hr. discriminate Hr.
Qed.

(** ** [leaveSession] *)

Lemma filter_keeps_all {A} (P : A → Prop) `{∀ x, Decision (P x)} (l : list A) :
  (∀ x, x ∈ l → P x) → filter P l = l.
Proof.
  induction l as [|a l IH]; intros Hall; [done|].
  rewrite filter_cons_True by (apply Hall; left).
  f_equal. apply IH. intros x Hx. apply Hall. by right.
Qed.

Lemma setParticipants_same session :
  setParticipants (participants session) session = session.
Proof. by destruct session. Qed.

Lemma leaveSession_last sessionId uid session st :
  JsMap.get sessionId (activeSessions st) = Some session →
  filter (λ p, p_userId p ≠ uid) (participants session) = [] →
  leaveSession sessionId uid st =
    (Ok (setStatus "ended" (setParticipants [] session)),
     deleteSession sessionId
       (setActiveSessions (JsMap.delete sessionId (activeSessions st)) st)).
Proof. intros Hget Hps. unfold leaveSession. by rewrite Hget, Hps. Qed.

Lemma leaveSession_remaining sessionId uid session st :
  JsMap.get sessionId (activeSessions st) = Some session →
  let ps := filter (λ p, p_userId p ≠ uid) (participants session) in
  ps ≠ [] →
  ∃ r st', leaveSession sessionId uid st = (r, st')
    ∧ activeSessions st' =
        JsMap.set sessionId (setParticipants ps session) (activeSessions st)
    ∧ stunServers st' = stunServers st
    ∧ faults st' = tail (faults st)
    ∧ ((nextCallOk st ∧ r = Ok (setParticipants ps session)
        ∧ redis st' =
            <[redisKey sessionId := setParticipants ps session]> (redis st))
       ∨ (head (faults st) = Some true ∧ r = Throw redisError
          ∧ redis st' = redis st)).
Proof.
  intros Hget ps Hps. unfold leaveSession. rewrite Hget. fold ps.
  destruct ps as [|p ps'] eqn:E; [done|]. simpl length. simpl Nat.eqb. cbv iota.
  set (st1 := setActiveSessions _ st).
  destruct (storeSession_spec sessionId (setParticipants (p :: ps') session) st1)
    as (r & st' & -> & Hm & Hs & Hf & [(Hok & -> & Hr)|(Hko & -> & Hr)]);
    eexists _, st'; (split; [done|]); repeat split; try done.
  - left. done.
  - right. done.
Qed.

Lemma leaveSession_absent sessionId uid st :
  JsMap.get sessionId (activeSessions st) = None →
  leaveSession sessionId uid st = (Throw "Session not found", st).
Proof. intros Hget. unfold leaveSession. by rewrite Hget. Qed.

Lemma leaveAll_absent sessionId uids st :
  JsMap.get sessionId (activeSessions st) = None →
  deletions (leaveAll sessionId uids st).1 = 0%nat
  ∧ (leaveAll sessionId uids st).2 = st.
Proof.
  intros Hget. induction uids as [|u uids IH]; simpl; [done|].
  rewrite leaveSession_absent by done.
  destruct (leaveAll sessionId uids st) as [rs st2]. simpl in *.
  destruct IH as [IH ->]. split; [|done].
  unfold deletions in *. rewrite filter_cons_False; [done|]. simpl. intros [].
Qed.

Lemma leaveAll_drains sessionId uids :
  ∀ st session,
    JsMap.get sessionId (activeSessions st) = Some session →
    uids ≠ [] →
    (∀ p, p ∈ participants session → p_userId p ∈ uids) →
    deletions (leaveAll sessionId uids st).1 = 1%nat
    ∧ JsMap.get sessionId (activeSessions (leaveAll sessionId uids st).2) = None
    ∧ (noFaults st →
       redis (leaveAll sessionId uids st).2 !! redisKey sessionId = None).
Proof.
  induction uids as [|u uids IH]; intros st session Hget Hne Hcov; [done|].
  simpl.
  destruct (filter (λ p, p_userId p ≠ u) (participants session)) as [|q qs] eqn:Hps.
  - rewrite (leaveSession_last _ _ _ _ Hget Hps).
    set (st0 := setActiveSessions _ st).
    destruct (deleteSession_spec sessionId st0) as (Hm & _ & _ & Hr).
    assert (Hgone : JsMap.get sessionId
              (activeSessions (deleteSession sessionId st0)) = None).
    { rewrite Hm. apply JsMapFacts.get_delete_eq. }
    destruct (leaveAll_absent sessionId uids _ Hgone) as [Hd Hst].
    destruct (leaveAll sessionId uids (deleteSession sessionId st0)) as [rs st2].
    simpl in *. subst st2. split; [|split; [done|]].
    + unfold deletions in *. rewrite filter_cons_True; [simpl; lia | done].
    + intros Hnf. destruct Hr as [[_ ->]|[Hko _]].
      * apply lookup_delete_eq.
      * by apply (noFaults_next st0) in Hnf.
  - assert (Hq : filter (λ p, p_userId p ≠ u) (participants session) ≠ [])
      by (rewrite Hps; done).
    destruct (leaveSession_remaining _ _ _ _ Hget Hq)
      as (r & st' & -> & Hm & _ & Hf & Hcase).
    rewrite Hps in *.
    assert (Hr : sessionDeleted r = false).
    { destruct Hcase as [(_ & -> & _)|(_ & -> & _)]; [|done].
      simpl. apply andb_false_r. }
    assert (Hin : ∀ p, p ∈ q :: qs → p_userId p ∈ uids).
    { intros p Hp. rewrite <- Hps in Hp.
      apply list_elem_of_filter in Hp as [Hpu Hp].
      apply Hcov in Hp. apply elem_of_cons in Hp as [?|?]; done. }
    assert (Hget' : JsMap.get sessionId (activeSessions st')
                    = Some (setParticipants (q :: qs) session)).
    { rewrite Hm. apply JsMapFacts.get_set_eq. }
    assert (Hne' : uids ≠ []).
    { intros ->. specialize (Hin q (list_elem_of_here _ _)).
      by apply elem_of_nil in Hin. }
    destruct (IH st' _ Hget' Hne' Hin) as (Hd & Hg & Hrd).
    destruct (leaveAll sessionId uids st') as [rs st2]. simpl in *.
    split; [|split; [done|]].
    + unfold deletions in *. rewrite filter_cons_False; [done|].
      rewrite Hr. intros [].
    + intros Hnf. apply Hrd. by apply (noFaults_tail st).
Qed.

(** C6, as the code has it: [leaveSession] on a session of the
    in-process map.  When it removes the last participant it returns the
    session ended and without participants (the deletion outcome) and the
    session is gone from the map; it is gone from Redis when the delete
    reaches Redis.  When participants remain and the write-through goes
    through, the updated session is returned and both tiers hold it.  A
    series of [leaveSession] calls that covers every participant
    contains exactly one deletion outcome and leaves no entry of the
    session in the map, nor in Redis when no Redis call fails. *)
Theorem leaveSession_drains_once st sessionId session uid :
  JsMap.get sessionId (activeSessions st) = Some session →
  let ps := filter (λ p, p_userId p ≠ uid) (participants session) in
  let r := leaveSession sessionId uid st in
  (ps = [] →
     r.1 = Ok (setStatus "ended" (setParticipants [] session))
     ∧ JsMap.get sessionId (activeSessions r.2) = None
     ∧ (nextCallOk st → redis r.2 !! redisKey sessionId = None))
  ∧ (ps ≠ [] → nextCallOk st →
     r.1 = Ok (setParticipants ps session)
     ∧ JsMap.get sessionId (activeSessions r.2) = Some (setParticipants ps session)
     ∧ redis r.2 !! redisKey sessionId = Some (setParticipants ps session))
  ∧ (∀ uids,
       (∀ p, p ∈ participants session → p_userId p ∈ uid :: uids) →
       let d := leaveAll sessionId (uid :: uids) st in
       deletions d.1 = 1%nat
       ∧ JsMap.get sessionId (activeSessions d.2) = None
       ∧ (noFaults st → redis d.2 !! redisKey sessionId = None)).
Proof.
  intros Hget ps r. split; [|split].
  - intros Hps. subst r. rewrite (leaveSession_last _ _ _ _ Hget Hps). simpl.
    set (st0 := setActiveSessions _ st).
    destruct (deleteSession_spec sessionId st0) as (Hm & _ & _ & Hr).
    split; [done|]. split.
    + rewrite Hm. apply JsMapFacts.get_delete_eq.
    + intros Hok. destruct Hr as [[_ ->]|[Hko _]]; [|done].
      apply lookup_delete_eq.
  - intros Hps Hok. subst r.
    destruct (leaveSession_remaining _ _ _ _ Hget Hps)
      as (r & st' & -> & Hm & _ & _ & Hcase).
    destruct Hcase as [(_ & -> & Hr)|(Hko & _)]; [|done]. simpl.
    split; [done|]. split.
    + rewrite Hm. apply JsMapFacts.get_set_eq.
    + rewrite Hr. apply lookup_insert_eq.
  - intros uids Hcov d. subst d.
    by apply (leaveAll_drains sessionId (uid :: uids) st session).
Qed.

Lemma leaveSession_drains_once_witness :
  let st0 := (createSession "u1" "voice" "S" 1000 (initial ["stun:a"] [])).2 in
  let st1 := (joinSession "S" "u1" "c1" 2000 st0).2 in
  let st2 := (joinSession "S" "u2" "c2" 3000 st1).2 in
  let d := leaveAll "S" ["u1"; "u2"] st2 in
  is_Some (JsMap.get "S" (activeSessions st2))
  ∧ deletions d.1 = 1%nat
  ∧ JsMap.get "S" (activeSessions d.2) = None
  ∧ redis d.2 !! redisKey "S" = None.
Proof.
  intros st0 st1 st2 d. split; [eexists; reflexivity|].
  destruct (leaveSession_drains_once st2 "S" _ "u1" eq_refl) as (_ & _ & H).
  destruct (H ["u2"]) as (Hd & Hm & Hr).
  - intros p Hp. simpl in Hp.
    apply elem_of_cons in Hp as [->|Hp]; [simpl; apply list_elem_of_here|].
    apply elem_of_cons in Hp as [->|Hp];
      [simpl; apply list_elem_of_further, list_elem_of_here|].
    by apply elem_of_nil in Hp.
  - split; [exact Hd|]. split; [exact Hm|]. apply Hr. constructor.
Defined.

(** C6, as the specification has it, fails: when the delete does not
    reach Redis the failure is only logged, and the drained session is
    still in Redis. *)
Lemma leaveSession_failed_delete_leaves_cache_entry :
  ¬ (∀ st sessionId session uid,
       JsMap.get sessionId (activeSessions st) = Some session →
       filter (λ p, p_userId p ≠ uid) (participants session) = [] →
       JsMap.get sessionId (activeSessions (leaveSession sessionId uid st).2)
         = None
       ∧ redis (leaveSession sessionId uid st).2 !! redisKey sessionId = None).
Proof.
  intros H.
  pose (st0 := (createSession "u1" "voice" "S" 1000
                  (initial ["stun:a"] [false; false; true])).2).
  pose (st1 := (joinSession "S" "u1" "c1" 2000 st0).2).
  destruct (H st1 "S" _ "u1" eq_refl eq_refl) as [_ Hr].
  vm_compute in Hr. discriminate Hr.
Qed.

(** C10, as the code has it: removing a user who has no entry, from a
    session of the in-process map that has participants, leaves the map
    as it was and writes the session through.  When the write reaches
    Redis the call returns the very session it found and Redis holds it;
    when the write fails the call throws the Redis error. *)
Theorem leaveSession_absent_user_is_noop st sessionId session uid :
  JsMap.get sessionId (activeSessions st) = Some session →
  participants session ≠ [] →
  ¬ isParticipant uid session →
  let r := leaveSession sessionId uid st in
  activeSessions r.2 = activeSessions st
  ∧ (nextCallOk st →
     r.1 = Ok session
     ∧ redis r.2 = <[redisKey sessionId := session]> (redis st))
  ∧ (head (faults st) = Some true →
     r.1 = Throw redisError ∧ redis r.2 = redis st).
Proof.
  intros Hget Hne Hnot r. subst r.
  assert (Hps : filter (λ p, p_userId p ≠ uid) (participants session)
                = participants session).
  { apply filter_keeps_all. intros p Hp Hu. apply Hnot. by exists p. }
  assert (Hq : filter (λ p, p_userId p ≠ uid) (participants session) ≠ [])
    by (by rewrite Hps).
  destruct (leaveSession_remaining _ _ _ _ Hget Hq)
    as (r & st' & -> & Hm & _ & _ & Hcase).
  rewrite Hps, setParticipants_same in Hm, Hcase. simpl. split; [|split].
  - rewrite Hm. by apply JsMapFacts.set_same.
  - intros Hok. by destruct Hcase as [(_ & -> & Hr)|(Hko & _)].
  - intros Hko. by destruct Hcase as [(Hok & _)|(_ & -> & Hr)].
Qed.

Lemma leaveSession_absent_user_is_noop_witness :
  let st0 := (createSession "u1" "voice" "S" 1000 (initial ["stun:a"] [])).2 in
  let st1 := (joinSession "S" "u1" "c1" 2000 st0).2 in
  activeSessions (leaveSession "S" "u9" st1).2 = activeSessions st1
  ∧ isOk (leaveSession "S" "u9" st1).1 = true.
Proof.
  intros st0 st1.
  assert (Hnot : ¬ isParticipant "u9"
    {| id := "S"; userId := "u1"; type := "voice"; status := "active";
       createdAt := 1000;
       participants := [{| p_userId := "u1"; p_socketId := "c1";
                           p_joinedAt := 2000; p_status := "connected" |}];
       iceConfiguration := ["stun:a"] |}).
  { intros (p & Hp & Hu). simpl in Hp.
    apply elem_of_cons in Hp as [->|Hp]; [discriminate Hu|].
    by apply elem_of_nil in Hp. }
  destruct (leaveSession_absent_user_is_noop st1 "S" _ "u9" eq_refl
              ltac:(discriminate) Hnot) as (Hm & Hr & _).
  split; [exact Hm|]. destruct Hr as [-> _]; [|reflexivity].
  unfold nextCallOk. simpl. discriminate.
Defined.

(** C10, as the specification has it, fails: when the write-through
    fails, the no-op removal throws. *)
Lemma leaveSession_absent_user_throws_on_cache_failure :
  ¬ (∀ st sessionId session uid,
       JsMap.get sessionId (activeSessions st) = Some session →
       participants session ≠ [] →
       ¬ isParticipant uid session →
       (leaveSession sessionId uid st).1 = Ok session).
Proof.
  intros H.
  pose (st0 := (createSession "u1" "voice" "S" 1000
                  (initial ["stun:a"] [false; false; true])).2).
  pose (st1 := (joinSession "S" "u1" "c1" 2000 st0).2).
  pose (p1 := {| p_userId := "u1"; p_socketId := "c1"; p_joinedAt := 2000;
                 p_status := "connected" |}).
  pose (s1 := {| id := "S"; userId := "u1"; type := "voice";
                 status := "active"; createdAt := 1000;
                 participants := [p1]; iceConfiguration := ["stun:a"] |}).
  assert (Hnot : ¬ isParticipant "u9" s1).
  { intros (p & Hp & Hu). simpl in Hp.
    apply elem_of_cons in Hp as [->|Hp]; [discriminate Hu|].
    by apply elem_of_nil in Hp. }
  specialize (H st1 "S" s1 "u9" eq_refl ltac:(discriminate) Hnot).
  vm_compute in H. discriminate H.
Qed.

(** ** The expiry sweep *)

Lemma filter_ext_in {A} (P Q : A → Prop)
    `{∀ x, Decision (P x)} `{∀ x, Decision (Q x)} (l : list A) :
  (∀ x, x ∈ l → P x ↔ Q x) → filter P l = filter Q l.
Proof.
  induction l as [|a l IH]; intros Hall; [done|].
  assert (Hl : filter P l = filter Q l).
  { apply IH. intros x Hx. apply Hall. by right. }
  destruct (decide (P a)) as [Hp|Hp].
  - assert (Hq : Q a) by (apply Hall; [left | done]).
    rewrite (filter_cons_True P), (filter_cons_True Q) by done. by rewrite Hl.
  - assert (Hq : ¬ Q a) by (intros Hq; apply Hp, Hall; [left | done]).
    by rewrite (filter_cons_False P), (filter_cons_False Q) by done.
Qed.

Lemma sweep_activeSessions now entries :
  ∀ st,
    activeSessions (sweep entries now st) =
    filter (λ e, e.1 ∉ (filter (λ e', Is_true (expired now e'.2)) entries).*1)
      (activeSessions st).
Proof.
  induction entries as [|[k s] entries IH]; intros st; simpl.
  - symmetry. apply filter_keeps_all. intros x _. apply not_elem_of_nil.
  - destruct (expired now s) eqn:Hexp.
    + rewrite IH. destruct (deleteSession_spec k
        (setActiveSessions (JsMap.delete k (activeSessions st)) st))
        as (-> & _). simpl.
      rewrite JsMapFacts.delete_filter, list_filter_filter.
      rewrite filter_cons_True by (simpl; rewrite Hexp; exact I).
      apply list_filter_iff. intros [k' s']. simpl.
      rewrite not_elem_of_cons. tauto.
    + rewrite IH. rewrite filter_cons_False; [done|].
      simpl. rewrite Hexp. intros [].
Qed.

Lemma sweep_faults now entries :
  ∀ st, noFaults st → noFaults (sweep entries now st).
Proof.
  induction entries as [|[k s] entries IH]; intros st Hnf; simpl; [done|].
  destruct (expired now s); [|by apply IH].
  apply IH. set (st0 := setActiveSessions _ st).
  destruct (deleteSession_spec k st0) as (_ & _ & Hf & _).
  by apply (noFaults_tail st0).
Qed.

(** The sweep only deletes from Redis, and only keys of expired entries. *)
Lemma sweep_redis_other now entries :
  ∀ st key,
    (∀ k s, (k, s) ∈ entries → expired now s = true → key ≠ redisKey k) →
    redis (sweep entries now st) !! key = redis st !! key.
Proof.
  induction entries as [|[k s] entries IH]; intros st key Hkey; simpl; [done|].
  assert (Hrest : ∀ k' s', (k', s') ∈ entries → expired now s' = true
                           → key ≠ redisKey k').
  { intros k' s' Hin. apply Hkey. by right. }
  destruct (expired now s) eqn:Hexp; [|by apply IH].
  rewrite IH by done.
  set (st0 := setActiveSessions _ st).
  destruct (deleteSession_spec k st0) as (_ & _ & _ & [[_ ->]|[_ ->]]); [|done].
  simpl. apply lookup_delete_ne. intros Heq.
  by apply (Hkey k s (list_elem_of_here _ _) Hexp).
Qed.

Lemma sweep_redis_None now entries :
  ∀ st key,
    redis st !! key = None → redis (sweep entries now st) !! key = None.
Proof.
  induction entries as [|[k s] entries IH]; intros st key Hnone; simpl; [done|].
  destruct (expired now s); [|by apply IH].
  apply IH. set (st0 := setActiveSessions _ st).
  destruct (deleteSession_spec k st0) as (_ & _ & _ & [[_ ->]|[_ ->]]); [|done].
  simpl. destruct (decide (redisKey k = key)) as [<-|Hne].
  - apply lookup_delete_eq.
  - by rewrite lookup_delete_ne.
Qed.

Lemma sweep_redis_deleted now entries :
  ∀ st k s,
    noFaults st → (k, s) ∈ entries → expired now s = true →
    redis (sweep entries now st) !! redisKey k = None.
Proof.
  induction entries as [|[k0 s0] entries IH]; intros st k s Hnf Hin Hexp.
  - by apply elem_of_nil in Hin.
  - simpl. set (st0 := setActiveSessions (JsMap.delete k0 (activeSessions st)) st).
    destruct (deleteSession_spec k0 st0) as (_ & _ & Hf & Hr).
    apply elem_of_cons in Hin as [[= <- <-]|Hin].
    + rewrite Hexp. apply sweep_redis_None.
      destruct Hr as [[_ ->]|[Hko _]].
      * apply lookup_delete_eq.
      * by apply (noFaults_next st0) in Hnf.
    + destruct (expired now s0); [|by apply (IH st k s)].
      apply (IH _ k s); [|done|done]. by apply (noFaults_tail st0).
Qed.

(** C8, as the code has it: [cleanupExpiredSessions] removes from the
    in-process map exactly the sessions created more than one hour
    ([60 * 60 * 1000] ms) before [now], whatever their participants, and
    keeps the others as they are and in their order; it deletes nothing
    from Redis but the keys of the sessions it removed, and does delete
    those when no Redis call fails. *)
Theorem cleanupExpiredSessions_removes_exactly_expired now st :
  JsMap.wf (activeSessions st) →
  let st' := cleanupExpiredSessions now st in
  activeSessions st' =
    filter (λ e, createdAt e.2 >= now - 3600000) (activeSessions st)
  ∧ (∀ k s, JsMap.get k (activeSessions st) = Some s →
       if decide (createdAt s < now - 3600000)
       then JsMap.get k (activeSessions st') = None
            ∧ (noFaults st → redis st' !! redisKey k = None)
       else JsMap.get k (activeSessions st') = Some s
            ∧ redis st' !! redisKey k = redis st !! redisKey k)
  ∧ (∀ key,
       (∀ k s, JsMap.get k (activeSessions st) = Some s →
               createdAt s < now - 3600000 → key ≠ redisKey k) →
       redis st' !! key = redis st !! key).
Proof.
  intros Hwf st'. subst st'. unfold cleanupExpiredSessions.
  assert (Hexp : ∀ s, expired now s = true ↔ createdAt s < now - 3600000).
  { intros s. unfold expired. rewrite Z.ltb_lt. lia. }
  assert (Hmap : activeSessions (sweep (activeSessions st) now st) =
                 filter (λ e, createdAt e.2 >= now - 3600000) (activeSessions st)).
  { rewrite sweep_activeSessions. apply filter_ext_in. intros [k s] Hin. simpl.
    split.
    - intros Hk. destruct (expired now s) eqn:E.
      + exfalso. apply Hk. apply list_elem_of_fmap. exists (k, s). split; [done|].
        apply list_elem_of_filter. split; [simpl; rewrite E; exact I | done].
      + apply not_true_iff_false in E. rewrite Hexp in E. lia.
    - intros Hge Hk. apply list_elem_of_fmap in Hk as [[k' s'] [Hkk Hin']].
      simpl in Hkk. subst k'.
      apply list_elem_of_filter in Hin' as [He Hin']. simpl in He.
      apply Is_true_true in He. apply Hexp in He.
      apply (JsMapFacts.elem_of_get _ _ _ Hwf) in Hin, Hin'.
      rewrite Hin in Hin'. injection Hin' as <-. lia. }
  assert (Hother : ∀ key,
       (∀ k s, JsMap.get k (activeSessions st) = Some s →
               createdAt s < now - 3600000 → key ≠ redisKey k) →
       redis (sweep (activeSessions st) now st) !! key = redis st !! key).
  { intros key Hkey. apply sweep_redis_other. intros k s Hin He.
    apply (Hkey k s); [by apply JsMapFacts.elem_of_get | by apply Hexp]. }
  split; [exact Hmap|]. split; [|exact Hother].
  intros k s Hget. pose proof (JsMapFacts.get_Some_elem_of _ _ _ Hget) as Hin.
  assert (Hfilter : ∀ m, JsMap.wf m → (k, s) ∈ m →
            JsMap.get k (filter (λ e, createdAt e.2 >= now - 3600000) m) =
            if decide (createdAt s < now - 3600000) then None else Some s).
  { clear. intros m. unfold JsMap.wf, JsMap.keys.
    induction m as [|[k0 s0] m IH]; intros Hwf Hin.
    - by apply elem_of_nil in Hin.
    - apply NoDup_cons in Hwf as [Hk0 Hwf]. csimpl in Hk0.
      apply elem_of_cons in Hin as [[= <- <-]|Hin].
      + case_decide.
        * rewrite filter_cons_False by (simpl; lia).
          destruct (JsMap.get k _) eqn:Hg; [|done].
          apply JsMapFacts.get_Some_elem_of, list_elem_of_filter in Hg as [_ Hg].
          exfalso. apply Hk0. apply list_elem_of_fmap. by exists (k, s0).
        * rewrite filter_cons_True by (simpl; lia). simpl.
          by rewrite String.eqb_refl.
      + assert (k ≠ k0).
        { intros ->. apply Hk0. apply list_elem_of_fmap. by exists (k0, s). }
        destruct (decide (createdAt s0 >= now - 3600000)).
        * rewrite filter_cons_True by done. simpl.
          destruct (String.eqb_spec k k0); [done | by apply IH].
        * rewrite filter_cons_False by done. by apply IH. }
  rewrite Hmap, (Hfilter _ Hwf Hin). case_decide as Hd.
  - split; [done|]. intros Hnf.
    apply (sweep_redis_deleted now _ st k s Hnf Hin). by apply Hexp.
  - split; [done|]. apply Hother. intros k' s' Hget' Hlt Heq.
    apply redisKey_inj in Heq. subst k'. rewrite Hget in Hget'.
    injection Hget' as <-. done.
Qed.

Lemma cleanupExpiredSessions_removes_exactly_expired_witness :
  let st0 := (createSession "u1" "voice" "old" 0 (initial ["stun:a"] [])).2 in
  let st1 := (joinSession "old" "u1" "c1" 3000000 (elapse 3000000 st0)).2 in
  let st2 := (createSession "u2" "voice" "new" 3600000 (elapse 600000 st1)).2 in
  let st3 := elapse 120000 st2 in
  let st' := cleanupExpiredSessions 3720000 st3 in
  JsMap.wf (activeSessions st3)
  ∧ is_Some (redis st3 !! redisKey "old")
  ∧ JsMap.keys (activeSessions st') = ["new"]
  ∧ redis st' !! redisKey "old" = None
  ∧ is_Some (redis st' !! redisKey "new").
Proof.
  intros st0 st1 st2 st3 st'.
  assert (Hwf : JsMap.wf (activeSessions st3)).
  { unfold JsMap.wf. simpl. apply NoDup_cons. split.
    - intros H. apply list_elem_of_singleton in H. discriminate H.
    - apply NoDup_singleton. }
  destruct (cleanupExpiredSessions_removes_exactly_expired 3720000 st3 Hwf)
    as (Hm & Hk & Ho).
  split; [exact Hwf|]. split; [eexists; vm_compute; reflexivity|].
  split; [|split].
  - subst st'. rewrite Hm. reflexivity.
  - specialize (Hk "old" _ eq_refl). simpl in Hk.
    destruct Hk as [_ Hk]. apply Hk. constructor.
  - subst st'. rewrite (Ho (redisKey "new")).
    + eexists. vm_compute. reflexivity.
    + intros k s Hget Hold Heq. apply redisKey_inj in Heq. subst k.
      vm_compute in Hget. injection Hget as <-. vm_compute in Hold.
      discriminate Hold.
Defined.

(** C8, as the specification has it, fails: a delete that does not
    reach Redis is only logged.  A session is created at time 0 and
    joined fifty minutes later, which writes it to Redis anew, with an
    hour to live.  The sweep of minute sixty-two finds it older than an
    hour and removes it from the map, but its Redis delete fails: the
    session is still in Redis, with forty-eight minutes left to live. *)
Lemma cleanupExpiredSessions_failed_delete_leaves_cache_entry :
  let st0 := (createSession "u1" "voice" "old" 0
                (initial ["stun:a"] [false; false; true])).2 in
  let st1 := (joinSession "old" "u1" "c1" 3000000 (elapse 3000000 st0)).2 in
  let st2 := elapse 720000 st1 in
  let now := 3720000 in
  let st' := cleanupExpiredSessions now st2 in
  JsMap.wf (activeSessions st2)
  ∧ (∃ s, JsMap.get "old" (activeSessions st2) = Some s
          ∧ createdAt s < now - 3600000
          ∧ redis st' !! redisKey "old" = Some s)
  ∧ JsMap.get "old" (activeSessions st') = None
  ∧ ttl st' !! redisKey "old" = Some 2880000
  ∧ ¬ (∀ k s, JsMap.get k (activeSessions st2) = Some s →
              createdAt s < now - 3600000 →
              JsMap.get k (activeSessions st') = None
              ∧ redis st' !! redisKey k = None).
Proof.
  intros st0 st1 st2 now st'.
  split; [apply NoDup_singleton|].
  split; [eexists; split; [vm_compute; reflexivity|]; split;
            [reflexivity | vm_compute; reflexivity]|].
  split; [vm_compute; reflexivity|].
  split; [vm_compute; reflexivity|].
  intros H. destruct (H "old" _ eq_refl) as [_ Hr]; [reflexivity|].
  vm_compute in Hr. discriminate Hr.
Qed.

(** ** The invariant of the two tiers *)

Section invariant.
Variables E C : string → Prop.
Implicit Types (m : list (string * Session)) (r : gmap string Session).

Lemma storeInv_set m r k s :
  storeInv E C m r →
  id s = k → status s ≠ "ended" → C k → ¬ E k →
  storeInv E C (JsMap.set k s m) r.
Proof.
  intros (Hwf & Hm & Hr & HE) Hid Hst HC HnE.
  split; [by apply JsMapFacts.wf_set|]. split; [|done].
  intros k' s' Hget. destruct (decide (k = k')) as [<-|Hne].
  - rewrite JsMapFacts.get_set_eq in Hget. by injection Hget as <-.
  - rewrite JsMapFacts.get_set_ne in Hget by done. by apply Hm.
Qed.

Lemma storeInv_insert m r s :
  storeInv E C m r →
  status s ≠ "ended" → C (id s) → ¬ E (id s) →
  storeInv E C m (<[redisKey (id s) := s]> r).
Proof.
  intros (Hwf & Hm & Hr & HE) Hst HC HnE.
  split; [done|]. split; [done|]. split; [|done].
  intros key s' Hget. destruct (decide (redisKey (id s) = key)) as [<-|Hne].
  - rewrite lookup_insert_eq in Hget. by injection Hget as <-.
  - rewrite lookup_insert_ne in Hget by done. by apply Hr.
Qed.

Lemma storeInv_delete_map m r k :
  storeInv E C m r → storeInv E C (JsMap.delete k m) r.
Proof.
  intros (Hwf & Hm & Hr & HE).
  split; [by apply JsMapFacts.wf_delete|]. split; [|done].
  intros k' s' Hget. destruct (decide (k = k')) as [<-|Hne].
  - by rewrite JsMapFacts.get_delete_eq in Hget.
  - rewrite JsMapFacts.get_delete_ne in Hget by done. by apply Hm.
Qed.

Lemma storeInv_delete_redis m r key :
  storeInv E C m r → storeInv E C m (delete key r).
Proof.
  intros (Hwf & Hm & Hr & HE).
  split; [done|]. split; [done|]. split; [|done].
  intros key' s' Hget. apply lookup_delete_Some in Hget as [_ Hget].
  by apply Hr.
Qed.

(** What the invariant says of a session found in Redis under the key
    of [sessionId]. *)
Lemma storeInv_loaded m r sessionId s :
  storeInv E C m r → r !! redisKey sessionId = Some s →
  id s = sessionId ∧ status s ≠ "ended" ∧ C sessionId ∧ ¬ E sessionId.
Proof.
  intros (_ & _ & Hr & _) Hget.
  destruct (Hr _ _ Hget) as (Hkey & Hst & HC & HnE).
  apply redisKey_inj in Hkey. by subst sessionId.
Qed.
End invariant.

(** A session that is in neither tier may be counted as ended. *)
(** Keys that expire take nothing away from the invariant. *)
Lemma storeInv_elapse E C ms st :
  storeInv E C (activeSessions st) (redis st) →
  storeInv E C (activeSessions (elapse ms st)) (redis (elapse ms st)).
Proof.
  intros (Hwf & Hm & Hr & HE). simpl.
  split; [done|]. split; [done|]. split; [|done].
  intros key s Hget. apply map_lookup_filter_Some in Hget as [Hget _].
  by apply Hr.
Qed.

Lemma storeInv_ended E C m r k :
  storeInv E C m r →
  JsMap.get k m = None → r !! redisKey k = None → C k →
  storeInv (λ x, E x ∨ x = k) C m r.
Proof.
  intros (Hwf & Hm & Hr & HE) Hgm Hgr HC.
  split; [done|]. split; [|split].
  - intros k' s' Hget. destruct (Hm _ _ Hget) as (? & ? & ? & ?).
    repeat split; try done. intros [?| ->]; [done|]. congruence.
  - intros key s' Hget. destruct (Hr _ _ Hget) as (-> & ? & ? & ?).
    repeat split; try done. intros [?| Heq]; [done|]. congruence.
  - intros e [?| ->]; [by apply HE | done].
Qed.

Lemma storeInv_weaken (E E' C C' : string → Prop) m r :
  storeInv E C m r →
  (∀ x, E' x ↔ E x) → (∀ x, C x → C' x) →
  storeInv E' C' m r.
Proof.
  intros (Hwf & Hm & Hr & HE) HEE HCC.
  split; [done|]. split; [|split].
  - intros k s Hget. destruct (Hm _ _ Hget) as (? & ? & ? & ?).
    repeat split; try done; [by apply HCC | by rewrite HEE].
  - intros key s Hget. destruct (Hr _ _ Hget) as (? & ? & ? & ?).
    repeat split; try done; [by apply HCC | by rewrite HEE].
  - intros e He. apply HCC, HE. by apply HEE.
Qed.

Lemma sweep_storeInv E C now entries :
  ∀ st,
    storeInv E C (activeSessions st) (redis st) →
    storeInv E C (activeSessions (sweep entries now st))
                 (redis (sweep entries now st)).
Proof.
  induction entries as [|[k s] entries IH]; intros st Hinv; simpl; [done|].
  destruct (expired now s); [|by apply IH].
  apply IH. set (st0 := setActiveSessions _ st).
  destruct (deleteSession_spec k st0) as (-> & _ & _ & [[_ ->]|[_ ->]]); simpl.
  - by apply storeInv_delete_redis, storeInv_delete_map.
  - by apply storeInv_delete_map.
Qed.

Lemma joinSession_cases sessionId uid socketId now st :
  ∃ r st', joinSession sessionId uid socketId now st = (r, st')
    ∧ (noFaults st → noFaults st')
    ∧ ((r = Throw "Session not found"
        ∧ activeSessions st' = activeSessions st ∧ redis st' = redis st)
       ∨ (∃ session,
            (JsMap.get sessionId (activeSessions st) = Some session
             ∨ redis st !! redisKey sessionId = Some session)
            ∧ let session' :=
                setStatus "active"
                  (setParticipants
                     (participants session ++
                        [{| p_userId := uid; p_socketId := socketId;
                            p_joinedAt := now; p_status := "connected" |}])
                     session) in
              activeSessions st' = JsMap.set sessionId session' (activeSessions st)
              ∧ ((r = Ok session'
                  ∧ redis st' = <[redisKey sessionId := session']> (redis st))
                 ∨ (r = Throw redisError ∧ redis st' = redis st)))).
Proof.
  unfold joinSession.
  destruct (JsMap.get sessionId (activeSessions st)) as [session|] eqn:Hget.
  - destruct (joinFound_spec sessionId uid socketId now session st)
      as (r & st' & -> & Hm & _ & Hf & Hcase).
    eexists _, _. split; [done|]. split; [by apply noFaults_tail|].
    right. exists session. split; [by left|]. simpl. split; [done|].
    destruct Hcase as [(_ & -> & Hr)|(_ & -> & Hr)]; [by left | by right].
  - destruct (getSession_spec sessionId st)
      as (v & st1 & -> & Hm1 & _ & Hf1 & Hr1 & Hv).
    destruct v as [session|].
    + set (st2 := setActiveSessions _ st1).
      destruct (joinFound_spec sessionId uid socketId now session st2)
        as (r & st' & -> & Hm & _ & Hf & Hcase).
      eexists _, _. split; [done|]. split.
      { intros Hnf. apply (noFaults_tail st2); [done|].
        by apply (noFaults_tail st). }
      right. exists session. split.
      { right. by destruct Hv as [[_ Hv]|[_ Hv]]. }
      simpl. simpl in Hm. rewrite JsMapFacts.set_set, Hm1 in Hm.
      split; [done|].
      destruct Hcase as [(_ & -> & Hr)|(_ & -> & Hr)]; simpl in Hr;
        rewrite Hr1 in Hr; [by left | by right].
    + eexists _, _. split; [done|]. split; [by apply noFaults_tail|].
      by left.
Qed.

Lemma step_storeInv E C now op st :
  storeInv E C (activeSessions st) (redis st) →
  (∀ uuid, uuid ∈ createdId op → C uuid ∧ ¬ E uuid) →
  let o := step now op st in
  storeInv E C (activeSessions o.2) (redis o.2)
  ∧ (noFaults st → noFaults o.2)
  ∧ (∀ s, o.1 = Ok (Some s) →
       C (id s) ∧ ¬ E (id s)
       ∧ (status s = "ended" →
          participants s = []
          ∧ JsMap.get (id s) (activeSessions o.2) = None
          ∧ (noFaults st → redis o.2 !! redisKey (id s) = None))).
Proof.
  intros Hinv Hfresh o. subst o.
  destruct op as [uid ty uuid|sessionId uid socketId|sessionId uid|sessionId|
                  |ms];
    simpl.
  - (* createSession *)
    destruct (Hfresh uuid (list_elem_of_here _ _)) as [HC HnE].
    destruct (createSession_spec uid ty uuid now st)
      as (r & st' & -> & Hm & _ & Hf & Hcase).
    set (session := {| id := uuid |}) in *.
    assert (Hset : storeInv E C (JsMap.set uuid session (activeSessions st))
                     (redis st)) by (by apply storeInv_set).
    destruct Hcase as [(_ & -> & Hr)|(_ & -> & Hr)]; simpl; rewrite Hm, Hr.
    + split; [by apply (storeInv_insert E C _ _ session)|].
      split; [by apply noFaults_tail|].
      intros s [= <-]. done.
    + split; [done|]. split; [by apply noFaults_tail|]. done.
  - (* joinSession *)
    destruct (joinSession_cases sessionId uid socketId now st)
      as (r & st' & -> & Hnf & [(-> & Hm & Hr)|(session & Hfound & Hm & Hcase)]).
    { simpl. rewrite Hm, Hr. done. }
    simpl in Hm, Hcase.
    set (session' := setStatus "active" _) in *.
    assert (Hs : id session = sessionId ∧ status session ≠ "ended"
                 ∧ C sessionId ∧ ¬ E sessionId).
    { destruct Hfound as [Hg|Hg].
      - destruct Hinv as (_ & Hmap & _). by apply Hmap.
      - by apply (storeInv_loaded E C _ _ _ _ Hinv). }
    destruct Hs as (Hid & _ & HC & HnE).
    assert (Hset : storeInv E C (JsMap.set sessionId session' (activeSessions st))
                     (redis st)) by (by apply storeInv_set).
    destruct Hcase as [(-> & Hr)|(-> & Hr)]; simpl; rewrite Hm, Hr.
    + split; [|split; [done|]].
      * rewrite <- Hid. apply (storeInv_insert E C _ _ session'); try done;
          simpl; by rewrite Hid.
      * intros s [= <-]. simpl. rewrite Hid. done.
    + done.
  - (* leaveSession *)
    destruct (JsMap.get sessionId (activeSessions st)) as [session|] eqn:Hget.
    2:{ rewrite leaveSession_absent by done. simpl. done. }
    destruct Hinv as (Hwf & Hmap & Hred & HE).
    destruct (Hmap _ _ Hget) as (Hid & Hst & HC & HnE).
    assert (Hinv : storeInv E C (activeSessions st) (redis st)) by done.
    destruct (filter (λ p, p_userId p ≠ uid) (participants session))
      as [|q qs] eqn:Hps.
    + rewrite (leaveSession_last _ _ _ _ Hget Hps). simpl.
      set (st0 := setActiveSessions _ st).
      destruct (deleteSession_spec sessionId st0) as (Hm & _ & Hf & Hr).
      rewrite Hm. simpl. split; [|split].
      * destruct Hr as [[_ ->]|[_ ->]]; simpl.
        -- by apply storeInv_delete_redis, storeInv_delete_map.
        -- by apply storeInv_delete_map.
      * by apply (noFaults_tail st0).
      * intros s [= <-]. simpl. rewrite Hid. split; [done|]. split; [done|].
        intros _. split; [done|]. split; [apply JsMapFacts.get_delete_eq|].
        intros Hnf. destruct Hr as [[_ ->]|[Hko _]].
        -- apply lookup_delete_eq.
        -- by apply (noFaults_next st0) in Hnf.
    + assert (Hq : filter (λ p, p_userId p ≠ uid) (participants session) ≠ [])
        by (by rewrite Hps).
      destruct (leaveSession_remaining _ _ _ _ Hget Hq)
        as (r & st' & -> & Hm & _ & Hf & Hcase).
      rewrite Hps in *.
      set (session' := setParticipants (q :: qs) session) in *.
      assert (Hset : storeInv E C (JsMap.set sessionId session' (activeSessions st))
                       (redis st)) by (by apply storeInv_set).
      destruct Hcase as [(_ & -> & Hr)|(_ & -> & Hr)]; simpl; rewrite Hm, Hr.
      * split; [|split; [by apply noFaults_tail|]].
        -- rewrite <- Hid. apply (storeInv_insert E C _ _ session'); try done;
             simpl; by rewrite Hid.
        -- intros s [= <-]. simpl. rewrite Hid. done.
      * split; [done|]. split; [by apply noFaults_tail|]. done.
  - (* deleteSession *)
    destruct (deleteSession_spec sessionId st) as (-> & _ & Hf & Hr).
    split; [|split; [by apply noFaults_tail | done]].
    destruct Hr as [[_ ->]|[_ ->]]; [by apply storeInv_delete_redis | done].
  - (* cleanupExpiredSessions *)
    unfold cleanupExpiredSessions.
    split; [by apply sweep_storeInv|]. split; [apply sweep_faults | done].
  - (* the passing of time *)
    split; [by apply (storeInv_elapse E C ms st)|]. done.
Qed.

(** ** Runs *)

Lemma createdIds_cons now op ops :
  createdIds ((now, op) :: ops) = createdId op ++ createdIds ops.
Proof. by destruct op. Qed.

(** The invariant at the start of a process: the map is empty, and Redis
    holds what the service wrote there before, each session under its
    own key and none of them ended. *)
Lemma storeInv_start st (C : string → Prop) :
  activeSessions st = [] →
  (∀ key s, redis st !! key = Some s →
            key = redisKey (id s) ∧ status s ≠ "ended" ∧ C (id s)) →
  storeInv (λ _, False) C (activeSessions st) (redis st).
Proof.
  intros -> Hr. split; [apply NoDup_nil_2|]. split; [done|]. split; [|done].
  intros key s Hget. destruct (Hr _ _ Hget) as (? & ? & ?).
  repeat split; try done. intros [].
Qed.

(** A session seen in a tier is not ended and was never seen ended. *)
Lemma observed_in_tier E C (o : Result (option Session) * State) s :
  storeInv E C (activeSessions o.2) (redis o.2) →
  observed o s →
  o.1 = Ok (Some s) ∨ (status s ≠ "ended" ∧ ¬ E (id s)).
Proof.
  intros (_ & Hm & Hr & _) [Hret|[[k Hk]|[key Hkey]]].
  - by left.
  - right. destruct (Hm _ _ Hk) as (-> & ? & _ & ?). done.
  - right. destruct (Hr _ _ Hkey) as (_ & ? & _ & ?). done.
Qed.

Lemma run_ended_is_empty ops :
  ∀ st,
    storeInv (λ _, False) (λ _, True) (activeSessions st) (redis st) →
    ∀ o s, o ∈ run ops st → observed o s →
           status s = "ended" → participants s = [].
Proof.
  induction ops as [|[now op] ops IH]; intros st Hinv o s Hin Hobs Hended.
  - by apply elem_of_nil in Hin.
  - simpl in Hin.
    assert (Hnew : ∀ u, u ∈ createdId op → True ∧ ¬ False) by (intros; tauto).
    destruct (step_storeInv _ _ now op st Hinv Hnew) as (Hinv' & _ & Hret).
    apply elem_of_cons in Hin as [->|Hin].
    + destruct (observed_in_tier _ _ _ _ Hinv' Hobs) as [Hr|[Hne _]]; [|done].
      destruct (Hret _ Hr) as (_ & _ & Hemp). by apply Hemp.
    + by apply (IH _ Hinv' o s).
Qed.

Section fresh_runs.
(** What a step does to the invariant when the identifiers it creates
    are new. *)
Lemma step_fresh E C now op st :
  storeInv E C (activeSessions st) (redis st) →
  (∀ u, u ∈ createdId op → ¬ C u) →
  let o := step now op st in
  let C' := λ x, C x ∨ x ∈ createdId op in
  storeInv E C' (activeSessions o.2) (redis o.2)
  ∧ (noFaults st → noFaults o.2)
  ∧ (∀ s, o.1 = Ok (Some s) →
       C' (id s) ∧ ¬ E (id s)
       ∧ (status s = "ended" →
          JsMap.get (id s) (activeSessions o.2) = None
          ∧ (noFaults st → redis o.2 !! redisKey (id s) = None))).
Proof.
  intros Hinv Hfresh o C'.
  assert (Hinv0 : storeInv E C' (activeSessions st) (redis st)).
  { apply (storeInv_weaken E E C C'); [done | done | by left]. }
  assert (Hnew : ∀ u, u ∈ createdId op → C' u ∧ ¬ E u).
  { intros u Hu. split; [by right|]. intros He.
    apply (Hfresh u Hu). destruct Hinv as (_ & _ & _ & HE). by apply HE. }
  destruct (step_storeInv E C' now op st Hinv0 Hnew) as (H1 & H2 & H3).
  split; [done|]. split; [done|].
  intros s Hs. destruct (H3 s Hs) as (? & ? & Hend).
  split; [done|]. split; [done|]. intros He. by destruct (Hend He) as (_ & ? & ?).
Qed.

Lemma fresh_rest (C : string → Prop) now op ops :
  NoDup (createdIds ((now, op) :: ops)) →
  (∀ u, u ∈ createdIds ((now, op) :: ops) → ¬ C u) →
  NoDup (createdIds ops)
  ∧ (∀ u, u ∈ createdId op → ¬ C u)
  ∧ (∀ u, u ∈ createdIds ops → ¬ (C u ∨ u ∈ createdId op)).
Proof.
  rewrite createdIds_cons. intros Hnd Hfresh.
  apply NoDup_app in Hnd as (_ & Hdisj & Hnd).
  split; [done|]. split.
  - intros u Hu. apply Hfresh, elem_of_app. by left.
  - intros u Hu [Hc|Hc].
    + apply (Hfresh u); [|done]. apply elem_of_app. by right.
    + by apply (Hdisj u).
Qed.

(** Without Redis faults and with fresh identifiers, a session seen
    ended is never seen again. *)
Lemma run_never_again ops :
  ∀ st (E C : string → Prop),
    storeInv E C (activeSessions st) (redis st) →
    noFaults st →
    NoDup (createdIds ops) →
    (∀ u, u ∈ createdIds ops → ¬ C u) →
    ∀ j oj s, run ops st !! j = Some oj → observed oj s → ¬ E (id s).
Proof.
  induction ops as [|[now op] ops IH];
    intros st E C Hinv Hnf Hnd Hfresh j oj s Hj Hobs; [done|].
  destruct (fresh_rest C now op ops Hnd Hfresh) as (Hnd' & Hop & Hrest).
  destruct (step_fresh E C now op st Hinv Hop) as (Hinv' & Hnf' & Hret).
  destruct j as [|j]; simpl in Hj.
  - injection Hj as <-.
    destruct (observed_in_tier _ _ _ _ Hinv' Hobs) as [Hr|[_ Hne]]; [|done].
    by destruct (Hret _ Hr) as (_ & ? & _).
  - by apply (IH _ E _ Hinv' (Hnf' Hnf) Hnd' Hrest j oj s).
Qed.

Lemma run_terminal ops :
  ∀ st (E C : string → Prop),
    storeInv E C (activeSessions st) (redis st) →
    noFaults st →
    NoDup (createdIds ops) →
    (∀ u, u ∈ createdIds ops → ¬ C u) →
    ∀ i j oi oj s s',
      (i < j)%nat →
      run ops st !! i = Some oi → run ops st !! j = Some oj →
      observed oi s → status s = "ended" →
      observed oj s' → id s' ≠ id s.
Proof.
  induction ops as [|[now op] ops IH];
    intros st E C Hinv Hnf Hnd Hfresh i j oi oj s s' Hij Hi Hj Hobs Hended Hobs';
    [done|].
  destruct (fresh_rest C now op ops Hnd Hfresh) as (Hnd' & Hop & Hrest).
  destruct (step_fresh E C now op st Hinv Hop) as (Hinv' & Hnf' & Hret).
  destruct j as [|j]; [lia|]. simpl in Hj.
  destruct i as [|i]; simpl in Hi.
  - injection Hi as <-.
    destruct (observed_in_tier _ _ _ _ Hinv' Hobs) as [Hr|[Hne _]]; [|done].
    destruct (Hret _ Hr) as (HC & _ & Hgone).
    destruct (Hgone Hended) as (Hgm & Hgr).
    pose proof (storeInv_ended _ _ _ _ _ Hinv' Hgm (Hgr Hnf) HC) as Hinv''.
    intros Heq.
    apply (run_never_again ops _ _ _ Hinv'' (Hnf' Hnf) Hnd' Hrest j oj s' Hj Hobs').
    by right.
  - apply (IH _ E _ Hinv' (Hnf' Hnf) Hnd' Hrest i j oi oj s s'); try done. lia.
Qed.
End fresh_runs.

(** C7, as the code has it: take any run of the session store by a
    fresh process, made of operations whose session identifiers are
    strings and of stretches of time in which Redis keys expire, against
    a Redis that holds only what the service wrote there before (each
    session under its own key, none ended).  Whatever Redis faults occur,
    a session is never seen ended with participants, neither in what an
    operation returns nor in the in-process map nor in Redis.  And when
    no Redis call fails and [uuidv4()] gives identifiers that are new, a
    session seen ended is not seen active at any later point of the
    run. *)
Theorem ended_is_terminal st0 ops :
  activeSessions st0 = [] →
  (∀ key s, redis st0 !! key = Some s →
            key = redisKey (id s) ∧ status s ≠ "ended") →
  let trace := run ops st0 in
  (∀ o s, o ∈ trace → observed o s →
          status s = "ended" → participants s = [])
  ∧ (noFaults st0 →
     NoDup (createdIds ops) →
     (∀ key s, redis st0 !! key = Some s → id s ∉ createdIds ops) →
     ∀ i j oi oj s s',
       (i < j)%nat → trace !! i = Some oi → trace !! j = Some oj →
       observed oi s → status s = "ended" →
       observed oj s' → id s' = id s → status s' ≠ "active").
Proof.
  intros Hmap Hredis trace. subst trace. split.
  - apply run_ended_is_empty. apply storeInv_start; [done|].
    intros key s Hget. by destruct (Hredis _ _ Hget).
  - intros Hnf Hnd Hfresh i j oi oj s s' Hij Hi Hj Hobs Hended Hobs' Hid.
    exfalso.
    pose (C := λ x, ∃ key s0, redis st0 !! key = Some s0 ∧ id s0 = x).
    assert (Hinv : storeInv (λ _, False) C (activeSessions st0) (redis st0)).
    { apply storeInv_start; [done|]. intros key s0 Hget.
      destruct (Hredis _ _ Hget). repeat split; try done. by exists key, s0. }
    assert (HC : ∀ u, u ∈ createdIds ops → ¬ C u).
    { intros u Hu (key & s0 & Hget & <-). by apply (Hfresh _ _ Hget). }
    apply (run_terminal ops st0 (λ _, False) C Hinv Hnf Hnd HC
             i j oi oj s s' Hij Hi Hj Hobs Hended Hobs' Hid).
Qed.

Lemma ended_is_terminal_witness :
  let ops := [(1000, OpCreate "u1" "voice" "S"); (2000, OpJoin "S" "u1" "c1");
              (3000, OpLeave "S" "u1"); (4000, OpCreate "u2" "voice" "T");
              (5000, OpJoin "T" "u2" "c2")] in
  let trace := run ops (initial ["stun:a"] []) in
  NoDup (createdIds ops)
  ∧ ∃ oi s, trace !! 2%nat = Some oi ∧ observed oi s ∧ status s = "ended"
      ∧ participants s = []
      ∧ ∀ oj s', trace !! 4%nat = Some oj → observed oj s' →
                 id s' = id s → status s' ≠ "active".
Proof.
  intros ops trace.
  assert (Hnd : NoDup (createdIds ops)).
  { simpl. apply NoDup_cons. split.
    - intros H. apply list_elem_of_singleton in H. discriminate H.
    - apply NoDup_singleton. }
  split; [exact Hnd|].
  assert (Hempty0 : ∀ key s, redis (initial ["stun:a"] []) !! key = Some s →
                             key = redisKey (id s) ∧ status s ≠ "ended").
  { intros key s H. simpl in H. by rewrite lookup_empty in H. }
  destruct (ended_is_terminal (initial ["stun:a"] []) ops eq_refl Hempty0)
    as [Hempty Hterm].
  pose (oi := nth 2 trace (Throw "", initial [] [])).
  pose (s := {| id := "S"; userId := "u1"; type := "voice"; status := "ended";
                createdAt := 1000; participants := [];
                iceConfiguration := ["stun:a"] |}).
  assert (Hi : trace !! 2%nat = Some oi) by reflexivity.
  assert (Hobs : observed oi s) by (left; reflexivity).
  exists oi, s. split; [exact Hi|]. split; [exact Hobs|]. split; [reflexivity|].
  split.
  - apply (Hempty oi s); [|exact Hobs|reflexivity].
    apply list_elem_of_lookup. by exists 2%nat.
  - intros oj s' Hj Hobs' Hid.
    assert (Hf : ∀ key s0, redis (initial ["stun:a"] []) !! key = Some s0 →
                           id s0 ∉ createdIds ops).
    { intros key s0 H. simpl in H. by rewrite lookup_empty in H. }
    apply (Hterm (Forall_nil_2 _) Hnd Hf 2%nat 4%nat oi oj s s'); try done. lia.
Defined.

(** C7, as the specification has it, fails: the delete of a drained
    session that does not reach Redis is only logged; the copy left in
    Redis is loaded again by the next [joinSession], and the session
    returned ended is returned active, with its former participant. *)
Lemma stale_cache_copy_revives_ended_session :
  ¬ (∀ stun fs ops,
       NoDup (createdIds ops) →
       ∀ i j oi oj s s',
         (i < j)%nat →
         run ops (initial stun fs) !! i = Some oi →
         run ops (initial stun fs) !! j = Some oj →
         observed oi s → status s = "ended" →
         observed oj s' → id s' = id s → status s' ≠ "active").
Proof.
  intros H.
  pose (ops := [(1000, OpCreate "u1" "voice" "S"); (2000, OpJoin "S" "u1" "c1");
                (3000, OpLeave "S" "u1"); (4000, OpJoin "S" "u2" "c2")]).
  pose (fs := [false; false; true]).
  pose (trace := run ops (initial ["stun:a"] fs)).
  pose (d := (Throw "" : Result (option Session), initial [] [])).
  pose (mk := λ st ps, {| id := "S"; userId := "u1"; type := "voice";
                          status := st; createdAt := 1000; participants := ps;
                          iceConfiguration := ["stun:a"] |}).
  pose (p1 := {| p_userId := "u1"; p_socketId := "c1"; p_joinedAt := 2000;
                 p_status := "connected" |}).
  pose (p2 := {| p_userId := "u2"; p_socketId := "c2"; p_joinedAt := 4000;
                 p_status := "connected" |}).
  assert (Hnd : NoDup (createdIds ops)) by apply NoDup_singleton.
  apply (H ["stun:a"] fs ops Hnd 2%nat 3%nat (nth 2 trace d) (nth 3 trace d)
           (mk "ended" []) (mk "active" [p1; p2])).
  - lia.
  - reflexivity.
  - reflexivity.
  - left. reflexivity.
  - reflexivity.
  - left. vm_compute. reflexivity.
  - reflexivity.
  - reflexivity.
Qed.

(** ** The conference bridge *)

Lemma startLegs_length svc confSid ps :
  ∀ sent, length (startLegs svc confSid ps sent).1 = length ps.
Proof.
  induction ps as [|p ps IH]; intros sent; simpl; [done|].
  destruct (addToConference svc confSid p sent) as [r sent1].
  specialize (IH sent1).
  destruct (startLegs svc confSid ps sent1) as [rs sent2]. simpl in *.
  by rewrite IH.
Qed.

Lemma promiseAll_fulfils {A} (rs : list (Result A)) :
  Forall (λ r, isOk r = true) rs → ∃ l, promiseAll rs = Ok l.
Proof.
  induction rs as [|[a|e] rs IH]; intros Hall; simpl.
  - by eexists.
  - apply Forall_cons in Hall as [_ Hall].
    destruct (IH Hall) as [l ->]. by eexists.
  - apply Forall_cons in Hall as [Hbad _]. discriminate Hbad.
Qed.

Lemma promiseAll_rejects {A} (rs : list (Result A)) :
  ¬ Forall (λ r, isOk r = true) rs →
  ∃ e k, rs !! k = Some (Throw e) ∧ promiseAll rs = Throw e.
Proof.
  induction rs as [|[a|e] rs IH]; intros Hnot; simpl.
  - exfalso. apply Hnot. constructor.
  - destruct IH as (e & k & Hk & ->).
    { intros Hall. apply Hnot. by constructor. }
    by exists e, (S k).
  - by exists e, 0%nat.
Qed.

Lemma createConferenceCall_unpacked svc callId ps sent conference :
  conferences_create (client svc) sent (conferenceParams svc callId)
    = Ok conference →
  (createConferenceCall svc callId ps sent).1 =
    match promiseAll (legResults svc callId ps sent conference) with
    | Ok _ =>
        Ok {| conferenceSid := conference_sid conference;
              conference_status := "created";
              conference_participants := length ps |}
    | Throw e => Throw ("Conference call creation failed: " +:+ e)
    end.
Proof.
  intros Hconf. unfold createConferenceCall, legResults. rewrite Hconf.
  destruct (startLegs _ _ _ _) as [legs sent2]. simpl.
  by destruct (promiseAll legs).
Qed.

Lemma createConferenceCall_no_conference svc callId ps sent e :
  conferences_create (client svc) sent (conferenceParams svc callId) = Throw e →
  (createConferenceCall svc callId ps sent).1
    = Throw ("Conference call creation failed: " +:+ e).
Proof. intros Hconf. unfold createConferenceCall. by rewrite Hconf. Qed.

(** C1, as the code has it: [createConferenceCall] awaits the leg
    creations with [Promise.all], so it is all or nothing.  Once the
    provider has created the conference, one leg creation is started per
    participant; when all of them succeed the call returns the conference
    id, the status [created] and the number of participants (no list of
    legs); when any of them fails, even if others succeeded, the call
    throws [Conference call creation failed: ...] with the message of a
    failed leg and returns no partial result. *)
Theorem createConferenceCall_all_or_nothing svc callId ps sent conference :
  conferences_create (client svc) sent (conferenceParams svc callId)
    = Ok conference →
  let legs := legResults svc callId ps sent conference in
  let r := (createConferenceCall svc callId ps sent).1 in
  length legs = length ps
  ∧ (Forall (λ l, isOk l = true) legs →
     r = Ok {| conferenceSid := conference_sid conference;
               conference_status := "created";
               conference_participants := length ps |})
  ∧ (¬ Forall (λ l, isOk l = true) legs →
     ∃ e k, legs !! k = Some (Throw e)
            ∧ r = Throw ("Conference call creation failed: " +:+ e)).
Proof.
  intros Hconf legs r. subst r.
  rewrite (createConferenceCall_unpacked _ _ _ _ _ Hconf). fold legs.
  split; [apply startLegs_length|]. split.
  - intros Hall. by destruct (promiseAll_fulfils legs Hall) as [l ->].
  - intros Hnot. destruct (promiseAll_rejects legs Hnot) as (e & k & Hk & ->).
    by exists e, k.
Qed.

Lemma createConferenceCall_all_or_nothing_witness :
  let svc := {| client := refusing "+15550000002";
                whatsappNumber := Some "whatsapp:+15550000000";
                voiceNumber := Some "+15550000009";
                BACKEND_URL := Some "https://example.test" |} in
  let ps := [ {| number := "+15550000001"; isWhatsApp := false |};
              {| number := "+15550000002"; isWhatsApp := false |} ] in
  conferences_create (client svc) [] (conferenceParams svc "call-abc")
    = Ok {| conference_sid := "CF1" |}
  ∧ (createConferenceCall svc "call-abc" ps []).1
    = Throw "Conference call creation failed: busy".
Proof.
  intros svc ps. split; [reflexivity|].
  destruct (createConferenceCall_all_or_nothing svc "call-abc" ps []
              {| conference_sid := "CF1" |} eq_refl) as (_ & _ & Hfail).
  destruct Hfail as (e & k & Hk & ->).
  - intros Hall. apply Forall_cons in Hall as [_ Hall].
    apply Forall_cons in Hall as [Hbad _]. discriminate Hbad.
  - destruct k as [|[|k]]; simpl in Hk; [discriminate Hk | | discriminate Hk].
    by injection Hk as <-.
Defined.

(** C1, as the specification has it, fails: with two participants, the
    provider accepting the first call and refusing the second, a leg
    creation succeeded and yet the call throws. *)
Lemma createConferenceCall_partial_success_throws :
  ¬ (∀ svc callId ps sent conference,
       conferences_create (client svc) sent (conferenceParams svc callId)
         = Ok conference →
       ps ≠ [] →
       (∃ i, legSucceeds (legResults svc callId ps sent conference) i) →
       isOk (createConferenceCall svc callId ps sent).1 = true).
Proof.
  intros H.
  pose (svc := {| client := refusing "+15550000002";
                  whatsappNumber := Some "whatsapp:+15550000000";
                  voiceNumber := Some "+15550000009";
                  BACKEND_URL := Some "https://example.test" |}).
  pose (ps := [ {| number := "+15550000001"; isWhatsApp := false |};
                {| number := "+15550000002"; isWhatsApp := false |} ]).
  specialize (H svc "call-abc" ps [] {| conference_sid := "CF1" |} eq_refl).
  assert (Hone : ∃ i, legSucceeds
            (legResults svc "call-abc" ps [] {| conference_sid := "CF1" |}) i).
  { exists 0%nat. eexists. reflexivity. }
  specialize (H ltac:(discriminate) Hone). vm_compute in H. discriminate H.
Qed.

(** C9: [generateConferenceTwiML] is a function of the conference name
    and the options alone.  Whatever the state of the service object and
    whatever was sent to the provider before, equal arguments give the
    same markup, and no request is sent. *)
Theorem generateConferenceTwiML_pure
    (voiceResponse : list (string * JsVal) → string → string)
    svc1 svc2 conferenceName options sent1 sent2 :
  (generateConferenceTwiML voiceResponse svc1 conferenceName options sent1).1
  = (generateConferenceTwiML voiceResponse svc2 conferenceName options sent2).1
  ∧ (generateConferenceTwiML voiceResponse svc1 conferenceName options sent1).2
    = sent1
  ∧ (generateConferenceTwiML voiceResponse svc1 conferenceName options sent1).1
    = voiceResponse (conferenceAttributes (default [] options)) conferenceName.
Proof. done. Qed.

(** The attributes of the example of the specification: the defaults, and
    after them the two options under their own names. *)
Example conferenceAttributes_room42 :
  conferenceAttributes
    [("startOnEnter", JBool true); ("endOnExit", JBool false)]
  = [ ("startConferenceOnEnter", JBool true);
      ("endConferenceOnExit", JBool false);
      ("waitUrl", JStr "");
      ("maxParticipants", JNum 10);
      ("record", JStr "record-from-start");
      ("startOnEnter", JBool true);
      ("endOnExit", JBool false) ].
Proof. reflexivity. Qed.

(** ** The signaling relay *)

(** The three signaling handlers look the session up and nothing else:
    an authenticated socket's offer for a session of the in-process map
    goes to the room of the session, whoever the sender is. *)
Lemma onOffer_forwards verifyJWT me sock uid sessionId sdp now w :
  sockets w !! me = Some sock →
  authenticatedAs sock = Some uid →
  is_Some (JsMap.get sessionId (activeSessions (service w))) →
  handle verifyJWT me (MsgOffer sessionId (Some sdp)) now w =
    emitTo (sessionRoom sessionId) me "webrtc:offer"
      (PSdp {| m_sessionId := sessionId; m_userId := uid; m_type := "offer";
               m_sdp := sdp; m_timestamp := now |}) w.
Proof.
  intros Hsock Hauth [s Hs]. unfold handle, onOffer, createOffer.
  by rewrite Hsock, Hauth, Hs.
Qed.

(** A socket is unauthenticated from its connection on, and what other
    sockets send does not change that: only its own [authenticate] writes
    its [userId]. *)
Lemma connect_is_unauthenticated me w :
  ∃ sock, sockets (connect me w) !! me = Some sock
          ∧ authenticatedAs sock = None.
Proof.
  eexists. split; [apply lookup_insert_eq | reflexivity].
Qed.

Lemma handle_keeps_other_sockets verifyJWT me other msg now w :
  me ≠ other →
  sockets (handle verifyJWT other msg now w) !! me = sockets w !! me.
Proof.
  intros Hne. unfold handle.
  destruct (sockets w !! other) as [sock|] eqn:Hsock; [|done].
  destruct msg as [token|sessionId|sessionId|sessionId offer|sessionId answer
                   |sessionId c|ev]; simpl; [| | | | | |by destruct ev].
  - unfold onAuthenticate. destruct token as [t|]; [|done].
    destruct (String.eqb t ""); [done|].
    destruct (verifyJWT t); [|done]. simpl. by apply lookup_insert_ne.
  - unfold onSessionJoin. destruct (authenticatedAs sock); [|done].
    destruct (joinSession _ _ _ _ _) as [[session|e] st']; simpl;
      by apply lookup_insert_ne.
  - unfold onSessionLeave. destruct (authenticatedAs sock); [|done].
    destruct (leaveSession _ _ _) as [[session|e] st']; simpl;
      by apply lookup_insert_ne.
  - unfold onOffer. destruct (authenticatedAs sock); [|done].
    by destruct (createOffer _ _ _ _ _).
  - unfold onAnswer. destruct (authenticatedAs sock); [|done].
    by destruct (createAnswer _ _ _ _ _).
  - unfold onIceCandidate. destruct (authenticatedAs sock); [|done].
    by destruct (handleIceCandidate _ _ _ _ _).
Qed.

(** C4 fails on the code: in [relayWithOutsider] the user [u3] of socket
    [c] has no participant entry in session [S], [handleSignaling] would
    refuse them, and yet their offer tagged with [S] is delivered to
    socket [a] and no error goes back to [c]. *)
Theorem offer_of_non_participant_is_forwarded :
  let w := relayWithOutsider in
  let w' := handle twoTokens "c" (MsgOffer "S" (Some (JStr "v=0"))) 4000 w in
  (∃ sock, sockets w !! "c" = Some sock ∧ authenticatedAs sock = Some "u3")
  ∧ (∃ s, JsMap.get "S" (activeSessions (service w)) = Some s
          ∧ ¬ isParticipant "u3" s)
  ∧ handleSignaling "S" "u3" (Some (JStr "offer", JStr "v=0")) 4000 (service w)
    = Throw "Participant not found in session"
  ∧ drop (length (outbox w)) (outbox w') =
      [{| recipients := {["a"]}; event := "webrtc:offer";
          payload := PSdp {| m_sessionId := "S"; m_userId := "u3";
                             m_type := "offer"; m_sdp := JStr "v=0";
                             m_timestamp := 4000 |} |}]
  ∧ deliveredToOthers "c" (length (outbox w)) w' = {["a"]}.
Proof.
  intros w w'. split; [|split; [|split; [|split]]].
  - eexists. split; [vm_compute; reflexivity | reflexivity].
  - eexists. split; [vm_compute; reflexivity|].
    intros (p & Hp & Hu). simpl in Hp.
    apply elem_of_cons in Hp as [->|Hp]; [discriminate Hu|].
    by apply elem_of_nil in Hp.
  - vm_compute. reflexivity.
  - vm_compute. reflexivity.
  - vm_compute. reflexivity.
Qed.

(** C5, as the code has it: on a socket whose [userId] is unset, a
    join, offer, answer or candidate that carries a payload is answered
    with the event [error] ([Not authenticated]) to that socket only;
    sent without a payload, it makes the handler throw before the test of
    [userId], and the answer is [session:error] for a join and
    [webrtc:error] for the three others; a leave is dropped without any
    answer, with or without payload.  (No handler reads a property of
    the payload before the test of [userId], so what the payload holds
    makes no difference.)  In every case the session service, the rooms
    and the bookkeeping of the relay are untouched and nothing is emitted
    to any other socket. *)
Theorem unauthenticated_message_is_rejected verifyJWT me sock msg now w :
  sockets w !! me = Some sock →
  authenticatedAs sock = None →
  eventOf msg ≠ EvAuthenticate →
  let w' := handle verifyJWT me msg now w in
  let answer ev p := [{| recipients := {[me]}; event := ev; payload := p |}] in
  service w' = service w
  ∧ sockets w' = sockets w
  ∧ connectedClients w' = connectedClients w
  ∧ outbox w' =
      outbox w ++
      match msg with
      | MsgLeave _ | MsgNoPayload EvLeave => []
      | MsgNoPayload EvJoin =>
          answer "session:error" (PError "Failed to join session")
      | MsgNoPayload EvOffer =>
          answer "webrtc:error" (PError "Failed to send offer")
      | MsgNoPayload EvAnswer =>
          answer "webrtc:error" (PError "Failed to send answer")
      | MsgNoPayload EvCandidate =>
          answer "webrtc:error" (PError "Failed to send ICE candidate")
      | _ => answer "error" (PError "Not authenticated")
      end
  ∧ deliveredToOthers me (length (outbox w)) w' = ∅.
Proof.
  intros Hsock Hauth Hmsg w' answer. subst w' answer.
  assert (Hnone : ∀ w0 : Relay,
            outbox w0 = outbox w → deliveredToOthers me (length (outbox w)) w0 = ∅).
  { intros w0 Hw0. unfold deliveredToOthers. by rewrite Hw0, drop_all. }
  assert (Herr : ∀ ev p,
            deliveredToOthers me (length (outbox w)) (emit me ev p w) = ∅).
  { intros ev p. unfold deliveredToOthers, emit. simpl.
    rewrite drop_app_length. simpl.
    by rewrite difference_diag_L, union_empty_r_L. }
  unfold handle. rewrite Hsock.
  destruct msg as [token|sessionId|sessionId|sessionId offer|sessionId answer
                   |sessionId c|ev].
  - done.
  - unfold onSessionJoin. rewrite Hauth. by rewrite Herr.
  - unfold onSessionLeave. rewrite Hauth. rewrite app_nil_r. by rewrite Hnone.
  - unfold onOffer. rewrite Hauth. by rewrite Herr.
  - unfold onAnswer. rewrite Hauth. by rewrite Herr.
  - unfold onIceCandidate. rewrite Hauth. by rewrite Herr.
  - destruct ev; unfold onNoPayload; try done; try (by rewrite Herr).
    rewrite app_nil_r. by rewrite Hnone.
Qed.

Lemma unauthenticated_message_is_rejected_witness :
  let w := connect "a" relayWithOutsider in
  let w' := handle twoTokens "a" (MsgJoin "S") 5000 w in
  let w'' := handle twoTokens "a" (MsgNoPayload EvJoin) 5000 w in
  service w' = service w
  ∧ sockets w' = sockets w
  ∧ outbox w' =
      outbox w ++ [{| recipients := {["a"]}; event := "error";
                      payload := PError "Not authenticated" |}]
  ∧ service w'' = service w
  ∧ sockets w'' = sockets w
  ∧ outbox w'' =
      outbox w ++ [{| recipients := {["a"]}; event := "session:error";
                      payload := PError "Failed to join session" |}].
Proof.
  intros w w' w''.
  pose (sock := {| sock_userId := None; sock_hubspotConnected := JUndefined;
                   sock_rooms := {["a"]} |}).
  assert (Hsock : sockets w !! "a" = Some sock).
  { unfold w, connect, setSocket. simpl. apply lookup_insert_eq. }
  destruct (unauthenticated_message_is_rejected twoTokens "a" sock
              (MsgJoin "S") 5000 w Hsock eq_refl)
    as (Hs & Hk & _ & Ho & _); [discriminate|].
  destruct (unauthenticated_message_is_rejected twoTokens "a" sock
              (MsgNoPayload EvJoin) 5000 w Hsock eq_refl)
    as (Hs' & Hk' & _ & Ho' & _); [discriminate|].
  split; [exact Hs|]. split; [exact Hk|]. split; [exact Ho|].
  split; [exact Hs'|]. split; [exact Hk' | exact Ho'].
Defined.

(** C5, as the specification has it, fails: an unauthenticated socket
    that sends a leave gets no error (and nothing else) back. *)
Lemma unauthenticated_leave_gets_no_error :
  ¬ (∀ verifyJWT me sock msg now w,
       sockets w !! me = Some sock →
       authenticatedAs sock = None →
       eventOf msg ≠ EvAuthenticate →
       ∃ e, e ∈ drop (length (outbox w)) (outbox (handle verifyJWT me msg now w))
            ∧ recipients e = {[me]} ∧ event e = "error").
Proof.
  intros H.
  pose (sock := {| sock_userId := None; sock_hubspotConnected := JUndefined;
                   sock_rooms := {["a"]} |}).
  pose (w := {| service := initial ["stun:a"] []; sockets := {["a" := sock]};
                connectedClients := []; outbox := [] |}).
  destruct (H twoTokens "a" sock (MsgLeave "S") 5000 w) as (e & He & _).
  - apply lookup_singleton_eq.
  - reflexivity.
  - discriminate.
  - unfold handle in He. simpl in He.
    rewrite lookup_singleton_eq in He. simpl in He.
    by apply elem_of_nil in He.
Qed.

(** * Further properties of the session service *)

(** ** Lazy recovery *)

(** X1: [joinSession] on a session the process does not hold but Redis
    does.  When the read reaches Redis the session is loaded into the
    map with the new participant pushed, and the outcome of the call is
    that of the write-through; when the read fails the call throws
    [Session not found], as if Redis had no such session, and changes
    neither tier. *)
Theorem joinSession_recovers_from_redis st sessionId session uid socketId now :
  JsMap.get sessionId (activeSessions st) = None →
  redis st !! redisKey sessionId = Some session →
  let r := joinSession sessionId uid socketId now st in
  let session' :=
    setStatus "active"
      (setParticipants
         (participants session ++
            [{| p_userId := uid; p_socketId := socketId; p_joinedAt := now;
                p_status := "connected" |}]) session) in
  (nextCallOk st →
     JsMap.get sessionId (activeSessions r.2) = Some session'
     ∧ (head (tail (faults st)) ≠ Some true →
        r.1 = Ok session' ∧ redis r.2 !! redisKey sessionId = Some session')
     ∧ (head (tail (faults st)) = Some true →
        r.1 = Throw redisError ∧ redis r.2 = redis st))
  ∧ (head (faults st) = Some true →
     r.1 = Throw "Session not found"
     ∧ activeSessions r.2 = activeSessions st ∧ redis r.2 = redis st).
Proof.
  intros Hget Hred r session'. subst r. unfold joinSession. rewrite Hget.
  destruct (getSession_spec sessionId st)
    as (v & st1 & -> & Hm1 & _ & Hf1 & Hr1 & Hv).
  split.
  - intros Hok. destruct Hv as [[_ ->]|[Hko _]]; [|done]. rewrite Hred.
    set (st2 := setActiveSessions _ st1).
    destruct (joinFound_spec sessionId uid socketId now session st2)
      as (r & st' & -> & Hm & _ & _ & Hcase). fold session' in Hm, Hcase.
    simpl. split; [rewrite Hm; apply JsMapFacts.get_set_eq|].
    assert (Hsame : faults st2 = tail (faults st)) by done.
    unfold nextCallOk in Hcase. rewrite Hsame in Hcase. simpl in Hcase.
    rewrite Hr1 in Hcase. split.
    + intros H2. destruct Hcase as [(_ & -> & Hr)|(Hko & _)]; [|done].
      split; [done|]. rewrite Hr. apply lookup_insert_eq.
    + intros H2. by destruct Hcase as [(Hok2 & _)|(_ & -> & Hr)].
  - intros Hko. destruct Hv as [[Hok _]|[_ ->]]; [done|]. done.
Qed.

Lemma joinSession_recovers_from_redis_witness :
  let st0 := (createSession "u1" "voice" "S" 1000 (initial ["stun:a"] [])).2 in
  let st := setActiveSessions [] st0 in
  JsMap.get "S" (activeSessions st) = None
  ∧ is_Some (redis st !! redisKey "S")
  ∧ isOk (joinSession "S" "u2" "c2" 2000 st).1 = true
  ∧ is_Some (JsMap.get "S" (activeSessions (joinSession "S" "u2" "c2" 2000 st).2)).
Proof.
  intros st0 st. split; [reflexivity|]. split; [eexists; reflexivity|].
  destruct (joinSession_recovers_from_redis st "S" _ "u2" "c2" 2000
              eq_refl eq_refl) as [Hok _].
  destruct Hok as (Hm & Hr & _); [unfold nextCallOk; simpl; discriminate|].
  split.
  - destruct Hr as [-> _]; [simpl; discriminate | reflexivity].
  - rewrite Hm. by eexists.
Defined.

(** ** Leaving *)

Lemma entriesOf_filter_same uid (ps : list Participant) :
  length (filter (λ p, p_userId p = uid) (filter (λ p, p_userId p ≠ uid) ps))
  = 0%nat.
Proof.
  induction ps as [|p ps IH]; [done|].
  destruct (decide (p_userId p = uid)) as [Heq|Hne].
  - by rewrite (filter_cons_False (λ p, p_userId p ≠ uid)) by tauto.
  - rewrite (filter_cons_True (λ p, p_userId p ≠ uid)) by done.
    by rewrite (filter_cons_False (λ p, p_userId p = uid)) by done.
Qed.

Lemma entriesOf_filter_other uid u (ps : list Participant) :
  u ≠ uid →
  length (filter (λ p, p_userId p = u) (filter (λ p, p_userId p ≠ uid) ps))
  = length (filter (λ p, p_userId p = u) ps).
Proof.
  intros Hu. induction ps as [|p ps IH]; [done|].
  destruct (decide (p_userId p = uid)) as [Heq|Hne].
  - rewrite (filter_cons_False (λ p, p_userId p ≠ uid)) by tauto.
    by rewrite (filter_cons_False (λ p, p_userId p = u)) by congruence.
  - rewrite (filter_cons_True (λ p, p_userId p ≠ uid)) by done.
    destruct (decide (p_userId p = u)).
    + rewrite !(filter_cons_True (λ p, p_userId p = u)) by done.
      simpl. by rewrite IH.
    + by rewrite !(filter_cons_False (λ p, p_userId p = u)) by done.
Qed.

(** What a [leaveSession] leaves in the map: of the session it was
    called on, and of the others. *)
Lemma leaveSession_map_at st sessionId session uid :
  JsMap.get sessionId (activeSessions st) = Some session →
  JsMap.get sessionId (activeSessions (leaveSession sessionId uid st).2)
    = afterLeave uid session.
Proof.
  intros Hget. unfold afterLeave.
  destruct (filter (λ p, p_userId p ≠ uid) (participants session))
    as [|q qs] eqn:Hps.
  - rewrite (leaveSession_last _ _ _ _ Hget Hps).
    set (st0 := setActiveSessions _ st).
    destruct (deleteSession_spec sessionId st0) as (Hm & _). simpl.
    rewrite Hm. simpl. apply JsMapFacts.get_delete_eq.
  - assert (Hq : filter (λ p, p_userId p ≠ uid) (participants session) ≠ [])
      by (by rewrite Hps).
    destruct (leaveSession_remaining _ _ _ _ Hget Hq)
      as (r & st' & -> & Hm & _). simpl.
    rewrite Hm, JsMapFacts.get_set_eq. by rewrite Hps.
Qed.

Lemma leaveSession_map_other st sessionId uid k :
  k ≠ sessionId →
  JsMap.get k (activeSessions (leaveSession sessionId uid st).2)
    = JsMap.get k (activeSessions st).
Proof.
  intros Hne.
  destruct (JsMap.get sessionId (activeSessions st)) as [session|] eqn:Hget.
  2:{ by rewrite leaveSession_absent. }
  destruct (filter (λ p, p_userId p ≠ uid) (participants session))
    as [|q qs] eqn:Hps.
  - rewrite (leaveSession_last _ _ _ _ Hget Hps).
    set (st0 := setActiveSessions _ st).
    destruct (deleteSession_spec sessionId st0) as (Hm & _). simpl.
    rewrite Hm. simpl. by apply JsMapFacts.get_delete_ne.
  - assert (Hq : filter (λ p, p_userId p ≠ uid) (participants session) ≠ [])
      by (by rewrite Hps).
    destruct (leaveSession_remaining _ _ _ _ Hget Hq)
      as (r & st' & -> & Hm & _). simpl.
    rewrite Hm. by apply JsMapFacts.get_set_ne.
Qed.

(** X2: [leaveSession] removes every entry of the user at once and no
    entry of anyone else.  After the call the session is gone from the map
    exactly when all its participants were entries of that user;
    otherwise the map holds it with none of the user's entries left and
    the entries of all other users in their order. *)
Theorem leaveSession_clears_user st sessionId session uid :
  JsMap.get sessionId (activeSessions st) = Some session →
  match JsMap.get sessionId (activeSessions (leaveSession sessionId uid st).2) with
  | None => ∀ p, p ∈ participants session → p_userId p = uid
  | Some session' =>
      participants session' =
        filter (λ p, p_userId p ≠ uid) (participants session)
      ∧ participants session' ≠ []
      ∧ entriesOf uid session' = 0%nat
      ∧ (∀ u, u ≠ uid → entriesOf u session' = entriesOf u session)
  end.
Proof.
  intros Hget. rewrite (leaveSession_map_at _ _ _ _ Hget). unfold afterLeave.
  destruct (filter (λ p, p_userId p ≠ uid) (participants session))
    as [|q qs] eqn:Hps.
  - intros p Hp. destruct (decide (p_userId p = uid)) as [|Hne]; [done|].
    exfalso. apply (filter_nil_not_elem_of _ _ p Hps Hne Hp).
  - unfold entriesOf. simpl. rewrite <- Hps.
    split; [done|]. split; [by rewrite Hps|]. split.
    + apply entriesOf_filter_same.
    + intros u Hu. by apply entriesOf_filter_other.
Qed.

Lemma leaveSession_clears_user_witness :
  let st0 := (createSession "u1" "voice" "S" 1000 (initial ["stun:a"] [])).2 in
  let st1 := (joinSession "S" "u1" "c1" 2000 st0).2 in
  let st2 := (joinSession "S" "u2" "c2" 3000 st1).2 in
  let st3 := (joinSession "S" "u1" "c3" 4000 st2).2 in
  ∃ session session',
    JsMap.get "S" (activeSessions st3) = Some session
    ∧ entriesOf "u1" session = 2%nat
    ∧ JsMap.get "S" (activeSessions (leaveSession "S" "u1" st3).2) = Some session'
    ∧ entriesOf "u1" session' = 0%nat
    ∧ entriesOf "u2" session' = 1%nat.
Proof.
  intros st0 st1 st2 st3. eexists _, _.
  split; [reflexivity|]. split; [reflexivity|].
  pose proof (leaveSession_clears_user st3 "S" _ "u1" eq_refl) as H.
  destruct (JsMap.get "S" (activeSessions (leaveSession "S" "u1" st3).2))
    as [session'|] eqn:E; [|discriminate E].
  destruct H as (_ & _ & H1 & H2).
  injection E as <-. split; [reflexivity|]. split; [exact H1|].
  rewrite (H2 "u2") by discriminate. reflexivity.
Defined.

(** ** The Redis wrappers *)

(** X3: what [storeSession] wrote, [getSession] reads back, and the
    entries of other sessions are not disturbed: after a write of
    [session] under [sessionId], a read of [sessionId'] gives [session]
    when the identifiers are equal and what Redis held before otherwise
    (both calls reaching Redis).  And after a [deleteSession] that
    reached Redis, a read gives [null]. *)
Theorem storeSession_getSession_roundtrip st sessionId session sessionId' :
  nextCallOk st →
  head (tail (faults st)) ≠ Some true →
  (getSession sessionId' (storeSession sessionId session st).2).1
    = (if decide (sessionId' = sessionId) then Some session
       else redis st !! redisKey sessionId')
  ∧ (getSession sessionId (deleteSession sessionId st)).1 = None.
Proof.
  intros Hok1 Hok2. split.
  - destruct (storeSession_spec sessionId session st)
      as (r & st1 & -> & _ & _ & Hf & [(_ & _ & Hr)|(Hko & _)]); [|done].
    simpl.
    destruct (getSession_spec sessionId' st1)
      as (v & st2 & -> & _ & _ & _ & _ & [[_ ->]|[Hko _]]).
    + simpl. rewrite Hr. case_decide as Hd.
      * subst. apply lookup_insert_eq.
      * apply lookup_insert_ne. intros Heq. by apply redisKey_inj in Heq.
    + simpl in Hko. by rewrite Hf in Hko.
  - destruct (deleteSession_spec sessionId st)
      as (_ & _ & Hf & [[_ Hr]|[Hko _]]); [|done].
    destruct (getSession_spec sessionId (deleteSession sessionId st))
      as (v & st2 & -> & _ & _ & _ & _ & [[_ ->]|[Hko _]]).
    + simpl. rewrite Hr. apply lookup_delete_eq.
    + by rewrite Hf in Hko.
Qed.

Lemma storeSession_getSession_roundtrip_witness :
  let st := initial ["stun:a"] [] in
  let s := {| id := "S"; userId := "u1"; type := "voice"; status := "created";
              createdAt := 1000; participants := [];
              iceConfiguration := ["stun:a"] |} in
  (getSession "S" (storeSession "S" s st).2).1 = Some s
  ∧ (getSession "T" (storeSession "S" s st).2).1 = None.
Proof.
  intros st s.
  assert (H1 : nextCallOk st) by (unfold nextCallOk; simpl; discriminate).
  assert (H2 : head (tail (faults st)) ≠ Some true) by (simpl; discriminate).
  split.
  - by destruct (storeSession_getSession_roundtrip st "S" s "S" H1 H2) as [-> _].
  - by destruct (storeSession_getSession_roundtrip st "S" s "T" H1 H2) as [-> _].
Defined.

(** X4: [deleteSession] deletes from Redis only.  A session of the
    in-process map is still there afterwards, [getSessionInfo] still
    returns it, and the next [joinSession] writes it, with the new
    participant, into Redis again. *)
Theorem deleteSession_keeps_process_copy st sessionId session uid socketId now :
  JsMap.get sessionId (activeSessions st) = Some session →
  let st1 := deleteSession sessionId st in
  let r := joinSession sessionId uid socketId now st1 in
  let session' :=
    setStatus "active"
      (setParticipants
         (participants session ++
            [{| p_userId := uid; p_socketId := socketId; p_joinedAt := now;
                p_status := "connected" |}]) session) in
  activeSessions st1 = activeSessions st
  ∧ getSessionInfo sessionId st1 = Ok session
  ∧ (noFaults st →
     redis st1 !! redisKey sessionId = None
     ∧ r.1 = Ok session'
     ∧ redis r.2 !! redisKey sessionId = Some session').
Proof.
  intros Hget st1 r session'.
  destruct (deleteSession_spec sessionId st) as (Hm & _ & Hf & Hr).
  fold st1 in Hm, Hf, Hr.
  split; [done|]. split.
  { unfold getSessionInfo. by rewrite Hm, Hget. }
  intros Hnf. destruct Hr as [[_ Hr]|[Hko _]];
    [|by apply noFaults_next in Hnf].
  split; [rewrite Hr; apply lookup_delete_eq|].
  subst r. unfold joinSession. rewrite Hm, Hget.
  destruct (joinFound_spec sessionId uid socketId now session st1)
    as (r & st' & -> & _ & _ & _ & Hcase). fold session' in Hcase.
  pose proof (noFaults_next _ (noFaults_tail _ _ Hf Hnf)) as Hok1.
  destruct Hcase as [(_ & -> & Hr')|(Hko & _)]; [|done].
  simpl. split; [done|]. rewrite Hr'. apply lookup_insert_eq.
Qed.

Lemma deleteSession_keeps_process_copy_witness :
  let st := (createSession "u1" "voice" "S" 1000 (initial ["stun:a"] [])).2 in
  let st1 := deleteSession "S" st in
  is_Some (JsMap.get "S" (activeSessions st))
  ∧ redis st1 !! redisKey "S" = None
  ∧ isOk (getSessionInfo "S" st1) = true
  ∧ is_Some (redis (joinSession "S" "u1" "c1" 2000 st1).2 !! redisKey "S").
Proof.
  intros st st1. split; [eexists; reflexivity|].
  destruct (deleteSession_keeps_process_copy st "S" _ "u1" "c1" 2000 eq_refl)
    as (_ & Hinfo & H).
  destruct H as (Hgone & _ & Hback); [constructor|].
  split; [exact Hgone|]. split.
  - fold st1 in Hinfo. by rewrite Hinfo.
  - fold st1 in Hback. rewrite Hback. by eexists.
Defined.

(** ** Signaling and membership *)

Lemma find_participant uid (ps : list Participant) :
  is_Some (find (λ p, bool_decide (p_userId p = uid)) ps)
  ↔ ∃ p, p ∈ ps ∧ p_userId p = uid.
Proof.
  induction ps as [|q ps IH]; simpl.
  - split; [by intros [? ?] | intros (p & Hp & _); by apply elem_of_nil in Hp].
  - case_bool_decide as Hq.
    + split; [|by eexists]. intros _. exists q. split; [left | done].
    + rewrite IH. split.
      * intros (p & Hp & Hu). exists p. split; [by right | done].
      * intros (p & Hp & Hu). apply elem_of_cons in Hp as [->|Hp]; [done|].
        by exists p.
Qed.

Lemma handleSignaling_isOk st sessionId uid ty data now :
  isOk (handleSignaling sessionId uid (Some (ty, data)) now st) = true
  ↔ ∃ session, JsMap.get sessionId (activeSessions st) = Some session
               ∧ isParticipant uid session.
Proof.
  unfold handleSignaling, isParticipant.
  destruct (JsMap.get sessionId (activeSessions st)) as [session|].
  - pose proof (find_participant uid (participants session)) as Hfind.
    destruct (find _ (participants session)) as [p|]; simpl.
    + split; [|done]. intros _. exists session. split; [done|].
      apply Hfind. by eexists.
    + split; [done|]. intros (s & [= <-] & Hp). apply Hfind in Hp.
      by destruct Hp.
  - simpl. split; [done|]. by intros (s & ? & _).
Qed.

(** X5: [handleSignaling] is the one method of the service that checks
    membership: for a defined payload it returns the message exactly when
    the session is in the in-process map and the user has a participant
    entry in it; an unknown session is reported before a missing
    participant. *)
Theorem handleSignaling_accepts_exactly_participants
    st sessionId uid ty data now :
  (isOk (handleSignaling sessionId uid (Some (ty, data)) now st) = true
   ↔ ∃ session, JsMap.get sessionId (activeSessions st) = Some session
                ∧ isParticipant uid session)
  ∧ (JsMap.get sessionId (activeSessions st) = None →
     handleSignaling sessionId uid (Some (ty, data)) now st
       = Throw "Session not found")
  ∧ (∀ session, JsMap.get sessionId (activeSessions st) = Some session →
       ¬ isParticipant uid session →
       handleSignaling sessionId uid (Some (ty, data)) now st
         = Throw "Participant not found in session").
Proof.
  split; [apply handleSignaling_isOk|]. unfold handleSignaling. split.
  - by intros ->.
  - intros session -> Hnot.
    pose proof (find_participant uid (participants session)) as Hfind.
    destruct (find _ (participants session)) as [p|]; [|done].
    exfalso. apply Hnot, Hfind. by eexists.
Qed.

(** X6: membership follows the joins and leaves of the process.  Right
    after [joinSession] found the session in the map, [handleSignaling]
    accepts the user, even when the write-through of the join threw; right
    after [leaveSession], whatever its outcome, it refuses the user. *)
Theorem handleSignaling_follows_join_and_leave
    st sessionId uid socketId ty data now now' :
  (is_Some (JsMap.get sessionId (activeSessions st)) →
   isOk (handleSignaling sessionId uid (Some (ty, data)) now'
           (joinSession sessionId uid socketId now st).2) = true)
  ∧ isOk (handleSignaling sessionId uid (Some (ty, data)) now'
            (leaveSession sessionId uid st).2) = false.
Proof.
  split.
  - intros [session Hget].
    apply handleSignaling_isOk.
    unfold joinSession. rewrite Hget.
    destruct (joinFound_spec sessionId uid socketId now session st)
      as (r & st' & -> & Hm & _). simpl. eexists. split.
    + rewrite Hm. apply JsMapFacts.get_set_eq.
    + exists {| p_userId := uid; p_socketId := socketId; p_joinedAt := now;
                p_status := "connected" |}.
      split; [|done]. simpl. apply elem_of_app. right. apply list_elem_of_here.
  - apply not_true_is_false. intros Hok.
    apply handleSignaling_isOk in Hok
      as (session' & Hget' & p & Hp & Hu).
    destruct (JsMap.get sessionId (activeSessions st)) as [session|] eqn:Hget.
    + rewrite (leaveSession_map_at _ _ _ _ Hget) in Hget'.
      unfold afterLeave in Hget'.
      destruct (filter (λ p, p_userId p ≠ uid) (participants session))
        as [|q qs] eqn:Hps; [done|].
      injection Hget' as <-. simpl in Hp. rewrite <- Hps in Hp.
      apply list_elem_of_filter in Hp as [Hne _]. done.
    + rewrite leaveSession_absent in Hget' by done. simpl in Hget'. congruence.
Qed.

Lemma handleSignaling_follows_join_and_leave_witness :
  let st := (createSession "u1" "voice" "S" 1000 (initial ["stun:a"] [true; true])).2 in
  is_Some (JsMap.get "S" (activeSessions st))
  ∧ (joinSession "S" "u2" "c2" 2000 st).1 = Throw redisError
  ∧ isOk (handleSignaling "S" "u2" (Some (JStr "offer", JStr "v=0")) 3000
            (joinSession "S" "u2" "c2" 2000 st).2) = true.
Proof.
  intros st. split; [eexists; reflexivity|]. split; [reflexivity|].
  apply (handleSignaling_follows_join_and_leave st "S" "u2" "c2").
  eexists; reflexivity.
Defined.

Lemma handleSignaling_accepts_exactly_participants_witness :
  let st0 := (createSession "u1" "voice" "S" 1000 (initial ["stun:a"] [])).2 in
  let st := (joinSession "S" "u1" "c1" 2000 st0).2 in
  isOk (handleSignaling "S" "u1" (Some (JStr "offer", JStr "v=0")) 3000 st) = true
  ∧ handleSignaling "S" "u3" (Some (JStr "offer", JStr "v=0")) 3000 st
    = Throw "Participant not found in session"
  ∧ handleSignaling "T" "u1" (Some (JStr "offer", JStr "v=0")) 3000 st
    = Throw "Session not found".
Proof.
  intros st0 st.
  pose (p1 := {| p_userId := "u1"; p_socketId := "c1"; p_joinedAt := 2000;
                 p_status := "connected" |}).
  split; [|split].
  - apply (handleSignaling_accepts_exactly_participants st "S" "u1").
    eexists. split; [reflexivity|]. exists p1. split; [left | done].
  - destruct (handleSignaling_accepts_exactly_participants st "S" "u3"
                (JStr "offer") (JStr "v=0") 3000) as (_ & _ & H).
    apply (H _ eq_refl). intros (p & Hp & Hu). simpl in Hp.
    apply elem_of_cons in Hp as [->|Hp]; [discriminate Hu|].
    by apply elem_of_nil in Hp.
  - destruct (handleSignaling_accepts_exactly_participants st "T" "u1"
                (JStr "offer") (JStr "v=0") 3000) as (_ & H & _).
    apply H. reflexivity.
Defined.

(** ** The sweep, again *)

Lemma sweep_nothing_expired now entries :
  ∀ st, (∀ e, e ∈ entries → expired now e.2 = false) →
        sweep entries now st = st.
Proof.
  induction entries as [|[k s] entries IH]; intros st Hall; simpl; [done|].
  pose proof (Hall (k, s) (list_elem_of_here _ _)) as Hks. simpl in Hks.
  rewrite Hks. apply IH. intros e He. apply Hall. by right.
Qed.

Lemma cleanup_entries_not_expired now st e :
  e ∈ activeSessions (cleanupExpiredSessions now st) →
  e ∈ activeSessions st ∧ expired now e.2 = false.
Proof.
  unfold cleanupExpiredSessions. rewrite sweep_activeSessions.
  intros He. apply list_elem_of_filter in He as [Hk He]. split; [done|].
  apply not_true_is_false. intros Hexp. apply Hk.
  apply list_elem_of_fmap. exists e. split; [done|].
  apply list_elem_of_filter. split; [by apply Is_true_true | done].
Qed.

(** X7: after [cleanupExpiredSessions] at time [now],
    [getAllActiveSessions] lists no session created more than an hour
    before [now], and a further sweep at that time or at any earlier time
    does nothing at all: it changes no tier and makes no Redis call. *)
Theorem cleanupExpiredSessions_is_stable now st :
  let st' := cleanupExpiredSessions now st in
  (∀ s, s ∈ getAllActiveSessions st' → createdAt s >= now - 3600000)
  ∧ (∀ now', now' <= now → cleanupExpiredSessions now' st' = st').
Proof.
  intros st'. split.
  - intros s Hs. unfold getAllActiveSessions, JsMap.values in Hs.
    apply list_elem_of_fmap in Hs as (e & -> & He).
    apply cleanup_entries_not_expired in He as [_ He].
    unfold expired in He. apply Z.ltb_ge in He. lia.
  - intros now' Hle. unfold cleanupExpiredSessions at 1.
    apply sweep_nothing_expired. intros e He.
    apply cleanup_entries_not_expired in He as [_ He].
    unfold expired in *. apply Z.ltb_ge in He. apply Z.ltb_ge. lia.
Qed.

Lemma cleanupExpiredSessions_is_stable_witness :
  let st0 := (createSession "u1" "voice" "old" 0 (initial ["stun:a"] [])).2 in
  let st1 := (createSession "u2" "voice" "new" 7000000 st0).2 in
  let st' := cleanupExpiredSessions 7200000 st1 in
  7100000 <= 7200000
  ∧ cleanupExpiredSessions 7100000 st' = st'.
Proof.
  intros st0 st1 st'. split; [lia|].
  destruct (cleanupExpiredSessions_is_stable 7200000 st1) as [_ H].
  apply H. lia.
Defined.

(** ** What every state of a run looks like *)

Lemma run_storeInv E C ops :
  ∀ st,
    storeInv E C (activeSessions st) (redis st) →
    (∀ u, u ∈ createdIds ops → C u ∧ ¬ E u) →
    ∀ o, o ∈ run ops st → storeInv E C (activeSessions o.2) (redis o.2).
Proof.
  induction ops as [|[now op] ops IH]; intros st Hinv Hnew o Ho.
  - by apply elem_of_nil in Ho.
  - rewrite createdIds_cons in Hnew. simpl in Ho.
    destruct (step_storeInv E C now op st Hinv) as (Hinv' & _).
    { intros u Hu. apply Hnew, elem_of_app. by left. }
    apply elem_of_cons in Ho as [->|Ho]; [done|].
    apply (IH _ Hinv'); [|done].
    intros u Hu. apply Hnew, elem_of_app. by right.
Qed.

(** X8: take a fresh process against a Redis that holds only what the
    service wrote there before (each session under its own key, none
    ended).  In every state it reaches by operations whose session
    identifiers are strings, whatever these operations, the Redis faults
    and the keys that expire in between, [getAllActiveSessions] lists
    each session once (no two of its sessions share an id), lists no
    ended session, and [getSessionInfo] on the id of a listed session
    returns that very session. *)
Theorem getAllActiveSessions_lists_each_session_once st0 ops :
  activeSessions st0 = [] →
  (∀ key s, redis st0 !! key = Some s →
            key = redisKey (id s) ∧ status s ≠ "ended") →
  ∀ o, o ∈ run ops st0 →
    NoDup (id <$> getAllActiveSessions o.2)
    ∧ (∀ s, s ∈ getAllActiveSessions o.2 →
            getSessionInfo (id s) o.2 = Ok s ∧ status s ≠ "ended").
Proof.
  intros Hmap Hredis o Ho.
  assert (Hinv : storeInv (λ _, False) (λ _, True)
                   (activeSessions o.2) (redis o.2)).
  { apply (run_storeInv _ _ ops st0); [|by intros; tauto|done].
    apply storeInv_start; [done|].
    intros key s Hget. by destruct (Hredis _ _ Hget). }
  destruct Hinv as (Hwf & Hm & _).
  assert (Hentry : ∀ e, e ∈ activeSessions o.2 →
            id e.2 = e.1 ∧ status e.2 ≠ "ended"
            ∧ JsMap.get e.1 (activeSessions o.2) = Some e.2).
  { intros [k s] He. simpl.
    pose proof (JsMapFacts.elem_of_get _ _ _ Hwf He) as Hget.
    destruct (Hm _ _ Hget) as (? & ? & _). done. }
  unfold getAllActiveSessions, JsMap.values. split.
  - replace (id <$> (activeSessions o.2).*2) with (JsMap.keys (activeSessions o.2));
      [exact Hwf|].
    unfold JsMap.keys. rewrite <- list_fmap_compose.
    apply list_fmap_ext. intros i e Hi. simpl.
    symmetry. apply Hentry. by apply list_elem_of_lookup_2 in Hi.
  - intros s Hs. apply list_elem_of_fmap in Hs as (e & -> & He).
    destruct (Hentry e He) as (Hid & Hst & Hget).
    split; [|done]. unfold getSessionInfo. by rewrite Hid, Hget.
Qed.

Lemma getAllActiveSessions_lists_each_session_once_witness :
  let ops := [(1000, OpCreate "u1" "voice" "S"); (2000, OpJoin "S" "u1" "c1");
              (3000, OpCreate "u2" "voice" "T")] in
  let st0 := initial ["stun:a"] [false; true; true] in
  ∃ o, run ops st0 !! 2%nat = Some o
       ∧ NoDup (id <$> getAllActiveSessions o.2)
       ∧ length (getAllActiveSessions o.2) = 2%nat.
Proof.
  intros ops st0.
  pose (o := nth 2 (run ops st0) (Throw "", st0)).
  exists o. split; [reflexivity|]. split; [|reflexivity].
  apply (getAllActiveSessions_lists_each_session_once st0 ops eq_refl).
  - intros key s H. simpl in H. by rewrite lookup_empty in H.
  - apply list_elem_of_lookup. by exists 2%nat.
Defined.

(** * Further properties of the Twilio service *)

(** ** Objects built with a spread *)

Section spread_facts.
Context {V : Type}.
Implicit Types (t s : list (string * V)) (k : string) (v : V).

Lemma get_cons_None k k' v s :
  JsMap.get k ((k', v) :: s) = None → k ≠ k' ∧ JsMap.get k s = None.
Proof.
  simpl. destruct (String.eqb_spec k k'); [done|]. by intros ->.
Qed.

Lemma not_key_get_None k s : k ∉ JsMap.keys s → JsMap.get k s = None.
Proof.
  unfold JsMap.keys. induction s as [|[k' v'] s IH]; csimpl; [done|].
  rewrite not_elem_of_cons. intros [Hne Hk].
  destruct (String.eqb_spec k k'); [done | by apply IH].
Qed.

Lemma objectSpread_cons t k v s :
  objectSpread t ((k, v) :: s) = objectSpread (JsMap.set k v t) s.
Proof. done. Qed.

(** A property the source does not have keeps what the target had. *)
Lemma get_objectSpread_absent s :
  ∀ t k, JsMap.get k s = None →
         JsMap.get k (objectSpread t s) = JsMap.get k t.
Proof.
  induction s as [|[k' v'] s IH]; intros t k Hk; [done|].
  apply get_cons_None in Hk as [Hne Hk]. rewrite objectSpread_cons.
  rewrite IH by done. by apply JsMapFacts.get_set_ne.
Qed.

(** A property of the source wins over the target. *)
Lemma get_objectSpread_present s :
  ∀ t k v, JsMap.wf s → JsMap.get k s = Some v →
           JsMap.get k (objectSpread t s) = Some v.
Proof.
  unfold JsMap.wf, JsMap.keys.
  induction s as [|[k' v'] s IH]; intros t k v Hwf Hk; [done|].
  csimpl in Hwf. apply NoDup_cons in Hwf as [Hk' Hwf].
  rewrite objectSpread_cons. simpl in Hk.
  destruct (String.eqb_spec k k') as [->|Hne].
  - injection Hk as ->.
    rewrite (get_objectSpread_absent s) by (by apply not_key_get_None).
    apply JsMapFacts.get_set_eq.
  - by apply IH.
Qed.

(** The spread keeps the properties of the target where they stand. *)
Lemma keys_objectSpread s :
  ∀ t, take (length t) (JsMap.keys (objectSpread t s)) = JsMap.keys t.
Proof.
  induction s as [|[k' v'] s IH]; intros t.
  - unfold JsMap.keys. simpl. by rewrite <- (length_fmap fst), firstn_all.
  - rewrite objectSpread_cons.
    pose proof (IH (JsMap.set k' v' t)) as H.
    pose proof (JsMapFacts.keys_set t k' v') as Hset.
    destruct (JsMap.get k' t).
    + assert (Hlen : length (JsMap.set k' v' t) = length t).
      { rewrite <- !(length_fmap fst). unfold JsMap.keys in Hset.
        by rewrite Hset. }
      rewrite Hlen in H. by rewrite H.
    + assert (Hlen : length (JsMap.set k' v' t) = S (length t)).
      { rewrite <- !(length_fmap fst). unfold JsMap.keys in Hset.
        rewrite Hset, length_app. simpl. lia. }
      rewrite Hlen, Hset in H.
      apply (f_equal (take (length t))) in H.
      rewrite take_take, Nat.min_l in H by lia. rewrite H.
      unfold JsMap.keys. by rewrite take_app_length'
        by (by rewrite length_fmap).
Qed.
End spread_facts.

(** ** WhatsApp numbers *)

Lemma prefix_app p r : String.prefix p (p +:+ r) = true.
Proof.
  induction p as [|c p IH]; simpl.
  - by destruct r.
  - by destruct (Ascii.ascii_dec c c).
Qed.

Lemma prefix_split p :
  ∀ s, String.prefix p s = true → s = p +:+ dropChars (String.length p) s.
Proof.
  induction p as [|c p IH]; intros s Hp; [done|].
  destruct s as [|c' s]; [done|]. simpl in Hp.
  destruct (Ascii.ascii_dec c c') as [<-|]; [|done].
  change (String c s = String c (p +:+ dropChars (String.length p) s)).
  f_equal. by apply IH.
Qed.

Lemma replaceFirst_unfold p r s :
  replaceFirst p r s =
    if String.prefix p s then r +:+ dropChars (String.length p) s
    else match s with
         | EmptyString => EmptyString
         | String c s' => String c (replaceFirst p r s')
         end.
Proof. by destruct s. Qed.

Lemma replaceFirst_prefix p r s :
  String.prefix p s = true →
  replaceFirst p r s = r +:+ dropChars (String.length p) s.
Proof. intros Hp. by rewrite replaceFirst_unfold, Hp. Qed.

Lemma replaceFirst_absent p r s :
  ¬ occursIn p s → replaceFirst p r s = s.
Proof.
  induction s as [|c s IH]; intros Hno; rewrite replaceFirst_unfold.
  - destruct (String.prefix p "") eqn:Hp; [|done].
    exfalso. apply Hno. exists "", (dropChars (String.length p) "").
    by apply prefix_split.
  - destruct (String.prefix p (String c s)) eqn:Hp.
    + exfalso. apply Hno. exists "", (dropChars (String.length p) (String c s)).
      by apply prefix_split.
    + f_equal. apply IH. intros (before & after & ->). apply Hno.
      by exists (String c before), after.
Qed.

(** X9: the number [validateWhatsAppNumber] returns always carries the
    [whatsapp:] prefix, and validating it again returns it unchanged.
    For an input that carries the prefix, or in which [whatsapp:] does
    not occur at all, [number] is [whatsapp:] followed by [formatted];
    in the first case [number] is the input, in the second [formatted]
    is. *)
Theorem validateWhatsAppNumber_number_and_formatted phoneNumber :
  let v := validateWhatsAppNumber phoneNumber in
  valid v = true
  ∧ String.prefix "whatsapp:" (v_number v) = true
  ∧ v_number (validateWhatsAppNumber (v_number v)) = v_number v
  ∧ (String.prefix "whatsapp:" phoneNumber = true →
     v_number v = phoneNumber ∧ phoneNumber = "whatsapp:" +:+ formatted v)
  ∧ (¬ occursIn "whatsapp:" phoneNumber →
     formatted v = phoneNumber ∧ v_number v = "whatsapp:" +:+ phoneNumber).
Proof.
  intros v. subst v. unfold validateWhatsAppNumber, whatsappAddress. simpl.
  split; [done|].
  assert (Hpre : String.prefix "whatsapp:"
                   (if String.prefix "whatsapp:" phoneNumber then phoneNumber
                    else "whatsapp:" +:+ phoneNumber) = true).
  { destruct (String.prefix "whatsapp:" phoneNumber) eqn:Hp; [done|].
    apply prefix_app. }
  split; [exact Hpre|]. split; [by rewrite Hpre|]. split.
  - intros Hp. rewrite Hp. split; [done|].
    rewrite (replaceFirst_prefix _ _ _ Hp). by apply prefix_split in Hp.
  - intros Hno. split; [by apply replaceFirst_absent|].
    destruct (String.prefix "whatsapp:" phoneNumber) eqn:Hp; [|done].
    exfalso. apply Hno. exists "", (dropChars 9 phoneNumber).
    by apply prefix_split in Hp.
Qed.

Lemma validateWhatsAppNumber_number_and_formatted_witness :
  String.prefix "whatsapp:" "whatsapp:+1987654321" = true
  ∧ v_number (validateWhatsAppNumber "whatsapp:+1987654321")
    = "whatsapp:+1987654321"
  ∧ formatted (validateWhatsAppNumber "whatsapp:+1987654321") = "+1987654321".
Proof.
  split; [reflexivity|].
  destruct (validateWhatsAppNumber_number_and_formatted "whatsapp:+1987654321")
    as (_ & _ & _ & H & _).
  destruct (H eq_refl) as [H1 _]. split; [exact H1 | reflexivity].
Defined.

(** ** Calls and messages *)

Lemma whatsappAddress_prefixed n :
  String.prefix "whatsapp:" (whatsappAddress n) = true.
Proof.
  unfold whatsappAddress.
  destruct (String.prefix "whatsapp:" n) eqn:Hp; [done | apply prefix_app].
Qed.

(** X10: [initiateWhatsAppCall] asks the provider for a call whose [to]
    is the number with the [whatsapp:] prefix, unless the caller's
    options carry a [to] of their own, which then replaces it.  When the
    provider accepts, the result carries the prefixed number and the sid
    and status of the call; when it refuses with a message, the method
    throws [WhatsApp call initiation failed: ] followed by that
    message. *)
Theorem initiateWhatsAppCall_normalises_and_wraps
    (callsCreateWith : list (string * CallOption) → Result Call)
    svc toNumber fromNumber options uuid now :
  let to' := whatsappAddress toNumber in
  let from' := orDefault fromNumber (ofField (whatsappNumber svc)) in
  let request := callOptions svc to' from' (default [] options) in
  (JsMap.get "to" (default [] options) = None →
   JsMap.get "to" request = Some (Scalar (JStr to')))
  ∧ (∀ v, JsMap.wf (default [] options) →
          JsMap.get "to" (default [] options) = Some v →
          JsMap.get "to" request = Some v)
  ∧ match initiateWhatsAppCall callsCreateWith svc toNumber fromNumber
            options uuid now with
    | Ok r =>
        ∃ call, callsCreateWith request = Ok call
                ∧ twilioCallSid r = call_sid call
                ∧ callStatus r = call_status call
                ∧ call_to r = to'
                ∧ String.prefix "whatsapp:" (call_to r) = true
                ∧ call_from r = from'
    | Throw m =>
        ∃ e, callsCreateWith request = Throw e
             ∧ m = "WhatsApp call initiation failed: " +:+ e
    end.
Proof.
  intros to' from' request. split; [|split].
  - intros Hno. unfold request, callOptions.
    by rewrite get_objectSpread_absent.
  - intros v Hwf Hv. unfold request, callOptions.
    by apply get_objectSpread_present.
  - unfold initiateWhatsAppCall. fold to' from' request.
    destruct (callsCreateWith request) as [call|e]; [|by exists e].
    exists call. repeat split. apply whatsappAddress_prefixed.
Qed.

Lemma initiateWhatsAppCall_normalises_and_wraps_witness :
  let svc := {| client := refusing ""; whatsappNumber := Some "whatsapp:+1234567890";
                voiceNumber := None; BACKEND_URL := None |} in
  let options := Some [("to", Scalar (JStr "+15550000000"))] in
  JsMap.wf (default [] options)
  ∧ JsMap.get "to"
      (callOptions svc (whatsappAddress "1987654321")
         (orDefault JUndefined (ofField (whatsappNumber svc)))
         (default [] options))
    = Some (Scalar (JStr "+15550000000")).
Proof.
  intros svc options.
  assert (Hwf : JsMap.wf (default [] options)) by apply NoDup_singleton.
  split; [exact Hwf|].
  destruct (initiateWhatsAppCall_normalises_and_wraps (λ _, Throw "down")
              svc "1987654321" JUndefined options "id" 0) as (_ & H & _).
  by apply H.
Defined.

(** X11: [sendWhatsAppMessage] with no options sends exactly [to],
    [from] and [body], with [to] carrying the [whatsapp:] prefix; options
    are spread over these three, so an option named [to] replaces the
    prefixed number and any other option is sent along.  What the
    provider answers, a message or an error, is handed back unchanged. *)
Theorem sendWhatsAppMessage_request
    (messagesCreate : list (string * JsVal) → Result Message)
    svc to_ body options :
  let request := messageOptions svc to_ body (default [] options) in
  sendWhatsAppMessage messagesCreate svc to_ body options
    = messagesCreate request
  ∧ (default [] options = [] →
     request = [ ("to", JStr (whatsappAddress to_));
                 ("from", ofField (whatsappNumber svc));
                 ("body", JStr body) ])
  ∧ (JsMap.get "to" (default [] options) = None →
     ∃ n, JsMap.get "to" request = Some (JStr n)
          ∧ String.prefix "whatsapp:" n = true)
  ∧ (∀ k v, JsMap.wf (default [] options) →
            JsMap.get k (default [] options) = Some v →
            JsMap.get k request = Some v).
Proof.
  intros request. split; [|split; [|split]].
  - unfold sendWhatsAppMessage. fold request.
    by destruct (messagesCreate request).
  - intros Hnil. unfold request, messageOptions. by rewrite Hnil.
  - intros Hno. exists (whatsappAddress to_).
    split; [|apply whatsappAddress_prefixed].
    unfold request, messageOptions. by rewrite get_objectSpread_absent.
  - intros k v Hwf Hk. by apply get_objectSpread_present.
Qed.

Lemma sendWhatsAppMessage_request_witness :
  let svc := {| client := refusing ""; whatsappNumber := Some "whatsapp:+1234567890";
                voiceNumber := None; BACKEND_URL := None |} in
  messageOptions svc "+1987654321" "Test message" []
  = [ ("to", JStr "whatsapp:+1987654321");
      ("from", JStr "whatsapp:+1234567890");
      ("body", JStr "Test message") ].
Proof.
  intros svc.
  destruct (sendWhatsAppMessage_request (λ _, Throw "down") svc
              "+1987654321" "Test message" None) as (_ & H & _).
  exact (H eq_refl).
Defined.

(** ** The requests of a conference call *)

Lemma startLegs_sent svc confSid ps :
  ∀ sent,
    (startLegs svc confSid ps sent).2
    = sent ++ ((λ p, CallsCreate (legParams svc confSid p)) <$> ps).
Proof.
  induction ps as [|p ps IH]; intros sent; simpl.
  - by rewrite app_nil_r.
  - unfold addToConference.
    destruct (calls_create (client svc) sent (legParams svc confSid p));
      specialize (IH (sent ++ [CallsCreate (legParams svc confSid p)]));
      destruct (startLegs svc confSid ps _) as [rs sent2]; simpl in *;
      by rewrite IH, <- app_assoc.
Qed.

(** X12: [createConferenceCall] asks for the conference first and, once
    the provider has created it, for one call per participant, in their
    order and with the parameters of [addToConference], whether or not
    some of these calls are refused: the calls that were accepted have
    been placed even when the method throws.  When the conference itself
    is refused, no call is asked for. *)
Theorem createConferenceCall_requests svc callId ps sent :
  (createConferenceCall svc callId ps sent).2 =
    match conferences_create (client svc) sent (conferenceParams svc callId) with
    | Ok conference =>
        sent ++ ConferencesCreate (conferenceParams svc callId)
             :: ((λ p, CallsCreate (legParams svc (conference_sid conference) p))
                   <$> ps)
    | Throw _ => sent ++ [ConferencesCreate (conferenceParams svc callId)]
    end.
Proof.
  unfold createConferenceCall.
  destruct (conferences_create _ _ _) as [conference|e]; [|done].
  pose proof (startLegs_sent svc (conference_sid conference) ps
                (sent ++ [ConferencesCreate (conferenceParams svc callId)])) as H.
  destruct (startLegs _ _ _ _) as [legs sent2]. simpl in H. subst sent2.
  rewrite <- app_assoc. simpl. by destruct (promiseAll legs).
Qed.

(** ** Attributes of the TwiML verbs *)

(** X13: the options [startOnEnter] cannot switch
    [startConferenceOnEnter] off.  Unless the options carry a property
    named [startConferenceOnEnter] itself, the attribute is the option
    [startOnEnter] when that is truthy and [true] otherwise, so it is
    never falsy; likewise [endConferenceOnExit] is [endOnExit] when
    truthy and [false] otherwise. *)
Theorem startOnEnter_cannot_switch_off options :
  (JsMap.get "startConferenceOnEnter" options = None →
   prop "startConferenceOnEnter" (conferenceAttributes options)
     = jsOr (prop "startOnEnter" options) (JBool true)
   ∧ truthy (prop "startConferenceOnEnter" (conferenceAttributes options)) = true)
  ∧ (JsMap.get "endConferenceOnExit" options = None →
     prop "endConferenceOnExit" (conferenceAttributes options)
       = jsOr (prop "endOnExit" options) (JBool false)).
Proof.
  split.
  - intros Hno. unfold prop at 1 3, conferenceAttributes.
    change spread with (@objectSpread JsVal).
    rewrite get_objectSpread_absent by done. simpl. split; [done|].
    unfold jsOr. by destruct (truthy (prop "startOnEnter" options)) eqn:E.
  - intros Hno. unfold prop at 1, conferenceAttributes.
    change spread with (@objectSpread JsVal).
    by rewrite get_objectSpread_absent.
Qed.

Lemma startOnEnter_cannot_switch_off_witness :
  JsMap.get "startConferenceOnEnter" [("startOnEnter", JBool false)] = None
  ∧ prop "startConferenceOnEnter"
      (conferenceAttributes [("startOnEnter", JBool false)]) = JBool true.
Proof.
  split; [reflexivity|].
  destruct (startOnEnter_cannot_switch_off [("startOnEnter", JBool false)])
    as [H _].
  by destruct (H eq_refl) as [-> _].
Defined.

(** X14: in the attributes of [Conference] every own property of the
    options is present with the value the options give it, falsy values
    included (an option [maxParticipants: 0] gives the attribute [0], not
    the default [10]); the defaults of [waitUrl], [maxParticipants] and
    [record] apply only when the options have no such property.  The
    five attributes the method names come first, in the order it names
    them. *)
Theorem conferenceAttributes_options_win options :
  JsMap.wf options →
  (∀ k v, JsMap.get k options = Some v →
          JsMap.get k (conferenceAttributes options) = Some v)
  ∧ (JsMap.get "waitUrl" options = None →
     prop "waitUrl" (conferenceAttributes options) = JStr "")
  ∧ (JsMap.get "maxParticipants" options = None →
     prop "maxParticipants" (conferenceAttributes options) = JNum 10)
  ∧ (JsMap.get "record" options = None →
     prop "record" (conferenceAttributes options) = JStr "record-from-start")
  ∧ take 5 (JsMap.keys (conferenceAttributes options))
    = ["startConferenceOnEnter"; "endConferenceOnExit"; "waitUrl";
       "maxParticipants"; "record"].
Proof.
  intros Hwf. unfold conferenceAttributes.
  change spread with (@objectSpread JsVal).
  split; [|split; [|split; [|split]]].
  - intros k v Hk. by apply get_objectSpread_present.
  - intros Hno. unfold prop at 1. rewrite get_objectSpread_absent by done.
    simpl. unfold prop. by rewrite Hno.
  - intros Hno. unfold prop at 1. rewrite get_objectSpread_absent by done.
    simpl. unfold prop. by rewrite Hno.
  - intros Hno. unfold prop at 1. rewrite get_objectSpread_absent by done.
    simpl. unfold prop. by rewrite Hno.
  - apply (keys_objectSpread options
             [ ("startConferenceOnEnter", _); ("endConferenceOnExit", _);
               ("waitUrl", _); ("maxParticipants", _); ("record", _) ]).
Qed.

Lemma conferenceAttributes_options_win_witness :
  JsMap.wf [("maxParticipants", JNum 0)]
  ∧ prop "maxParticipants" (conferenceAttributes [("maxParticipants", JNum 0)])
    = JNum 0.
Proof.
  assert (Hwf : JsMap.wf [("maxParticipants", JNum 0)]) by apply NoDup_singleton.
  split; [exact Hwf|].
  destruct (conferenceAttributes_options_win _ Hwf) as [H _].
  unfold prop. by rewrite (H "maxParticipants" (JNum 0)).
Defined.

(** X15: [generateForwardTwiML] says the greeting exactly when the
    option [greeting] is truthy, dials the number it was given, and
    hands every own property of the options to [Dial] with the value the
    options give it (the greeting too, and a [timeout] of [0] as [0]);
    [timeout] and [record] default to [30] and [false] only when the
    options have no such property. *)
Theorem forwardResponse_attributes forwardToNumber options :
  JsMap.wf options →
  let response := forwardResponse forwardToNumber options in
  f_number response = forwardToNumber
  ∧ (f_say response = None ↔ truthy (prop "greeting" options) = false)
  ∧ (∀ g, f_say response = Some g → JsMap.get "greeting" options = Some g)
  ∧ (∀ k v, JsMap.get k options = Some v →
            JsMap.get k (f_dial response) = Some v)
  ∧ (JsMap.get "timeout" options = None →
     JsMap.get "timeout" (f_dial response) = Some (JNum 30))
  ∧ (JsMap.get "record" options = None →
     JsMap.get "record" (f_dial response) = Some (JBool false)).
Proof.
  intros Hwf response. subst response. unfold forwardResponse. simpl.
  change spread with (@objectSpread JsVal).
  split; [done|]. split; [|split; [|split; [|split]]].
  - by destruct (truthy (prop "greeting" options)).
  - intros g. unfold prop.
    destruct (JsMap.get "greeting" options) as [g'|]; simpl.
    + destruct (truthy g'); [by intros [= ->] | done].
    + done.
  - intros k v Hk. by apply get_objectSpread_present.
  - intros Hno. rewrite get_objectSpread_absent by done. simpl.
    unfold prop. by rewrite Hno.
  - intros Hno. rewrite get_objectSpread_absent by done. simpl.
    unfold prop. by rewrite Hno.
Qed.

Lemma forwardResponse_attributes_witness :
  let options := [("greeting", JStr "Hello"); ("timeout", JNum 0)] in
  JsMap.wf options
  ∧ f_say (forwardResponse "+15550000001" options) = Some (JStr "Hello")
  ∧ JsMap.get "timeout" (f_dial (forwardResponse "+15550000001" options))
    = Some (JNum 0)
  ∧ JsMap.get "greeting" (f_dial (forwardResponse "+15550000001" options))
    = Some (JStr "Hello").
Proof.
  intros options.
  assert (Hwf : JsMap.wf options).
  { unfold JsMap.wf. simpl. apply NoDup_cons. split.
    - intros H. apply list_elem_of_singleton in H. discriminate H.
    - apply NoDup_singleton. }
  split; [exact Hwf|].
  destruct (forwardResponse_attributes "+15550000001" options Hwf)
    as (_ & _ & _ & H & _).
  split; [reflexivity|]. split; by apply H.
Defined.

(** * Further properties of the socket handler *)

(** ** Who receives a broadcast *)

Lemma elem_of_othersIn room me w x :
  x ∈ othersIn room me w
  ↔ x ≠ me ∧ ∃ sock, sockets w !! x = Some sock ∧ room ∈ sock_rooms sock.
Proof.
  unfold othersIn. rewrite elem_of_dom. split.
  - intros [sock Hx]. apply map_lookup_filter_Some in Hx as [Hx [Hne Hroom]].
    simpl in *. split; [done|]. by exists sock.
  - intros [Hne (sock & Hx & Hroom)]. exists sock.
    apply map_lookup_filter_Some. done.
Qed.

Lemma othersIn_setService room me st w :
  othersIn room me (setService st w) = othersIn room me w.
Proof. done. Qed.

(** The sender's own socket does not matter to whom it broadcasts. *)
Lemma othersIn_setSocket_me room me sock w :
  othersIn room me (setSocket me sock w) = othersIn room me w.
Proof.
  apply set_eq. intros x. rewrite !elem_of_othersIn. simpl.
  split; intros [Hne (s & Hx & Hroom)]; (split; [done|]); exists s;
    (split; [|done]).
  - by rewrite lookup_insert_ne in Hx.
  - by rewrite lookup_insert_ne.
Qed.

(** X16: an offer, answer or candidate of an authenticated socket, for a
    session of the in-process map, is emitted once, tagged with the
    sender's user id and the server time, to exactly the sockets other
    than the sender that are in the room of the session: never to the
    sender, never to a socket outside the room.  The session service and
    the sockets are left as they were. *)
Theorem signaling_reaches_exactly_the_room
    verifyJWT me sock uid sessionId msg ev p now w :
  sockets w !! me = Some sock →
  authenticatedAs sock = Some uid →
  signalingSession msg = Some sessionId →
  is_Some (JsMap.get sessionId (activeSessions (service w))) →
  forwarded uid now msg = Some (ev, p) →
  let w' := handle verifyJWT me msg now w in
  service w' = service w
  ∧ sockets w' = sockets w
  ∧ ∃ e, outbox w' = outbox w ++ [e]
         ∧ event e = ev ∧ payload e = p
         ∧ ∀ x, x ∈ recipients e
                ↔ x ≠ me
                  ∧ ∃ sock', sockets w !! x = Some sock'
                             ∧ sessionRoom sessionId ∈ sock_rooms sock'.
Proof.
  intros Hsock Hauth Hsid [s Hs] Hfw w'. subst w'.
  assert (Hgoal : ∀ room, room = sessionRoom sessionId →
    let w' := emitTo room me ev p w in
    service w' = service w ∧ sockets w' = sockets w
    ∧ ∃ e, outbox w' = outbox w ++ [e] ∧ event e = ev ∧ payload e = p
           ∧ ∀ x, x ∈ recipients e
                  ↔ x ≠ me ∧ ∃ sock', sockets w !! x = Some sock'
                                      ∧ sessionRoom sessionId ∈ sock_rooms sock').
  { intros room ->. simpl. split; [done|]. split; [done|].
    eexists. split; [done|]. split; [done|]. split; [done|]. simpl.
    intros x. apply elem_of_othersIn. }
  unfold handle. rewrite Hsock.
  destruct msg as [token|sid|sid|sid [sdp|]|sid [sdp|]|sid [c|]|ev0];
    try discriminate Hsid; try discriminate Hfw;
    injection Hsid as ->; injection Hfw as <- <-.
  - unfold onOffer, createOffer. rewrite Hauth, Hs. by apply Hgoal.
  - unfold onAnswer, createAnswer. rewrite Hauth, Hs. by apply Hgoal.
  - unfold onIceCandidate, handleIceCandidate. rewrite Hauth, Hs.
    by apply Hgoal.
Qed.

Lemma signaling_reaches_exactly_the_room_witness :
  let w := handle twoTokens "c" (MsgJoin "S") 1400 relayWithOutsider in
  let w' := handle twoTokens "a" (MsgAnswer "S" (Some (JStr "v=0"))) 1500 w in
  ∃ e, outbox w' = outbox w ++ [e]
       ∧ event e = "webrtc:answer"
       ∧ "c" ∈ recipients e ∧ "a" ∉ recipients e.
Proof.
  intros w w'.
  pose (sockA := {| sock_userId := Some "u1"; sock_hubspotConnected := JBool true;
                    sock_rooms := {["a"; "user:u1"; "session:S"]} |}).
  assert (H1 : sockets w !! "a" = Some sockA) by (vm_compute; reflexivity).
  assert (H2 : authenticatedAs sockA = Some "u1") by reflexivity.
  assert (H3 : is_Some (JsMap.get "S" (activeSessions (service w))))
    by (eexists; vm_compute; reflexivity).
  destruct (signaling_reaches_exactly_the_room twoTokens "a" sockA "u1" "S"
              (MsgAnswer "S" (Some (JStr "v=0"))) "webrtc:answer"
              (PSdp {| m_sessionId := "S"; m_userId := "u1"; m_type := "answer";
                       m_sdp := JStr "v=0"; m_timestamp := 1500 |}) 1500 w
              H1 H2 eq_refl H3 eq_refl)
    as (_ & _ & e & He & Hev & _ & Hrec).
  exists e. split; [exact He|]. split; [exact Hev|]. split.
  - apply Hrec. split; [discriminate|]. eexists. split.
    + vm_compute. reflexivity.
    + vm_compute. reflexivity.
  - intros Ha. apply Hrec in Ha as [Hne _]. done.
Defined.

(** X17: signaling for a session that is not in the in-process map is
    not forwarded, also when Redis holds the session: the three handlers
    never load from Redis.  The sender, being authenticated, gets one
    [webrtc:error] naming the kind of message, and nothing else is
    emitted or changed; the same happens when the message names the
    session but carries no offer, answer or candidate. *)
Theorem signaling_needs_session_in_process verifyJWT me sock uid sessionId msg now w :
  sockets w !! me = Some sock →
  authenticatedAs sock = Some uid →
  signalingSession msg = Some sessionId →
  JsMap.get sessionId (activeSessions (service w)) = None
  ∨ forwarded uid now msg = None →
  handle verifyJWT me msg now w =
    emit me "webrtc:error" (PError (signalingFailure msg)) w.
Proof.
  intros Hsock Hauth Hsid Hwhy. unfold handle. rewrite Hsock.
  destruct msg as [token|sid|sid|sid o|sid o|sid o|ev];
    try discriminate Hsid; injection Hsid as ->.
  - unfold onOffer, createOffer. rewrite Hauth.
    destruct (JsMap.get sessionId _); [|done].
    destruct Hwhy as [?|Hwhy]; [done|]. by destruct o.
  - unfold onAnswer, createAnswer. rewrite Hauth.
    destruct (JsMap.get sessionId _); [|done].
    destruct Hwhy as [?|Hwhy]; [done|]. by destruct o.
  - unfold onIceCandidate, handleIceCandidate. rewrite Hauth.
    destruct (JsMap.get sessionId _); [|done].
    destruct Hwhy as [?|Hwhy]; [done|]. by destruct o.
Qed.

Lemma signaling_needs_session_in_process_witness :
  let w := setService (setActiveSessions [] (service relayWithOutsider))
             relayWithOutsider in
  is_Some (redis (service w) !! redisKey "S")
  ∧ outbox (handle twoTokens "a" (MsgOffer "S" (Some (JStr "v=0"))) 1500 w)
    = outbox w ++ [{| recipients := {["a"]}; event := "webrtc:error";
                      payload := PError "Failed to send offer" |}].
Proof.
  intros w. split; [eexists; vm_compute; reflexivity|].
  pose (sockA := {| sock_userId := Some "u1"; sock_hubspotConnected := JBool true;
                    sock_rooms := {["a"; "user:u1"; "session:S"]} |}).
  assert (H1 : sockets w !! "a" = Some sockA) by (vm_compute; reflexivity).
  assert (H2 : authenticatedAs sockA = Some "u1") by reflexivity.
  by rewrite (signaling_needs_session_in_process twoTokens "a" sockA "u1" "S"
                (MsgOffer "S" (Some (JStr "v=0"))) 1500 w H1 H2 eq_refl
                (or_introl eq_refl)).
Defined.

(** ** Joining over the socket *)

(** X18: a [session:join] whose write-through to Redis fails is
    reported to the joiner as [session:error], and nobody is told of a
    new participant; yet the join took effect in the process: the
    session of the map has the new participant entry and is active, and
    the socket is in the room of the session, where it receives what is
    broadcast there. *)
Theorem failed_join_still_takes_effect
    verifyJWT me sock uid sessionId session now w :
  sockets w !! me = Some sock →
  authenticatedAs sock = Some uid →
  JsMap.get sessionId (activeSessions (service w)) = Some session →
  head (faults (service w)) = Some true →
  let w' := handle verifyJWT me (MsgJoin sessionId) now w in
  outbox w' =
    outbox w ++ [{| recipients := {[me]}; event := "session:error";
                    payload := PError "Failed to join session" |}]
  ∧ sockets w' !! me = Some (joinRoom (sessionRoom sessionId) sock)
  ∧ JsMap.get sessionId (activeSessions (service w')) =
      Some (setStatus "active"
              (setParticipants
                 (participants session ++
                    [{| p_userId := uid; p_socketId := me; p_joinedAt := now;
                        p_status := "connected" |}]) session))
  ∧ redis (service w') = redis (service w).
Proof.
  intros Hsock Hauth Hget Hko w'. subst w'.
  unfold handle, onSessionJoin. rewrite Hsock, Hauth. simpl.
  unfold joinSession. rewrite Hget.
  destruct (joinFound_spec sessionId uid me now session (service w))
    as (r & st' & -> & Hm & _ & _ & [(Hok & _)|(_ & -> & Hr)]); [done|].
  simpl. split; [done|]. split; [apply lookup_insert_eq|].
  split; [|done]. rewrite Hm. apply JsMapFacts.get_set_eq.
Qed.

Lemma failed_join_still_takes_effect_witness :
  let st := setFaults [true] (service relayWithOutsider) in
  let w := setService st relayWithOutsider in
  let w' := handle twoTokens "c" (MsgJoin "S") 1400 w in
  head (faults (service w)) = Some true
  ∧ (∃ e, outbox w' = outbox w ++ [e] ∧ event e = "session:error")
  ∧ (∃ s, JsMap.get "S" (activeSessions (service w')) = Some s
          ∧ length (participants s) = 2%nat).
Proof.
  intros st w w'. split; [reflexivity|].
  pose (sockC := {| sock_userId := Some "u3"; sock_hubspotConnected := JBool true;
                    sock_rooms := {["c"; "user:u3"]} |}).
  assert (H1 : sockets w !! "c" = Some sockC) by (vm_compute; reflexivity).
  destruct (failed_join_still_takes_effect twoTokens "c" sockC "u3" "S" _ 1400 w
              H1 eq_refl eq_refl eq_refl) as (Ho & _ & Hm & _).
  split.
  - eexists. split; [exact Ho | reflexivity].
  - eexists. split; [exact Hm | reflexivity].
Defined.

(** X19: a [session:join] that goes through, for a session of the
    in-process map, emits two events: [participant:joined], to exactly
    the sockets other than the joiner that were in the room of the
    session, and then [session:joined], to the joiner alone, carrying the
    session with the joiner's entry (user id, socket id, time) last. *)
Theorem join_notifies_the_room_and_the_joiner
    verifyJWT me sock uid sessionId session now w :
  sockets w !! me = Some sock →
  authenticatedAs sock = Some uid →
  JsMap.get sessionId (activeSessions (service w)) = Some session →
  nextCallOk (service w) →
  let w' := handle verifyJWT me (MsgJoin sessionId) now w in
  let session' :=
    setStatus "active"
      (setParticipants
         (participants session ++
            [{| p_userId := uid; p_socketId := me; p_joinedAt := now;
                p_status := "connected" |}]) session) in
  outbox w' =
    outbox w ++
    [ {| recipients := othersIn (sessionRoom sessionId) me w;
         event := "participant:joined";
         payload := PParticipant uid sessionId now |};
      {| recipients := {[me]}; event := "session:joined";
         payload := PSession session' |} ]
  ∧ (∀ x, x ∈ othersIn (sessionRoom sessionId) me w
          ↔ x ≠ me ∧ ∃ sock', sockets w !! x = Some sock'
                              ∧ sessionRoom sessionId ∈ sock_rooms sock')
  ∧ sockets w' !! me = Some (joinRoom (sessionRoom sessionId) sock)
  ∧ JsMap.get sessionId (activeSessions (service w')) = Some session'.
Proof.
  intros Hsock Hauth Hget Hok w' session'. subst w'.
  unfold handle, onSessionJoin. rewrite Hsock, Hauth. simpl.
  unfold joinSession. rewrite Hget.
  destruct (joinFound_spec sessionId uid me now session (service w))
    as (r & st' & -> & Hm & _ & _ & [(_ & -> & Hr)|(Hko & _)]); [|done].
  fold session' in Hm |- *. simpl.
  split; [|split; [|split]].
  - rewrite othersIn_setService, othersIn_setSocket_me.
    by rewrite <- app_assoc.
  - intros x. apply elem_of_othersIn.
  - apply lookup_insert_eq.
  - rewrite Hm. apply JsMapFacts.get_set_eq.
Qed.

Lemma join_notifies_the_room_and_the_joiner_witness :
  let w := relayWithOutsider in
  let w' := handle twoTokens "c" (MsgJoin "S") 1400 w in
  nextCallOk (service w)
  ∧ (event <$> drop (length (outbox w)) (outbox w'))
    = ["participant:joined"; "session:joined"]
  ∧ "a" ∈ othersIn (sessionRoom "S") "c" w.
Proof.
  intros w w'. split; [unfold nextCallOk; simpl; discriminate|].
  pose (sockC := {| sock_userId := Some "u3"; sock_hubspotConnected := JBool true;
                    sock_rooms := {["c"; "user:u3"]} |}).
  assert (H1 : sockets w !! "c" = Some sockC) by (vm_compute; reflexivity).
  assert (H2 : nextCallOk (service w)) by (unfold nextCallOk; simpl; discriminate).
  destruct (join_notifies_the_room_and_the_joiner twoTokens "c" sockC "u3" "S"
              _ 1400 w H1 eq_refl eq_refl H2) as (Ho & Hrec & _).
  split.
  - fold w' in Ho. rewrite Ho, drop_app_length. reflexivity.
  - apply Hrec. split; [discriminate|]. eexists. split; vm_compute; reflexivity.
Defined.

(** ** Rooms and identities *)

(** X20: no handler takes a socket out of a room, except [session:leave]
    sent by that very socket, for the room of the session it names.  In
    particular a socket that authenticates again, as another user, stays
    in the room of the user it was before. *)
Theorem handlers_never_drop_rooms verifyJWT me sender msg now w sock room :
  sockets w !! me = Some sock →
  room ∈ sock_rooms sock →
  (∀ sessionId, msg = MsgLeave sessionId → sender = me →
                room ≠ sessionRoom sessionId) →
  ∃ sock', sockets (handle verifyJWT sender msg now w) !! me = Some sock'
           ∧ room ∈ sock_rooms sock'.
Proof.
  intros Hsock Hroom Hleave.
  destruct (decide (me = sender)) as [<-|Hne].
  2:{ exists sock. by rewrite handle_keeps_other_sockets. }
  unfold handle. rewrite Hsock.
  destruct msg as [token|sessionId|sessionId|sessionId offer|sessionId answer
                   |sessionId c|ev]; [| | | | | |destruct ev; by exists sock].
  - unfold onAuthenticate. destruct token as [t|]; [|by exists sock].
    destruct (String.eqb t ""); [by exists sock|].
    destruct (verifyJWT t) as [decoded|]; [|by exists sock].
    eexists. split; [apply lookup_insert_eq|]. simpl.
    apply elem_of_union. by right.
  - unfold onSessionJoin. destruct (authenticatedAs sock); [|by exists sock].
    destruct (joinSession _ _ _ _ _) as [[session|e] st']; simpl;
      (eexists; split; [apply lookup_insert_eq|]); simpl;
      apply elem_of_union; by right.
  - unfold onSessionLeave. destruct (authenticatedAs sock); [|by exists sock].
    specialize (Hleave sessionId eq_refl eq_refl).
    destruct (leaveSession _ _ _) as [[session|e] st']; simpl;
      (eexists; split; [apply lookup_insert_eq|]); simpl;
      apply elem_of_difference; (split; [done|]);
      by rewrite elem_of_singleton.
  - unfold onOffer. destruct (authenticatedAs sock); [|by exists sock].
    destruct (createOffer _ _ _ _ _); by exists sock.
  - unfold onAnswer. destruct (authenticatedAs sock); [|by exists sock].
    destruct (createAnswer _ _ _ _ _); by exists sock.
  - unfold onIceCandidate. destruct (authenticatedAs sock); [|by exists sock].
    destruct (handleIceCandidate _ _ _ _ _); by exists sock.
Qed.

Lemma handlers_never_drop_rooms_witness :
  let w := handle twoTokens "a" (MsgAuthenticate (Some "token-u3")) 1500
             relayWithOutsider in
  ∃ sock, sockets w !! "a" = Some sock
          ∧ sock_userId sock = Some "u3"
          ∧ "user:u1" ∈ sock_rooms sock.
Proof.
  intros w.
  pose (sockA := {| sock_userId := Some "u1"; sock_hubspotConnected := JBool true;
                    sock_rooms := {["a"; "user:u1"; "session:S"]} |}).
  assert (H1 : sockets relayWithOutsider !! "a" = Some sockA)
    by (vm_compute; reflexivity).
  assert (H2 : "user:u1" ∈ sock_rooms sockA).
  { simpl. apply elem_of_union. left. apply elem_of_union. right.
    by apply elem_of_singleton. }
  destruct (handlers_never_drop_rooms twoTokens "a" "a"
              (MsgAuthenticate (Some "token-u3")) 1500 relayWithOutsider
              sockA "user:u1" H1 H2) as (sock' & Hs & Hr); [discriminate|].
  exists sock'. split; [exact Hs|]. split; [|exact Hr].
  fold w in Hs. vm_compute in Hs. injection Hs as <-. reflexivity.
Defined.

(** X21: an [authenticate] with a token the verifier accepts is
    answered [auth:success] and registers the socket as a client under
    the decoded user id, whatever that id is.  The socket counts as
    authenticated afterwards exactly when the decoded token has a
    non-empty [userId]: a valid token without one is answered
    [auth:success] and still leaves every later message refused. *)
Theorem authenticate_binds_decoded_identity
    verifyJWT me sock token decoded now w :
  sockets w !! me = Some sock →
  token ≠ "" →
  verifyJWT token = Some decoded →
  let w' := handle verifyJWT me (MsgAuthenticate (Some token)) now w in
  outbox w' =
    outbox w ++ [{| recipients := {[me]}; event := "auth:success";
                    payload := PAuthSuccess (d_userId decoded) me |}]
  ∧ JsMap.get me (connectedClients w') =
      Some {| c_userId := d_userId decoded; c_socketId := me;
              c_connectedAt := now;
              c_hubspotConnected := d_hubspotConnected decoded |}
  ∧ service w' = service w
  ∧ ∃ sock', sockets w' !! me = Some sock'
      ∧ sock_userId sock' = d_userId decoded
      ∧ sock_rooms sock' =
          {["user:" +:+ tmpl (d_userId decoded)]} ∪ sock_rooms sock
      ∧ (authenticatedAs sock' = None
         ↔ d_userId decoded = None ∨ d_userId decoded = Some "").
Proof.
  intros Hsock Htoken Hverify w'. subst w'.
  unfold handle, onAuthenticate. rewrite Hsock, Hverify.
  destruct (String.eqb_spec token ""); [done|]. simpl.
  split; [done|]. split; [apply JsMapFacts.get_set_eq|]. split; [done|].
  eexists. split; [apply lookup_insert_eq|]. simpl.
  split; [done|]. split; [done|].
  unfold authenticatedAs. simpl.
  destruct (d_userId decoded) as [u|]; [|by split; [left|]].
  destruct (String.eqb_spec u "") as [->|Hu].
  - split; [by right | done].
  - split; [done|]. intros [?|[= ?]]; done.
Qed.

Lemma authenticate_binds_decoded_identity_witness :
  let verify := λ _ : string,
    Some {| d_userId := None; d_hubspotConnected := JBool true |} in
  let w := connect "a" {| service := initial [] []; sockets := ∅;
                          connectedClients := []; outbox := [] |} in
  let w' := handle verify "a" (MsgAuthenticate (Some "t")) 1000 w in
  (∃ e, outbox w' = outbox w ++ [e] ∧ event e = "auth:success")
  ∧ ∃ sock', sockets w' !! "a" = Some sock' ∧ authenticatedAs sock' = None.
Proof.
  intros verify w w'.
  destruct (authenticate_binds_decoded_identity verify "a"
              {| sock_userId := None; sock_hubspotConnected := JUndefined;
                 sock_rooms := {["a"]} |} "t"
              {| d_userId := None; d_hubspotConnected := JBool true |} 1000 w)
    as (Ho & _ & _ & sock' & Hs & _ & _ & Hauth).
  - apply lookup_insert_eq.
  - discriminate.
  - reflexivity.
  - split.
    + eexists. split; [exact Ho | reflexivity].
    + exists sock'. split; [exact Hs|]. apply Hauth. by left.
Defined.

(** ** Disconnection *)








(** X23: a disconnection whose first [leaveSession] fails at its Redis
    write (other participants remain in that session).  The handler stops
    there: the user is already removed from that session in the process
    map, but no notice is emitted, the later sessions of the socket are
    not left, Redis is unchanged, and the client entry of the socket stays
    registered although the socket is gone. *)
Theorem disconnect_failed_leave_keeps_client
    me uid client now w session rest :
  JsMap.get me (connectedClients w) = Some client →
  c_userId client = Some uid →
  sessionsOfSocket me (service w) = session :: rest →
  JsMap.get (id session) (activeSessions (service w)) = Some session →
  filter (λ p, p_userId p ≠ uid) (participants session) ≠ [] →
  head (faults (service w)) = Some true →
  let w' := (onDisconnect me now w).1 in
  (onDisconnect me now w).2 = []
  ∧ JsMap.get me (connectedClients w') = Some client
  ∧ sockets w' !! me = None
  ∧ JsMap.get (id session) (activeSessions (service w'))
    = afterLeave uid session
  ∧ (∀ k, k ≠ id session →
          JsMap.get k (activeSessions (service w'))
          = JsMap.get k (activeSessions (service w)))
  ∧ redis (service w') = redis (service w).
Proof.
  intros Hclient Huid Hss Hget Hps Hfault w'. subst w'.
  pose proof (leaveSession_map_at _ _ _ uid Hget) as Hat.
  pose proof (λ k, leaveSession_map_other (service w) (id session) uid k) as Hoth.
  destruct (leaveSession_remaining _ _ _ _ Hget Hps)
    as (r & st' & Hleave & _ & _ & _ & Hcase).
  destruct Hcase as [(Hok & _)|(_ & -> & Hredis)].
  { unfold nextCallOk in Hok. by rewrite Hfault in Hok. }
  unfold onDisconnect. simpl. rewrite Hclient, Huid, Hss. simpl.
  rewrite Hleave in *. simpl in *.
  repeat split; try done. apply lookup_delete_eq.
Qed.

Lemma disconnect_failed_leave_keeps_client_witness :
  let w0 := handle twoTokens "c" (MsgJoin "S") 1400 relayWithOutsider in
  let w := setService (setFaults [true] (service w0)) w0 in
  let w' := (onDisconnect "a" 1500 w).1 in
  (onDisconnect "a" 1500 w).2 = []
  ∧ c_userId <$> JsMap.get "a" (connectedClients w') = Some (Some "u1")
  ∧ sockets w' !! "a" = None.
Proof.
  intros w0 w w'.
  pose (client := {| c_userId := Some "u1"; c_socketId := "a";
                     c_connectedAt := 1100; c_hubspotConnected := JBool true |}).
  assert (∃ s, sessionsOfSocket "a" (service w) = [s]
               ∧ JsMap.get "S" (activeSessions (service w)) = Some s
               ∧ id s = "S"
               ∧ filter (λ p, p_userId p ≠ "u1") (participants s) ≠ [])
    as (s & Hss & Hget & Hid & Hps).
  { eexists. split; [vm_compute; reflexivity|].
    split; [vm_compute; reflexivity|]. split; [reflexivity|].
    vm_compute. discriminate. }
  rewrite <- Hid in Hget.
  destruct (disconnect_failed_leave_keeps_client
              "a" "u1" client 1500 w s [] eq_refl eq_refl Hss Hget Hps eq_refl)
    as (Hn & Hc & Hk & _).
  split; [exact Hn|]. split; [|exact Hk].
  fold w'. fold w' in Hc. by rewrite Hc.
Defined.

(** ** The client registry *)

Section registry_facts.
Context {V : Type}.
Implicit Types (m : list (string * V)) (k : string) (v : V).

Lemma elem_of_values m v :
  JsMap.wf m → v ∈ JsMap.values m ↔ ∃ k, JsMap.get k m = Some v.
Proof.
  intros Hwf. unfold JsMap.values. rewrite list_elem_of_fmap. split.
  - intros ([k v'] & -> & Hin). exists k. by apply JsMapFacts.elem_of_get.
  - intros (k & Hget). exists (k, v). split; [done|].
    by apply JsMapFacts.get_Some_elem_of.
Qed.

End registry_facts.

(** X24: the registry holds one entry per socket, also when a socket
    authenticates again.  After an accepted [authenticate] the clients
    listed for a user are the new entry of this socket, when the decoded
    token names that user, and the entries that other sockets had before;
    the entry this socket had under an earlier identity is no longer
    listed for anyone. *)
Theorem authenticate_replaces_registry_entry
    verifyJWT me sock token decoded now w :
  sockets w !! me = Some sock →
  token ≠ "" →
  verifyJWT token = Some decoded →
  JsMap.wf (connectedClients w) →
  (∀ k c, JsMap.get k (connectedClients w) = Some c → c_socketId c = k) →
  let w' := handle verifyJWT me (MsgAuthenticate (Some token)) now w in
  let info := {| c_userId := d_userId decoded; c_socketId := me;
                 c_connectedAt := now;
                 c_hubspotConnected := d_hubspotConnected decoded |} in
  JsMap.wf (connectedClients w')
  ∧ (∀ k c, JsMap.get k (connectedClients w') = Some c → c_socketId c = k)
  ∧ ∀ uid c,
      c ∈ getClientsByUserId uid w'
      ↔ (c = info ∧ d_userId decoded = uid)
        ∨ (c ∈ getClientsByUserId uid w ∧ c_socketId c ≠ me).
Proof.
  intros Hsock Htoken Hverify Hwf Hkey w' info.
  assert (Hm : connectedClients w' = JsMap.set me info (connectedClients w)).
  { subst w'. unfold handle, onAuthenticate. rewrite Hsock, Hverify.
    by destruct (String.eqb_spec token ""). }
  assert (Hwf' : JsMap.wf (connectedClients w'))
    by (rewrite Hm; by apply JsMapFacts.wf_set).
  assert (Hget' : ∀ k, JsMap.get k (connectedClients w') =
                       if decide (k = me) then Some info
                       else JsMap.get k (connectedClients w)).
  { intros k. rewrite Hm. case_decide as Hk.
    - subst k. apply JsMapFacts.get_set_eq.
    - apply JsMapFacts.get_set_ne. congruence. }
  split; [done|]. split.
  { intros k c. rewrite Hget'. case_decide as Hk.
    - intros [= <-]. by subst k.
    - apply Hkey. }
  intros uid c. unfold getClientsByUserId, getConnectedClients.
  rewrite !list_elem_of_filter, !elem_of_values by done. split.
  - intros [Hu (k & Hk)]. rewrite Hget' in Hk. case_decide as Hkm.
    + injection Hk as <-. by left.
    + right. split; [split; [done|by exists k]|].
      by rewrite (Hkey _ _ Hk).
  - intros [[-> <-]|[[Hu (k & Hk)] Hne]].
    + split; [done|]. exists me. rewrite Hget'. by rewrite decide_True.
    + split; [done|]. exists k. rewrite Hget'.
      rewrite decide_False; [done|]. by rewrite <- (Hkey _ _ Hk).
Qed.

Lemma authenticate_replaces_registry_entry_witness :
  let w' := handle twoTokens "a" (MsgAuthenticate (Some "token-u3")) 1500
              relayWithOutsider in
  getClientsByUserId (Some "u1") w' = []
  ∧ c_socketId <$> getClientsByUserId (Some "u3") w' = ["a"; "c"].
Proof.
  intros w'.
  assert (H1 : ∃ sockA, sockets relayWithOutsider !! "a" = Some sockA)
    by (eexists; vm_compute; reflexivity).
  destruct H1 as [sockA H1].
  assert (H2 : ∃ d, twoTokens "token-u3" = Some d)
    by (eexists; vm_compute; reflexivity).
  destruct H2 as [d H2].
  destruct (authenticate_replaces_registry_entry twoTokens "a" sockA
              "token-u3" d 1500 relayWithOutsider H1) as (Hwf & _ & _).
  - discriminate.
  - exact H2.
  - apply (bool_decide_unpack _). by vm_compute.
  - intros k c Hget. apply JsMapFacts.get_Some_elem_of in Hget.
    vm_compute in Hget.
    repeat (apply elem_of_cons in Hget as [Hget|Hget];
            [injection Hget as -> ->; reflexivity|]).
    by apply elem_of_nil in Hget.
  - clear Hwf. split; vm_compute; reflexivity.
Defined.

(** ** The [verifyToken] middleware *)

(** X25: the [Bearer ] prefix of the [Authorization] header is
    optional.  For a token that is not empty and does not contain
    [Bearer ], the header with the prefix and the bare token get the same
    verdict, and the request is passed on, with the decoded user, exactly
    when the verifier accepts that token. *)
Theorem verifyToken_bearer_prefix_is_optional verifyJWT token :
  token ≠ "" →
  ¬ occursIn "Bearer " token →
  verifyToken verifyJWT (Some ("Bearer " +:+ token))
  = verifyToken verifyJWT (Some token)
  ∧ ∀ decoded,
      verifyToken verifyJWT (Some token) = Next decoded
      ↔ verifyJWT token = Some decoded.
Proof.
  intros Htoken Hno.
  assert (Hbare : replaceFirst "Bearer " "" token = token)
    by by apply replaceFirst_absent.
  assert (Hpre : replaceFirst "Bearer " "" ("Bearer " +:+ token) = token).
  { rewrite replaceFirst_prefix; [done|]. apply prefix_app. }
  assert (Hheader : ∀ header,
            verifyToken verifyJWT (Some header) =
              let t := replaceFirst "Bearer " "" header in
              if String.eqb t "" then Denied 401 "Access denied" "No token provided"
              else match verifyJWT t with
                   | None => Denied 401 "Invalid token" "Token verification failed"
                   | Some decoded => Next decoded
                   end) by done.
  rewrite !Hheader, Hpre, Hbare. split; [done|].
  intros decoded. cbv zeta. destruct (String.eqb_spec token ""); [done|].
  destruct (verifyJWT token); split; congruence.
Qed.

Lemma verifyToken_bearer_prefix_is_optional_witness :
  verifyToken twoTokens (Some "Bearer token-u1")
  = verifyToken twoTokens (Some "token-u1").
Proof.
  refine (proj1 (verifyToken_bearer_prefix_is_optional twoTokens "token-u1" _ _)).
  - discriminate.
  - intros (before & after & H).
    repeat (destruct before as [|? before]; [discriminate H|];
            injection H as _ H).
    by destruct before.
Defined.
